(** * n8n-openapi-node: a shallow embedding and its verification

    The library turns an OpenAPI v3 document into n8n node properties.
    This development embeds its TypeScript sources as Rocq functions over
    a model of JavaScript values and proves, or refutes on concrete
    documents, the properties stated about them.

    Layout: the embedding first (values, reference resolver, example
    builder, property mapper, document walker, collectors, properties
    builder), then the verification. *)

From Stdlib Require Import ZArith String Ascii List DecimalString Lia Sorting.Sorted.
From stdpp Require Import base option list strings gmap sets.

Local Open Scope string_scope.
Local Open Scope list_scope.

(** ** JavaScript values

    A document is a JSON tree.  Objects are association lists kept in
    own-property order (for string keys: insertion order), because the
    sources iterate objects with [for ... in], [Object.keys] and
    [Object.entries].  [JUndef] is JavaScript's [undefined]: it never
    occurs in a parsed document but is produced by property reads and is
    stored by the example builder.  Numbers are integers here; no modelled
    function computes with them.  Keys that are canonical array indices,
    which JavaScript orders before the other keys of an object, and
    properties inherited from [Object.prototype] are not modelled. *)

Unset Elimination Schemes.
Inductive json : Type :=
| JUndef
| JNull
| JBool (b : bool)
| JNum (n : Z)
| JStr (s : string)
| JArr (items : list json)
| JObj (props : list (string * json)).
Set Elimination Schemes.

(** Induction over the tree, with the hypothesis for every element of an
    array and every value of an object. *)
Definition json_ind (P : json -> Prop)
  (Hundef : P JUndef) (Hnull : P JNull)
  (Hbool : forall b, P (JBool b)) (Hnum : forall n, P (JNum n))
  (Hstr : forall s, P (JStr s))
  (Harr : forall items, Forall P items -> P (JArr items))
  (Hobj : forall props, Forall (fun kv => P (snd kv)) props -> P (JObj props)) :
  forall j, P j :=
  fix go (j : json) : P j :=
    match j with
    | JUndef => Hundef
    | JNull => Hnull
    | JBool b => Hbool b
    | JNum n => Hnum n
    | JStr s => Hstr s
    | JArr items =>
        Harr items
          ((fix all (l : list json) : Forall P l :=
              match l with
              | [] => @List.Forall_nil _ P
              | x :: l' => @List.Forall_cons _ P x l' (go x) (all l')
              end) items)
    | JObj props =>
        Hobj props
          ((fix all (l : list (string * json)) : Forall (fun kv => P (snd kv)) l :=
              match l with
              | [] => @List.Forall_nil _ _
              | kv :: l' => @List.Forall_cons _ _ kv l' (go (snd kv)) (all l')
              end) props)
    end.

(** Outcome of a call: a value, a thrown [Error] with its message, or a
    recursion that does not return (the model ran out of fuel). *)
Inductive result (A : Type) : Type :=
| Ok (a : A)
| Throw (msg : string)
| Diverge.
Arguments Ok {A} a.
Arguments Throw {A} msg.
Arguments Diverge {A}.

#[global] Instance result_ret : MRet result := fun A a => Ok a.
#[global] Instance result_bind : MBind result := fun A B f m =>
  match m with
  | Ok a => f a
  | Throw msg => Throw msg
  | Diverge => Diverge
  end.
#[global] Instance result_fmap : FMap result := fun A B f m =>
  match m with
  | Ok a => Ok (f a)
  | Throw msg => Throw msg
  | Diverge => Diverge
  end.

(** The errors the engine itself throws (a property read on [undefined]
    or [null], a call of something that is not a function, [in] on a
    value that is not an object) are all this one; the text of their
    messages is not modelled. *)
Definition TypeError : string := "TypeError".

Module JS.

(** [obj[k]] on the own properties of an object. *)
Fixpoint lookup_key (k : string) (props : list (string * json)) : option json :=
  match props with
  | [] => None
  | (k', v) :: rest => if String.eqb k k' then Some v else lookup_key k rest
  end.

(** [obj[k] = v]: an existing key keeps its place, a new key goes last. *)
Fixpoint set_key (k : string) (v : json) (props : list (string * json))
  : list (string * json) :=
  match props with
  | [] => [(k, v)]
  | (k', v') :: rest =>
      if String.eqb k k' then (k, v) :: rest else (k', v') :: set_key k v rest
  end.

(** [delete obj[k]]. *)
Fixpoint delete_key (k : string) (props : list (string * json))
  : list (string * json) :=
  match props with
  | [] => []
  | (k', v') :: rest =>
      if String.eqb k k' then delete_key k rest else (k', v') :: delete_key k rest
  end.

Definition string_of_nat (n : nat) : string :=
  NilEmpty.string_of_uint (Nat.to_uint n).

Definition is_digit (c : ascii) : bool :=
  (48 <=? nat_of_ascii c)%nat && (nat_of_ascii c <=? 57)%nat.

Fixpoint digits_value (acc : nat) (s : string) : option nat :=
  match s with
  | EmptyString => Some acc
  | String c rest =>
      if is_digit c then digits_value (10 * acc + (nat_of_ascii c - 48)) rest
      else None
  end.

(** A canonical array index: decimal digits without a leading zero. *)
Definition parse_index (s : string) : option nat :=
  match s with
  | EmptyString => None
  | String c rest =>
      if Ascii.eqb c "0"%char
      then (match rest with EmptyString => Some 0%nat | _ => None end)
      else digits_value 0 s
  end.

Fixpoint chars (s : string) : list json :=
  match s with
  | EmptyString => []
  | String c rest => JStr (String c EmptyString) :: chars rest
  end.

(** The names every object inherits from [Object.prototype].  A read
    [obj[k]] and a test [k in obj] of such a name find the inherited
    member where the object has no own property of that name.  Those
    members are functions and accessors, which are no values of [json]:
    [get], [has_key] and the tables of the property mapper answer for
    own properties only, so for a key that may be any text they agree
    with the source on the names that are not inherited.  The keywords
    the sources read by name are none of these. *)
Definition Object_prototype_names : list string :=
  ["constructor"; "hasOwnProperty"; "isPrototypeOf"; "propertyIsEnumerable";
   "toLocaleString"; "toString"; "valueOf"; "__proto__";
   "__defineGetter__"; "__defineSetter__"; "__lookupGetter__"; "__lookupSetter__"].

Definition inherited (k : string) : bool :=
  existsb (String.eqb k) Object_prototype_names.

(** The property read [v[k]] (also written [v.k]) where [v] is not
    [null] or [undefined]; reads from those throw and are guarded for at
    their call sites.  Own properties only, see [inherited]. *)
Definition get (k : string) (v : json) : json :=
  match v with
  | JObj props => default JUndef (lookup_key k props)
  | JArr items =>
      match parse_index k with
      | Some i => nth i items JUndef
      | None => if String.eqb k "length" then JNum (Z.of_nat (length items)) else JUndef
      end
  | JStr s =>
      match parse_index k with
      | Some i => nth i (chars s) JUndef
      | None => if String.eqb k "length" then JNum (Z.of_nat (String.length s)) else JUndef
      end
  | _ => JUndef
  end.

(** [k in v], for the keyword names the sources test; on a primitive the
    operator throws a TypeError. *)
Definition has_key (k : string) (v : json) : result bool :=
  match v with
  | JObj props => Ok (bool_decide (is_Some (lookup_key k props)))
  | JArr items =>
      Ok (match parse_index k with
          | Some i => (i <? length items)%nat
          | None => String.eqb k "length"
          end)
  | _ => Throw TypeError
  end.

(** [v === undefined]. *)
Definition is_undefined (v : json) : bool :=
  match v with JUndef => true | _ => false end.

(** [v === undefined || v === null]. *)
Definition is_nullish (v : json) : bool :=
  match v with JUndef | JNull => true | _ => false end.

(** ToBoolean. *)
Definition truthy (v : json) : bool :=
  match v with
  | JUndef | JNull => false
  | JBool b => b
  | JNum n => negb (n =? 0)%Z
  | JStr s => negb (String.eqb s "")
  | JArr _ | JObj _ => true
  end.

(** [typeof v === "object"]. *)
Definition typeof_object (v : json) : bool :=
  match v with JNull | JArr _ | JObj _ => true | _ => false end.

Fixpoint indexed (i : nat) (l : list json) : list (string * json) :=
  match l with
  | [] => []
  | x :: rest => (string_of_nat i, x) :: indexed (S i) rest
  end.

(** Own enumerable string-keyed properties, as [Object.keys],
    [Object.entries], [for ... in] and [Object.assign] see them. *)
Definition own_entries (v : json) : list (string * json) :=
  match v with
  | JObj props => props
  | JArr items => indexed 0 items
  | JStr s => indexed 0 (chars s)
  | _ => []
  end.

(** [Object.assign(target, source)] on the properties of [target]. *)
Definition assign (target : list (string * json)) (source : json)
  : list (string * json) :=
  fold_left (fun acc kv => set_key (fst kv) (snd kv) acc) (own_entries source) target.

(** [Object.assign({}, ...sources)]. *)
Definition assign_all (sources : list json) : list (string * json) :=
  fold_left assign sources [].

(** [s.split(sep)] for a one-character separator. *)
Fixpoint split_on (sep : ascii) (s : string) : list string :=
  match s with
  | EmptyString => [EmptyString]
  | String c rest =>
      if Ascii.eqb c sep then EmptyString :: split_on sep rest
      else match split_on sep rest with
           | [] => [String c EmptyString]
           | w :: ws => String c w :: ws
           end
  end.

Fixpoint is_prefix (p s : string) : bool :=
  match p, s with
  | EmptyString, _ => true
  | String a p', String b s' => Ascii.eqb a b && is_prefix p' s'
  | String _ _, EmptyString => false
  end.

(** [s] contains [p]. *)
Fixpoint contains (p s : string) : bool :=
  is_prefix p s ||
  match s with
  | EmptyString => false
  | String _ s' => contains p s'
  end.

Definition map_chars (f : ascii -> ascii) : string -> string :=
  fix go (s : string) : string :=
    match s with
    | EmptyString => EmptyString
    | String c rest => String (f c) (go rest)
    end.

Definition is_lower (c : ascii) : bool :=
  (97 <=? nat_of_ascii c)%nat && (nat_of_ascii c <=? 122)%nat.
Definition is_upper (c : ascii) : bool :=
  (65 <=? nat_of_ascii c)%nat && (nat_of_ascii c <=? 90)%nat.

(** [s.toUpperCase()], exact on ASCII text such as the HTTP method names
    it is applied to. *)
Definition toUpperCase : string -> string :=
  map_chars (fun c => if is_lower c then ascii_of_nat (nat_of_ascii c - 32) else c).

End JS.
Import JS.

(** ** reference-resolver.ts *)

Module Resolver.

(** The second component of [ResolveRef]'s answer: [undefined], or the
    array of pointers; [lodash.flatten] leaves an [undefined] entry for
    every member of an [allOf] that had no chain. *)
Definition Refs : Type := option (list (option string)).

(** [v[0]]. *)
Definition elem0 (v : json) : result json :=
  if is_nullish v then Throw TypeError else Ok (get "0" v).

Definition not_found (ref : string) : string :=
  "Schema not found for ref '" +:+ ref +:+ "'".

(** The loop of [FindRef] over the segments of the pointer.  Only the
    document itself can be [null] or [undefined] at the read: what the
    loop goes on with is truthy. *)
Fixpoint walk_path (ref : string) (refPath : list string) (schema : json)
  : result json :=
  match refPath with
  | [] => Ok schema
  | path :: rest =>
      if is_nullish schema then Throw TypeError else
      let schema := get path schema in
      if truthy schema then walk_path ref rest schema
      else Throw (not_found ref)
  end.

Fixpoint FindRef (fuel : nat) (apiDocument : json) (ref : json) : result json :=
  match fuel with
  | O => Diverge
  | S fuel =>
      match ref with
      | JStr r =>
          schema ← walk_path r (tail (split_on "/" r)) apiDocument;
          is_ref ← has_key "$ref" schema;
          if is_ref : bool then FindRef fuel apiDocument (get "$ref" schema)
          else Ok schema
      | _ => Throw TypeError
      end
  end.

Definition flatten_refs (refs : list Refs) : list (option string) :=
  concat (map (fun r : Refs => match r with Some l => l | None => [None] end) refs).

Fixpoint ResolveRef (fuel : nat) (apiDocument : json) (schema : json)
  : result (json * Refs) :=
  match fuel with
  | O => Diverge
  | S fuel =>
      has_properties ← has_key "properties" schema;
      if has_properties : bool then Ok (schema, None) else
      has_oneOf ← has_key "oneOf" schema;
      schema ← (if has_oneOf : bool then elem0 (get "oneOf" schema) else Ok schema);
      has_anyOf ← has_key "anyOf" schema;
      schema ← (if has_anyOf : bool then elem0 (get "anyOf" schema) else Ok schema);
      has_allOf ← has_key "allOf" schema;
      if has_allOf : bool then
        match get "allOf" schema with
        | JArr members =>
            results ← mapM (ResolveRef fuel apiDocument) members;
            let schemas := map fst results in
            let refs := map snd results in
            Ok (JObj (assign_all schemas), Some (flatten_refs refs))
        | _ => Throw TypeError
        end
      else
      has_ref ← has_key "$ref" schema;
      if has_ref : bool then
        schemaResolved ← FindRef fuel apiDocument (get "$ref" schema);
        match get "$ref" schema with
        | JStr ref =>
            let rest := delete_key "$ref" (own_entries schema) in
            Ok (JObj (assign rest schemaResolved), Some [Some ref])
        | _ => Throw TypeError
        end
      else Ok (schema, None)
  end.

Definition Resolve (fuel : nat) (apiDocument : json) (schema : json) : result json :=
  fst <$> ResolveRef fuel apiDocument schema.

End Resolver.
Import Resolver.

(** ** schema-example.ts *)

Module Example.

(** A loop body run over a list with the instance state threaded through,
    stopping at the first exception. *)
Fixpoint mapM_st {S A B : Type} (f : S -> A -> result (B * S)) (l : list A) (s : S)
  : result (list B * S) :=
  match l with
  | [] => Ok ([], s)
  | x :: rest =>
      '(y, s) ← f s x;
      '(ys, s) ← mapM_st f rest s;
      Ok (y :: ys, s)
  end.

(** The cycle guard at the head of [build]: [inl] when a pointer of the
    chain was already visited (the caller returns the empty object),
    [inr] otherwise; either way with the pointers added so far. *)
Fixpoint visit_refs (refs : list (option string)) (visitedRefs : gset (option string))
  : gset (option string) + gset (option string) :=
  match refs with
  | [] => inr visitedRefs
  | ref :: rest =>
      if bool_decide (ref ∈ visitedRefs) then inl visitedRefs
      else visit_refs rest ({[ref]} ∪ visitedRefs)
  end.

Section SchemaExampleBuilder.

(** [this.resolver.ResolveRef], given to the constructor. *)
Variable resolver : json -> result (json * Refs).

(** [build] with the field [visitedRefs] passed in and out. *)
Fixpoint build (fuel : nat) (visitedRefs : gset (option string)) (schema : json)
  : result (json * gset (option string)) :=
  match fuel with
  | O => Diverge
  | S fuel =>
      '(schema, refs) ← resolver schema;
      match (match refs with Some refs => visit_refs refs visitedRefs
                           | None => inr visitedRefs end) with
      | inl visitedRefs => Ok (JObj [], visitedRefs)
      | inr visitedRefs =>
      has_oneOf ← has_key "oneOf" schema;
      if has_oneOf : bool then
        let oneOf := get "oneOf" schema in
        build fuel visitedRefs (if is_nullish oneOf then JUndef else get "0" oneOf)
      else
      has_allOf ← has_key "allOf" schema;
      if has_allOf : bool then
        match get "allOf" schema with
        | JArr members =>
            '(examples, visitedRefs) ← mapM_st (build fuel) members visitedRefs;
            Ok (JObj (assign_all examples), visitedRefs)
        | JUndef | JNull => Ok (JObj [], visitedRefs)
        | _ => Throw TypeError
        end
      else
      has_example ← has_key "example" schema;
      if (has_example : bool) && negb (is_undefined (get "example" schema))
      then Ok (get "example" schema, visitedRefs) else
      has_default ← has_key "default" schema;
      if (has_default : bool) && negb (is_undefined (get "default" schema))
      then Ok (get "default" schema, visitedRefs) else
      has_properties ← has_key "properties" schema;
      if (has_properties : bool) && truthy (get "properties" schema) then
        '(entries, visitedRefs) ←
          mapM_st (fun visitedRefs kv =>
                     '(example, visitedRefs) ← build fuel visitedRefs (snd kv);
                     Ok ((fst kv, example), visitedRefs))
                  (own_entries (get "properties" schema)) visitedRefs;
        let obj := fold_left (fun obj kv => set_key (fst kv) (snd kv) obj) entries [] in
        Ok (JObj obj, visitedRefs)
      else
      has_items ← has_key "items" schema;
      if (has_items : bool) && truthy (get "items" schema) then
        build fuel visitedRefs (get "items" schema)
      else Ok (JUndef, visitedRefs)
      end
  end.

End SchemaExampleBuilder.

(** [SchemaExample.extractExample]: a new builder, so an empty visited
    set, for every call. *)
Definition extractExample (fuel : nat) (apiDocument : json) (schema : json)
  : result json :=
  fst <$> build (ResolveRef fuel apiDocument) fuel ∅ schema.

End Example.
Import Example.

(** ** Functions of the host and of lodash

    The sources call into the JavaScript runtime and into lodash.  What
    these compute is not part of the repository, so the embedding takes
    them as an interface; every statement below holds for each of its
    implementations. *)
Class Host : Type := {
  (** [lodash.startCase(v)] *)
  startCase : json -> string;
  (** [JSON.stringify(v, null, 2)] for a [v] with [typeof v === "object"] *)
  JSON_stringify : json -> string;
  (** [encodeURIComponent(s)] *)
  encodeURIComponent : string -> string;
  (** [String(v)] for a [v] that is not a string: template literals and
      computed property keys *)
  String_of : json -> string;
  (** the predicate [lodash.filter(fields, find)] selects with *)
  isMatch : json -> json -> bool
}.

(** [`${v}`], and [v] used as a property key. *)
Definition to_string {host : Host} (v : json) : string :=
  match v with JStr s => s | _ => String_of v end.

(** ** schema-to-properties.ts (the property mapper) *)

Module Mapper.

Definition JSON_CONTENT_PATTERN_source : string := "/application\/json.*/".

(** [JSON_CONTENT_PATTERN.test(k)]: the pattern is not anchored and ends
    in [.*], so it matches exactly the keys containing the text
    application/json. *)
Definition JSON_CONTENT_PATTERN_test (k : string) : bool :=
  contains "application/json" k.

(** The two tables, read for their own keys; for a type that is an
    [inherited] name the object literals of the source answer with the
    inherited member. *)
Definition SCHEMA_DEFAULTS (schemaType : string) : json :=
  if String.eqb schemaType "boolean" then JBool true
  else if String.eqb schemaType "string" then JStr ""
  else if String.eqb schemaType "object" then JStr "{}"
  else if String.eqb schemaType "array" then JStr "[]"
  else if String.eqb schemaType "number" then JNum 0
  else if String.eqb schemaType "integer" then JNum 0
  else JUndef.

Definition PROPERTY_TYPE_MAPPING (schemaType : string) : json :=
  if String.eqb schemaType "boolean" then JStr "boolean"
  else if String.eqb schemaType "string" then JStr "string"
  else if String.eqb schemaType "object" then JStr "json"
  else if String.eqb schemaType "array" then JStr "json"
  else if String.eqb schemaType "number" then JStr "number"
  else if String.eqb schemaType "integer" then JStr "number"
  else JUndef.

(** [a || b]. *)
Definition or_else (a b : json) : json := if truthy a then a else b.

(** One source of [lodash.defaults]: a key is assigned when the
    destination does not have it or holds [undefined] for it. *)
Definition defaults_source (object : list (string * json)) (source : json)
  : list (string * json) :=
  fold_left
    (fun object kv =>
       if is_undefined (default JUndef (lookup_key (fst kv) object))
       then set_key (fst kv) (snd kv) object
       else object)
    (own_entries source) object.

(** [lodash.defaults({}, ...sources)]. *)
Definition lodash_defaults (sources : list json) : list (string * json) :=
  fold_left defaults_source sources [].

(** [MergeProperties(...sources)]; the answer is the object with these
    properties. *)
Definition MergeProperties (sources : list json) : list (string * json) :=
  let mergedProperties := lodash_defaults sources in
  if negb (truthy (default JUndef (lookup_key "required" mergedProperties)))
  then delete_key "required" mergedProperties
  else mergedProperties.

(** [Object.keys(obj).find((k) => pattern.test(k))], then [obj[key]]. *)
Definition FindMatchingKey (obj : json) : result json :=
  if is_nullish obj then Throw TypeError else
  match List.find JSON_CONTENT_PATTERN_test (map fst (own_entries obj)) with
  | Some key => Ok (get key obj)
  | None => Ok JUndef
  end.

Definition IsContentObject (value : json) : bool :=
  match value with
  | JObj props => bool_decide (is_Some (lookup_key "schema" props))
  | _ => false
  end.

(** [s.replace(/\./g, "-")]. *)
Definition replace_dots : string -> string :=
  map_chars (fun c => if Ascii.eqb c "."%char then "-"%char else c).

Definition value_expression : string := "={{ $value }}".
Definition json_parse_expression : string := "={{ JSON.parse($value) }}".

Section PropertyMapper.
Context {host : Host}.

(** Fuel for the recursions of the resolver and of the example builder,
    and the document given to the constructor. *)
Variable fuel : nat.
Variable apiDocument : json.

(** [schema.type || "string"], as the property key it is used for. *)
Definition schema_type (schema : json) : string :=
  to_string (or_else (get "type" schema) (JStr "string")).

(** [GetDefaultValues(schema)[schema.type || "string"]]. *)
Definition GetDefaultValue (schema : json) : json :=
  SCHEMA_DEFAULTS (schema_type schema).

Definition GetTypeMapping (schemaType : string) : json :=
  or_else (PROPERTY_TYPE_MAPPING schemaType) (JStr "string").

Definition enum_option (value : json) : json :=
  JObj [("name", JStr (startCase value)); ("value", value)].

(** The [default] a field starts with: the example when there is one,
    else the default of the type; serialised when it is an object. *)
Definition field_default (exampleValue resolvedSchema : json) : json :=
  let defaultValue :=
    if negb (is_undefined exampleValue) then exampleValue
    else GetDefaultValue resolvedSchema in
  if typeof_object defaultValue then JStr (JSON_stringify defaultValue)
  else defaultValue.

Definition MapFromSchema (schema : json) : result json :=
  resolvedSchema ← Resolve fuel apiDocument schema;
  exampleValue ← extractExample fuel apiDocument resolvedSchema;
  let type := GetTypeMapping (schema_type resolvedSchema) in
  let field :=
    [("type", type);
     ("default", field_default exampleValue resolvedSchema);
     ("description", get "description" resolvedSchema)] in
  match get "enum" resolvedSchema with
  | JArr (first :: others) =>
      let field := set_key "type" (JStr "options") field in
      let field := set_key "options" (JArr (map enum_option (first :: others))) field in
      let field :=
        set_key "default" (or_else (default JUndef (lookup_key "default" field)) first)
                field in
      Ok (JObj field)
  | JStr (String _ _) => Throw TypeError
  | _ => Ok (JObj field)
  end.

Definition unknown_location (location : string) : string :=
  "Unknown parameter location '" +:+ location +:+ "'".

(** [SetParameterRouting(field, parameter)] on the properties of [field]. *)
Definition SetParameterRouting (field : list (string * json)) (parameter : json)
  : result (list (string * json)) :=
  let name := get "name" parameter in
  match get "in" parameter with
  | JStr location =>
      if String.eqb location "query" then
        Ok (set_key "routing"
              (JObj [("send", JObj [("type", JStr "query");
                                    ("property", name);
                                    ("value", JStr value_expression);
                                    ("propertyInDotNotation", JBool false)])])
              field)
      else if String.eqb location "path" then
        Ok (set_key "required" (JBool true) field)
      else if String.eqb location "header" then
        Ok (set_key "routing"
              (JObj [("request",
                      JObj [("headers",
                             JObj [(to_string name, JStr value_expression)])])])
              field)
      else Throw (unknown_location location)
  | location => Throw (unknown_location (to_string location))
  end.

Definition parameterFieldConfig (resolvedParameter : json) (name : string) : json :=
  JObj [("displayName", JStr (startCase (JStr name)));
        ("name", JStr (encodeURIComponent (replace_dots name)));
        ("required", get "required" resolvedParameter);
        ("description", get "description" resolvedParameter);
        ("default", get "example" resolvedParameter)].

(** The schema-derived config of a parameter: from its [schema], else
    from its JSON content; [undefined] when it has neither. *)
Definition parameter_schema_config (resolvedParameter : json) : result json :=
  schemaFieldConfig ←
    (if truthy (get "schema" resolvedParameter)
     then MapFromSchema (get "schema" resolvedParameter)
     else Ok JUndef);
  if negb (truthy schemaFieldConfig) && truthy (get "content" resolvedParameter)
  then
    content ← FindMatchingKey (get "content" resolvedParameter);
    if IsContentObject content then MapFromSchema (get "schema" content)
    else Ok schemaFieldConfig
  else Ok schemaFieldConfig.

Definition MapFromParameter (parameter : json) : result json :=
  resolvedParameter ← Resolve fuel apiDocument parameter;
  let name := get "name" resolvedParameter in
  if negb (truthy name) then Throw "Parameter name is required" else
  schemaFieldConfig ← parameter_schema_config resolvedParameter;
  if negb (truthy schemaFieldConfig) then
    Throw ("Parameter schema or content not found for parameter '"
           +:+ to_string name +:+ "'")
  else
    match name with
    | JStr name =>
        let field := MergeProperties [parameterFieldConfig resolvedParameter name;
                                      schemaFieldConfig] in
        field ← SetParameterRouting field resolvedParameter;
        if negb (truthy (default JUndef (lookup_key "required" field)))
        then Ok (JObj (delete_key "required" field))
        else Ok (JObj field)
    | _ => Throw TypeError
    end.

Definition MapFromParameters (parameters : json) : result (list json) :=
  if negb (truthy parameters) then Ok [] else
  match parameters with
  | JArr items => mapM MapFromParameter items
  | _ => Throw TypeError
  end.

(** The properties of the field [MapFromSchemaProperty] returns. *)
Definition MapFromSchemaProperty (name : string) (property : json)
  : result (list (string * json)) :=
  schemaFieldConfig ← MapFromSchema property;
  let parameterFieldConfig :=
    JObj [("displayName", JStr (startCase (JStr name)));
          ("name", JStr (replace_dots name))] in
  Ok (MergeProperties [parameterFieldConfig; schemaFieldConfig]).

(** [schema.required?.includes(key) ?? false]. *)
Definition required_includes (schema : json) (key : string) : result json :=
  match get "required" schema with
  | JUndef | JNull => Ok (JBool false)
  | JArr names =>
      Ok (JBool (existsb (fun n => match n with
                                   | JStr s => String.eqb s key
                                   | _ => false
                                   end) names))
  | JStr names => Ok (JBool (contains key names))
  | _ => Throw TypeError
  end.

(** The body of the loop over [schema.properties]. *)
Definition body_property_field (schema : json) (kv : string * json) : result json :=
  let key := fst kv in
  fieldPropertyKeys ← MapFromSchemaProperty key (snd kv);
  required ← required_includes schema key;
  let fieldDefaults := JObj [("required", required)] in
  let field := MergeProperties [fieldDefaults; JObj fieldPropertyKeys] in
  let value :=
    match default JUndef (lookup_key "type" field) with
    | JStr type => if String.eqb type "json" then json_parse_expression
                   else value_expression
    | _ => value_expression
    end in
  Ok (JObj (set_key "routing"
              (JObj [("send", JObj [("property", JStr key);
                                    ("propertyInDotNotation", JBool false);
                                    ("type", JStr "body");
                                    ("value", JStr value)])])
              field)).

(** [schema.type === name]. *)
Definition is_type (name : string) (schema : json) : bool :=
  match get "type" schema with
  | JStr s => String.eqb s name
  | _ => false
  end.

Definition no_json_content : string :=
  "No '" +:+ JSON_CONTENT_PATTERN_source +:+ "' content found".

Definition MapFromRequestBody (body : json) : result (list json) :=
  if negb (truthy body) then Ok [] else
  resolvedBody ← Resolve fuel apiDocument body;
  content ← FindMatchingKey (get "content" resolvedBody);
  if negb (IsContentObject content) then Throw no_json_content else
  schema ← Resolve fuel apiDocument (get "schema" content);
  if negb (truthy (get "properties" schema))
     && negb (is_type "object" schema) && negb (is_type "array" schema)
  then
    Throw ("Request body schema type '"
           +:+ to_string (or_else (get "type" schema) (JStr "unknown"))
           +:+ "' not supported")
  else
  arrayFields ←
    (if is_type "array" schema && truthy (get "items" schema) then
       innerSchema ← Resolve fuel apiDocument (get "items" schema);
       fieldPropertyKeys ← MapFromSchemaProperty "body" innerSchema;
       let fieldDefaults :=
         JObj [("required", JBool (truthy (get "required" schema)))] in
       let field := MergeProperties [fieldDefaults; JObj fieldPropertyKeys] in
       Ok [JObj (set_key "routing"
                   (JObj [("request", JObj [("body", JStr json_parse_expression)])])
                   field)]
     else Ok []);
  propertyFields ←
    (if truthy (get "properties" schema)
     then mapM (body_property_field schema) (own_entries (get "properties" schema))
     else Ok []);
  Ok (arrayFields ++ propertyFields).

End PropertyMapper.

End Mapper.
Import Mapper.

(** ** utils/index.ts *)

Definition dquote : string := String (ascii_of_nat 34) EmptyString.

(** The global replacement of [FormatPathWithParameters], which rewrites
    every brace-delimited placeholder, in one pass over the text:
    [inside] holds the characters read since an opening brace that is
    still waiting for its closing brace. *)
Fixpoint format_path (inside : option string) (uri : string) : string :=
  match uri with
  | EmptyString =>
      match inside with
      | Some name => "{" +:+ name
      | None => EmptyString
      end
  | String c rest =>
      match inside with
      | None =>
          if Ascii.eqb c "{"%char then format_path (Some EmptyString) rest
          else String c (format_path None rest)
      | Some name =>
          if Ascii.eqb c "}"%char
          then "{{$parameter[" +:+ dquote +:+ name +:+ dquote +:+ "]}}"
               +:+ format_path None rest
          else format_path (Some (name +:+ String c EmptyString)) rest
      end
  end.

Definition FormatPathWithParameters (uri : string) : string :=
  format_path None uri.

(** ** openapi-visitor.ts and openapi-parser.ts (the document walker) *)

Module Walker.

Record IOperationContext : Type := {
  pattern : string;
  path : json;
  method : string
}.

(** A visitor with state [S].  Every hook is optional.  The operation
    hooks also receive the document as it is at the time of the call:
    the collectors keep a reference to the same object the walker
    traverses and resolve pointers in it. *)
Record IOpenApiVisitor (S : Type) : Type := {
  visitDocument : option (json -> S -> result S);
  VisitOperation : option (json -> json -> IOperationContext -> S -> result S);
  VisitTag : option (json -> S -> result S);
  Finish : option (S -> result S);
  visitOperation : option (json -> json -> IOperationContext -> S -> result S);
  visitTag : option (json -> S -> result S)
}.
Arguments visitDocument {S}.
Arguments VisitOperation {S}.
Arguments VisitTag {S}.
Arguments Finish {S}.
Arguments visitOperation {S}.
Arguments visitTag {S}.

(** [Object.values(OpenAPIV3.HttpMethods)], from the openapi-types
    package. *)
Definition HTTP_METHODS : list string :=
  ["get"; "put"; "post"; "delete"; "options"; "head"; "patch"; "trace"].

Definition is_http_method (k : string) : bool :=
  existsb (String.eqb k) HTTP_METHODS.

(** The nested write [target[k1][k2]... = v]. *)
Fixpoint set_in (keys : list string) (v : json) (target : json) : json :=
  match keys with
  | [] => v
  | k :: rest =>
      match target with
      | JObj props => JObj (set_key k (set_in rest v (get k target)) props)
      | other => other
      end
  end.

(** [hook?.(args)] on the state. *)
Definition call_hook {S : Type} (hook : option (S -> result S)) (st : S) : result S :=
  match hook with
  | Some f => f st
  | None => Ok st
  end.

(** [visitor.VisitOperation?.(operation, context) ??
     visitor.visitOperation?.(operation, context)]: the hooks return
    nothing, so the second one, when there is one, runs as well. *)
Definition visit_operation {S : Type} (visitor : IOpenApiVisitor S)
    (doc operation : json) (context : IOperationContext) (st : S) : result S :=
  st ← call_hook ((fun f => f doc operation context) <$> VisitOperation visitor) st;
  call_hook ((fun f => f doc operation context) <$> visitOperation visitor) st.

Definition visit_tag {S : Type} (visitor : IOpenApiVisitor S) (tag : json) (st : S)
  : result S :=
  st ← call_hook ((fun f => f tag) <$> VisitTag visitor) st;
  call_hook ((fun f => f tag) <$> visitTag visitor) st.

(** The walker writes into the document it traverses, so its functions
    take the document and return it with their outcome; the document is
    returned also when a hook throws. *)

(** The inner loop of [ParsePaths], over the keys of one path item.  An
    array under a method key is outside [OpenAPIV3.PathItemObject] and is
    not followed. *)
Fixpoint ParseMethods {S : Type} (visitor : IOpenApiVisitor S) (pathName : string)
    (httpMethods : list string) (doc : json) (st : S) : json * result S :=
  match httpMethods with
  | [] => (doc, Ok st)
  | httpMethod :: rest =>
      if negb (is_http_method httpMethod)
      then ParseMethods visitor pathName rest doc st
      else
        let pathItem := get pathName (get "paths" doc) in
        match get httpMethod pathItem with
        | JObj props as operation =>
            if bool_decide (is_Some (lookup_key "$ref" props))
            then ParseMethods visitor pathName rest doc st
            else
              let doc :=
                if is_nullish (get "tags" operation)
                then set_in ["paths"; pathName; httpMethod; "tags"]
                            (JArr [JStr "default"]) doc
                else doc in
              let pathItem := get pathName (get "paths" doc) in
              let operation := get httpMethod pathItem in
              let context :=
                {| pattern := pathName; path := pathItem; method := httpMethod |} in
              match visit_operation visitor doc operation context st with
              | Ok st => ParseMethods visitor pathName rest doc st
              | failure => (doc, failure)
              end
        | JArr _ => (doc, Throw "not an operation object")
        | _ => (doc, Throw TypeError)
        end
  end.

Fixpoint ParsePathItems {S : Type} (visitor : IOpenApiVisitor S)
    (pathNames : list string) (doc : json) (st : S) : json * result S :=
  match pathNames with
  | [] => (doc, Ok st)
  | pathName :: rest =>
      let pathItem := get pathName (get "paths" doc) in
      if is_nullish pathItem then (doc, Throw TypeError)
      else
        match ParseMethods visitor pathName (map fst (own_entries pathItem)) doc st with
        | (doc, Ok st) => ParsePathItems visitor rest doc st
        | failure => failure
        end
  end.

(** [ParsePaths].  An array in the place of the paths object is outside
    [OpenAPIV3.PathsObject] and is not followed. *)
Definition ParsePaths {S : Type} (visitor : IOpenApiVisitor S) (doc : json) (st : S)
  : json * result S :=
  let paths := get "paths" doc in
  if negb (truthy paths) then (doc, Ok st)
  else match paths with
       | JArr _ => (doc, Throw "not a paths object")
       | _ => ParsePathItems visitor (map fst (own_entries paths)) doc st
       end.

Fixpoint visit_tags {S : Type} (visitor : IOpenApiVisitor S) (tags : list json) (st : S)
  : result S :=
  match tags with
  | [] => Ok st
  | tag :: rest => st ← visit_tag visitor tag st; visit_tags visitor rest st
  end.

(** [for (const tag of this.apiDocument.tags)]: arrays and strings are
    iterable. *)
Definition ParseTags {S : Type} (visitor : IOpenApiVisitor S) (doc : json) (st : S)
  : result S :=
  let tags := get "tags" doc in
  if negb (truthy tags) then Ok st
  else match tags with
       | JArr items => visit_tags visitor items st
       | JStr text => visit_tags visitor (chars text) st
       | _ => Throw TypeError
       end.

Definition Parse {S : Type} (visitor : IOpenApiVisitor S) (doc : json) (st : S)
  : json * result S :=
  match call_hook ((fun f => f doc) <$> visitDocument visitor) st with
  | Ok st =>
      if is_nullish doc then (doc, Throw TypeError) else
      match ParsePaths visitor doc st with
      | (doc, Ok st) =>
          (doc, st ← ParseTags visitor doc st; call_hook (Finish visitor) st)
      | failure => failure
      end
  | failure => (doc, failure)
  end.

End Walker.
Import Walker.

(** ** resource-parser.ts and resource-collector.ts *)

Module Resources.

(** [TagObject] of types/tag-object.ts: a name and a description. *)
Record TagObject : Type := {
  name : string;
  description : string
}.

(** [IResourceParser].  [GetValue] is given an object with only a name,
    so it is a function of the name. *)
Record IResourceParser : Type := {
  GetName : TagObject -> string;
  GetValue : string -> string;
  GetDescription : TagObject -> string
}.

(** The instance state: the map [tags], in insertion order, and the map
    [tagsOrder]. *)
Record ResourceCollector : Type := {
  tags : list (string * TagObject);
  tagsOrder : gmap string nat
}.

Definition new_ResourceCollector : ResourceCollector :=
  {| tags := []; tagsOrder := ∅ |}.

(** [Map.prototype.set]: the entry of an existing key is replaced where
    it stands, a new key goes last. *)
Fixpoint map_set {V : Type} (k : string) (v : V) (m : list (string * V))
  : list (string * V) :=
  match m with
  | [] => [(k, v)]
  | (k', v') :: rest =>
      if String.eqb k k' then (k, v) :: rest else (k', v') :: map_set k v rest
  end.

Fixpoint map_get {V : Type} (k : string) (m : list (string * V)) : option V :=
  match m with
  | [] => None
  | (k', v) :: rest => if String.eqb k k' then Some v else map_get k rest
  end.

Definition addTagByName (tag : string) (c : ResourceCollector) : ResourceCollector :=
  match map_get tag (tags c) with
  | Some _ => c
  | None =>
      {| tags := map_set tag {| name := tag; description := "" |} (tags c);
         tagsOrder := tagsOrder c |}
  end.

(** The names in [operation.tags]; a tag that is not a string is outside
    the type of the document. *)
Fixpoint tag_names (items : list json) : result (list string) :=
  match items with
  | [] => Ok []
  | JStr tag :: rest => names ← tag_names rest; Ok (tag :: names)
  | _ => Throw "tag is not a string"
  end.

Definition visitOperation (operation : json) (c : ResourceCollector)
  : result ResourceCollector :=
  match get "tags" operation with
  | JArr [] | JStr "" => Ok (addTagByName "Default" c)
  | JArr items =>
      names ← tag_names items;
      Ok (fold_left (fun c tag => addTagByName tag c) names c)
  | _ => Throw TypeError
  end.

(** [tag.description || ""]. *)
Definition description_or_empty (tag : json) : result string :=
  match get "description" tag with
  | JStr text => Ok text
  | other => if truthy other then Throw "description is not a string" else Ok ""
  end.

Definition visitTag (tag : json) (c : ResourceCollector) : result ResourceCollector :=
  if is_nullish tag then Throw TypeError else
  match get "name" tag with
  | JStr tag_name =>
      text ← description_or_empty tag;
      Ok {| tags := map_set tag_name {| name := tag_name; description := text |} (tags c);
            tagsOrder := <[tag_name := size (tagsOrder c)]> (tagsOrder c) |}
  | _ => Throw "tag name is not a string"
  end.

(** [this.tagsOrder.get(tag.name) ?? 0]. *)
Definition order_of (order : gmap string nat) (tag : TagObject) : nat :=
  default 0%nat (order !! name tag).

(** [Array.prototype.sort] is stable, so with the comparator of
    [sortedTags], a difference of numbers, its result is the one an
    insertion sort on the keys gives. *)
Fixpoint insert_by {A : Type} (key : A -> nat) (x : A) (sorted : list A) : list A :=
  match sorted with
  | [] => [x]
  | y :: rest =>
      if (key x <=? key y)%nat then x :: y :: rest
      else y :: insert_by key x rest
  end.

Definition sort_by {A : Type} (key : A -> nat) (l : list A) : list A :=
  fold_right (insert_by key) [] l.

Definition is_default (tag : TagObject) : bool := String.eqb (name tag) "default".

(** [tags.splice(tags.indexOf(defaultTag), 1)] for the first tag named
    default. *)
Fixpoint remove_first {A : Type} (p : A -> bool) (l : list A) : list A :=
  match l with
  | [] => []
  | x :: rest => if p x then rest else x :: remove_first p rest
  end.

Definition sortedTags (c : ResourceCollector) : list TagObject :=
  let tags := sort_by (order_of (tagsOrder c)) (map snd (tags c)) in
  if bool_decide (is_Some (tagsOrder c !! "default")) then tags
  else match List.find is_default tags with
       | Some defaultTag => remove_first is_default tags ++ [defaultTag]
       | None => tags
       end.

Definition resource_option (resourceParser : IResourceParser) (tag : TagObject) : json :=
  JObj [("name", JStr (GetName resourceParser tag));
        ("value", JStr (GetValue resourceParser (name tag)));
        ("description", JStr (GetDescription resourceParser tag))].

Definition resources (resourceParser : IResourceParser) (c : ResourceCollector) : json :=
  let options := map (resource_option resourceParser) (sortedTags c) in
  JObj [("displayName", JStr "Resource");
        ("name", JStr "resource");
        ("type", JStr "options");
        ("noDataExpression", JBool true);
        ("options", JArr options);
        ("default", JStr "")].

(** The collector as a visitor: it defines the hooks [visitOperation]
    and [visitTag]. *)
Definition visitor : IOpenApiVisitor ResourceCollector :=
  {| Walker.visitDocument := None;
     Walker.VisitOperation := None;
     Walker.VisitTag := None;
     Walker.Finish := None;
     Walker.visitOperation := Some (fun _ operation _ c => visitOperation operation c);
     Walker.visitTag := Some visitTag |}.

End Resources.

(** ** operation-parser.ts, resource-options-map.ts and the operation
    collector *)

Module Operations.

(** [IOperationParser]: the five methods, and those of the deprecated
    lowercase ones the collector looks for, which an implementation may
    lack. *)
Record IOperationParser : Type := {
  GetName : json -> IOperationContext -> string;
  GetValue : json -> IOperationContext -> string;
  GetAction : json -> IOperationContext -> string;
  GetDescription : json -> IOperationContext -> string;
  ShouldSkip : json -> IOperationContext -> bool;
  name : option (json -> IOperationContext -> string);
  description : option (json -> IOperationContext -> string);
  shouldSkip : option (json -> IOperationContext -> bool)
}.

(** [s.replace(/[^a-zA-Z0-9 ]/g, "-")]. *)
Definition sanitize : string -> string :=
  map_chars (fun c =>
    if is_lower c || is_upper c || is_digit c || Ascii.eqb c " "%char
    then c else "-"%char).

Section OperationParser.
Context {host : Host}.

(** The class [OperationParser], the default implementation. *)
Definition OperationParser_GetName (operation : json) (context : IOperationContext)
  : string :=
  if truthy (get "operationId" operation)
  then startCase (get "operationId" operation)
  else toUpperCase (method context) +:+ " " +:+ pattern context.

Definition OperationParser_GetValue (operation : json) (context : IOperationContext)
  : string :=
  sanitize (OperationParser_GetName operation context).

Definition OperationParser_GetAction (operation : json) (context : IOperationContext)
  : string :=
  if truthy (get "summary" operation) then to_string (get "summary" operation)
  else OperationParser_GetName operation context.

Definition OperationParser_GetDescription (operation : json) (context : IOperationContext)
  : string :=
  to_string (or_else (get "description" operation)
               (or_else (get "summary" operation) (JStr ""))).

Definition OperationParser_ShouldSkip (operation : json) (context : IOperationContext)
  : bool :=
  truthy (get "deprecated" operation).

Definition OperationParser : IOperationParser :=
  {| GetName := OperationParser_GetName;
     GetValue := OperationParser_GetValue;
     GetAction := OperationParser_GetAction;
     GetDescription := OperationParser_GetDescription;
     ShouldSkip := OperationParser_ShouldSkip;
     name := Some OperationParser_GetName;
     description := Some OperationParser_GetDescription;
     shouldSkip := Some OperationParser_ShouldSkip |}.

End OperationParser.

(** [lodash.find(resourceOptions, { value })]. *)
Definition has_value (value : json) (option : json) : bool :=
  match value, get "value" option with
  | JStr a, JStr b => String.eqb a b
  | _, _ => false
  end.

Definition duplicate_operation (value : json) (resource : string) : string :=
  "Duplicate operation '" +:+ match value with JStr v => v | _ => "" end
  +:+ "' for resource '" +:+ resource +:+ "'".

(** [ResourceOptionsMap.add]: the map, in insertion order, after the
    call, or the error thrown, which leaves the map as it was. *)
Definition add (resource : string) (option : json)
    (m : list (string * list json)) : result (list (string * list json)) :=
  let resourceOptions := default [] (Resources.map_get resource m) in
  if existsb (has_value (get "value" option)) resourceOptions
  then Throw (duplicate_operation (get "value" option) resource)
  else Ok (Resources.map_set resource (resourceOptions ++ [option]) m).

Inductive LogLevel : Type := info | warn.

(** A call of the logger: level, context object, message. *)
Record LogRecord : Type := {
  level : LogLevel;
  data : json;
  message : string
}.

(** The instance state of a collector, and the records it has sent to
    the logger. *)
Record Collector : Type := {
  collectedFields : list json;
  resourceOptions : list (string * list json);
  logContext : json;
  logs : list LogRecord
}.

Definition new_Collector : Collector :=
  {| collectedFields := []; resourceOptions := []; logContext := JUndef; logs := [] |}.

Definition log (l : LogLevel) (d : json) (msg : string) (c : Collector) : Collector :=
  {| collectedFields := collectedFields c;
     resourceOptions := resourceOptions c;
     logContext := logContext c;
     logs := logs c ++ [{| level := l; data := d; message := msg |}] |}.

(** The two classes of operations-collector.ts. *)
Inductive CollectorClass : Type := BaseOperationCollector | OperationCollector.

(** [`${error}`] for a thrown [Error] with this message. *)
Definition error_text (msg : string) : string :=
  if String.eqb msg TypeError then TypeError else "Error: " +:+ msg.

(** [{ ...this.logContext, error: `${error}` }]. *)
Definition with_error (logContext : json) (msg : string) : json :=
  JObj (set_key "error" (JStr (error_text msg)) (own_entries logContext)).

Definition no_body_message : string :=
  "There's no body available for request, kindly use HTTP Request node to send body".

Definition body_notice (context : IOperationContext) : json :=
  JObj [("displayName",
         JStr (toUpperCase (method context) +:+ " " +:+ pattern context
               +:+ "<br/><br/>" +:+ no_body_message));
        ("name", JStr "operation");
        ("type", JStr "notice");
        ("default", JStr "")].

Definition method_notice (context : IOperationContext) : json :=
  JObj [("displayName", JStr (toUpperCase (method context) +:+ " " +:+ pattern context));
        ("name", JStr "operation");
        ("type", JStr "notice");
        ("typeOptions", JObj [("theme", JStr "info")]);
        ("default", JStr "")].

(** [field.displayOptions = displayOptions] for every field. *)
Definition show (resource operation : string) : json :=
  JObj [("show", JObj [("resource", JArr [JStr resource]);
                       ("operation", JArr [JStr operation])])].

Definition set_displayOptions (displayOptions : json) (field : json) : json :=
  match field with
  | JObj props => JObj (set_key "displayOptions" displayOptions props)
  | other => other
  end.

Definition AddDisplayOption (fields : list json) (resource operation : string)
  : list json :=
  map (set_displayOptions (show resource operation)) fields.

Section Collector.
Context {host : Host}.

Variable fuel : nat.
Variable operationParser : IOperationParser.
Variable resourceParser : Resources.IResourceParser.
Variable class : CollectorClass.

(** The private methods [name] and [description]: the deprecated method
    of the parser when it has one. *)
Definition operation_name (operation : json) (context : IOperationContext) : string :=
  match name operationParser with
  | Some legacy => legacy operation context
  | None => GetName operationParser operation context
  end.

Definition operation_description (operation : json) (context : IOperationContext)
  : string :=
  match description operationParser with
  | Some legacy => legacy operation context
  | None => GetDescription operationParser operation context
  end.

(** [ParseFields]; the document is the one the property mapper was
    constructed with.  Only the log changes. *)
Definition ParseFields (apiDocument operation : json) (context : IOperationContext)
    (c : Collector) : Collector * result (list json) :=
  match MapFromParameters fuel apiDocument (get "parameters" operation) with
  | Ok parameterFields =>
      match MapFromRequestBody fuel apiDocument (get "requestBody" operation) with
      | Ok bodyFields => (c, Ok (parameterFields ++ bodyFields))
      | Throw error =>
          (log warn (with_error (logContext c) error) "Failed to parse request body" c,
           Ok (parameterFields ++ [body_notice context]))
      | Diverge => (c, Diverge)
      end
  | Throw error => (c, Throw error)
  | Diverge => (c, Diverge)
  end.

Definition operation_option (operation : json) (context : IOperationContext) : json :=
  JObj [("name", JStr (operation_name operation context));
        ("value", JStr (GetValue operationParser operation context));
        ("action", JStr (GetAction operationParser operation context));
        ("description", JStr (operation_description operation context));
        ("routing",
         JObj [("request",
                JObj [("method", JStr (toUpperCase (method context)));
                      ("url", JStr ("=" +:+ FormatPathWithParameters (pattern context)))])])].

(** [ParseOperation], of the base class or as the subclass overrides it. *)
Definition ParseOperation (apiDocument operation : json) (context : IOperationContext)
    (c : Collector) : Collector * result (json * list json) :=
  let option := operation_option operation context in
  match ParseFields apiDocument operation context c with
  | (c, Ok fields) =>
      (c, Ok (option,
              match class with
              | BaseOperationCollector => fields
              | OperationCollector => method_notice context :: fields
              end))
  | (c, Throw error) => (c, Throw error)
  | (c, Diverge) => (c, Diverge)
  end.

(** [this.resourceParser?.GetValue?.({ name: "Default" }) || "Default"]. *)
Definition default_resource : string :=
  let value := Resources.GetValue resourceParser "Default" in
  if String.eqb value "" then "Default" else value.

(** The resources an operation is registered under. *)
Definition target_resources (operation : json) : result (list string) :=
  match get "tags" operation with
  | JArr ((_ :: _) as items) =>
      names ← Resources.tag_names items;
      Ok (filter (fun value => negb (String.eqb value ""))
            (map (Resources.GetValue resourceParser) names))
  | JStr (String _ _) => Throw TypeError
  | _ => Ok [default_resource]
  end.

(** The loop of [VisitOperationInternal] over the target resources.  An
    error thrown by [add] ends it with the state the earlier rounds have
    left. *)
Fixpoint register (option : json) (operationFields : list json)
    (resources : list string) (c : Collector) : Collector * result unit :=
  match resources with
  | [] => (c, Ok tt)
  | resourceName :: rest =>
      let fields := operationFields in
      let operationName := to_string (get "name" option) in
      let fields := AddDisplayOption fields resourceName operationName in
      match add resourceName option (resourceOptions c) with
      | Ok resourceOptions =>
          register option operationFields rest
            {| collectedFields := collectedFields c ++ fields;
               resourceOptions := resourceOptions;
               logContext := logContext c;
               logs := logs c |}
      | Throw error => (c, Throw error)
      | Diverge => (c, Diverge)
      end
  end.

Definition VisitOperationInternal (apiDocument operation : json)
    (context : IOperationContext) (c : Collector) : Collector * result unit :=
  if match shouldSkip operationParser with
     | Some legacy => legacy operation context
     | None => false
     end
  then (log info (logContext c) "Skipping operation" c, Ok tt)
  else
    match ParseOperation apiDocument operation context c with
    | (c, Ok (option, operationFields)) =>
        match target_resources operation with
        | Ok resources => register option operationFields resources c
        | Throw error => (c, Throw error)
        | Diverge => (c, Diverge)
        end
    | (c, Throw error) => (c, Throw error)
    | (c, Diverge) => (c, Diverge)
    end.

Definition contextData (operation : json) (context : IOperationContext) : json :=
  JObj [("operation",
         JObj [("pattern", JStr (pattern context));
               ("method", JStr (method context));
               ("operationId", get "operationId" operation)])].

Definition VisitOperation (apiDocument operation : json) (context : IOperationContext)
    (c : Collector) : result Collector :=
  let c := {| collectedFields := collectedFields c;
              resourceOptions := resourceOptions c;
              logContext := contextData operation context;
              logs := logs c |} in
  match VisitOperationInternal apiDocument operation context c with
  | (c, Ok _) => Ok c
  | (c, Throw error) =>
      Ok (log warn (with_error (logContext c) error) "Failed to parse operation" c)
  | (c, Diverge) => Diverge
  end.

(** The getter [operations]. *)
Definition operation_selector (entry : string * list json) : json :=
  JObj [("displayName", JStr "Operation");
        ("name", JStr "operation");
        ("type", JStr "options");
        ("noDataExpression", JBool true);
        ("displayOptions", JObj [("show", JObj [("resource", JArr [JStr (fst entry)])])]);
        ("options", JArr (snd entry));
        ("default", JStr "")].

Definition operations (c : Collector) : result (list json) :=
  match resourceOptions c with
  | [] => Throw "No operations found in OpenAPI document"
  | entries => Ok (map operation_selector entries)
  end.

(** The getter [fields]. *)
Definition fields (c : Collector) : list json := collectedFields c.

(** The collector as a visitor: it defines the hook [VisitOperation]
    only. *)
Definition visitor : IOpenApiVisitor Collector :=
  {| Walker.visitDocument := None;
     Walker.VisitOperation := Some VisitOperation;
     Walker.VisitTag := None;
     Walker.Finish := None;
     Walker.visitOperation := None;
     Walker.visitTag := None |}.

End Collector.

End Operations.

(** ** properties-builder.ts *)

Module Builder.

(** [IPropertyOverride]. *)
Record IPropertyOverride : Type := {
  find : json;
  replace : json
}.

Section PropertiesBuilder.
Context {host : Host}.

Variable fuel : nat.
Variable operationParser : Operations.IOperationParser.
Variable resourceParser : Resources.IResourceParser.
Variable OperationCollector : Operations.CollectorClass.

(** [Object.assign(element, pattern.replace)]. *)
Definition assign_field (source : json) (element : json) : json :=
  match element with
  | JObj props => JObj (assign props source)
  | other => other
  end.

Definition UpdateProperties (fields : list json) (patterns : list IPropertyOverride)
  : list json :=
  fold_left
    (fun fields pattern =>
       map (fun element =>
              if isMatch element (find pattern)
              then assign_field (replace pattern) element else element)
           fields)
    patterns fields.

(** [Build]: the document after the call and the properties built, or
    the error thrown. *)
Definition Build (apiDocument : json) (overrides : list IPropertyOverride)
  : json * result (list json) :=
  match Parse Resources.visitor apiDocument Resources.new_ResourceCollector with
  | (apiDocument, Ok resourcePropertiesCollector) =>
      let resourceNode := Resources.resources resourceParser resourcePropertiesCollector in
      match Parse (Operations.visitor fuel operationParser resourceParser OperationCollector)
                  apiDocument Operations.new_Collector with
      | (apiDocument, Ok operationsCollector) =>
          (apiDocument,
           operations ← Operations.operations operationsCollector;
           let fields := Operations.fields operationsCollector in
           let properties := resourceNode :: operations ++ fields in
           Ok (UpdateProperties properties overrides))
      | (apiDocument, Throw error) => (apiDocument, Throw error)
      | (apiDocument, Diverge) => (apiDocument, Diverge)
      end
  | (apiDocument, Throw error) => (apiDocument, Throw error)
  | (apiDocument, Diverge) => (apiDocument, Diverge)
  end.

End PropertiesBuilder.

End Builder.

(** * Verification *)

(** An implementation of the host interface, to evaluate the embedding
    on concrete documents.  The general statements below hold for every
    implementation; the evaluations use this one, and what they show
    does not rest on the values these functions return. *)
Definition sample_host : Host := {|
  startCase := fun v => match v with JStr s => s | _ => "" end;
  JSON_stringify := fun _ => "{...}";
  encodeURIComponent := fun s => s;
  String_of := fun _ => "";
  isMatch := fun _ _ => false
|}.

(** A resource parser that start-cases the name of the tag for both the
    name and the value of the resource, as the class [ResourceParser]
    does for a tag without emojis. *)
Definition plain_ResourceParser {host : Host} : Resources.IResourceParser :=
  {| Resources.GetName := fun tag => startCase (JStr (Resources.name tag));
     Resources.GetValue := fun name => startCase (JStr name);
     Resources.GetDescription := Resources.description |}.

(** ** The outcome monad *)

Lemma bind_Ok {A B} (m : result A) (f : A -> result B) b :
  (m ≫= f) = Ok b -> exists a, m = Ok a /\ f a = Ok b.
Proof. destruct m; simpl; intros E; try discriminate. eauto. Qed.

(** ** Objects *)

Section ObjectFacts.

Lemma lookup_set_key k k' v props :
  lookup_key k (set_key k' v props)
  = if String.eqb k k' then Some v else lookup_key k props.
Proof.
  induction props as [|[k0 v0] props IH]; simpl.
  - destruct (String.eqb k k'); reflexivity.
  - destruct (String.eqb k' k0) eqn:E0; simpl.
    + apply String.eqb_eq in E0. subst k0.
      destruct (String.eqb k k'); reflexivity.
    + destruct (String.eqb k k0) eqn:E1.
      * apply String.eqb_eq in E1. subst k0.
        rewrite String.eqb_sym in E0. rewrite E0. reflexivity.
      * exact IH.
Qed.

Lemma lookup_set_key_eq k v props : lookup_key k (set_key k v props) = Some v.
Proof. rewrite lookup_set_key, String.eqb_refl. reflexivity. Qed.

Lemma lookup_set_key_ne k k' v props :
  k <> k' -> lookup_key k (set_key k' v props) = lookup_key k props.
Proof.
  intros Hne. rewrite lookup_set_key.
  destruct (String.eqb k k') eqn:E; [|reflexivity].
  apply String.eqb_eq in E. contradiction.
Qed.

Lemma lookup_delete_key_ne k k' props :
  k <> k' -> lookup_key k (delete_key k' props) = lookup_key k props.
Proof.
  intros Hne. induction props as [|[k0 v0] props IH]; simpl; [reflexivity|].
  destruct (String.eqb k' k0) eqn:E0; simpl.
  - apply String.eqb_eq in E0. subst k0.
    destruct (String.eqb k k') eqn:E; [|exact IH].
    apply String.eqb_eq in E. contradiction.
  - rewrite IH. reflexivity.
Qed.

Lemma lookup_key_not_in k props :
  k ∉ map fst props -> lookup_key k props = None.
Proof.
  induction props as [|[k0 v0] props IH]; simpl; intros Hin; [reflexivity|].
  destruct (String.eqb k k0) eqn:E.
  - apply String.eqb_eq in E. subst k0. exfalso. apply Hin. left.
  - apply IH. intros Hin'. apply Hin. right. exact Hin'.
Qed.

(** An object has distinct keys. *)
Definition distinct_keys (v : json) : Prop := NoDup (map fst (own_entries v)).

#[global] Instance distinct_keys_dec v : Decision (distinct_keys v).
Proof. unfold distinct_keys. apply _. Defined.

Lemma lookup_fold_set_key k entries : forall target,
  NoDup (map fst entries) ->
  lookup_key k (fold_left (fun acc kv => set_key (fst kv) (snd kv) acc) entries target)
  = match lookup_key k entries with
    | Some v => Some v
    | None => lookup_key k target
    end.
Proof.
  induction entries as [|[k0 v0] entries IH]; simpl; intros target Hnd;
    [reflexivity|].
  apply NoDup_cons in Hnd as [Hnotin Hnd].
  rewrite IH by exact Hnd.
  destruct (String.eqb k k0) eqn:E.
  - apply String.eqb_eq in E. subst k0.
    rewrite (lookup_key_not_in k entries Hnotin).
    apply lookup_set_key_eq.
  - destruct (lookup_key k entries); [reflexivity|].
    rewrite lookup_set_key, E. reflexivity.
Qed.

Lemma lookup_assign k target source :
  distinct_keys source ->
  lookup_key k (assign target source)
  = match lookup_key k (own_entries source) with
    | Some v => Some v
    | None => lookup_key k target
    end.
Proof. intros Hnd. unfold assign. apply lookup_fold_set_key. exact Hnd. Qed.

End ObjectFacts.

(** ** C1: what [ResolveRef] makes of [allOf] *)

Module AllOf.

(** The value a key has after a merge in which later members overwrite
    earlier ones: that of the last member that has the key. *)
Definition last_with_key (k : string) (schemas : list json) : option json :=
  fold_left
    (fun found schema =>
       match lookup_key k (own_entries schema) with
       | Some v => Some v
       | None => found
       end)
    schemas None.

Lemma lookup_fold_assign k schemas : forall target,
  Forall distinct_keys schemas ->
  lookup_key k (fold_left assign schemas target)
  = fold_left
      (fun found schema =>
         match lookup_key k (own_entries schema) with
         | Some v => Some v
         | None => found
         end)
      schemas (lookup_key k target).
Proof.
  induction schemas as [|schema schemas IH]; simpl; intros target Hall;
    [reflexivity|].
  apply Forall_cons in Hall as [Hd Hall].
  rewrite IH by exact Hall.
  rewrite lookup_assign by exact Hd.
  reflexivity.
Qed.

Lemma lookup_assign_all k schemas :
  Forall distinct_keys schemas ->
  lookup_key k (assign_all schemas) = last_with_key k schemas.
Proof. intros Hall. unfold assign_all. apply lookup_fold_assign. exact Hall. Qed.

Definition member_A : json :=
  JObj [("type", JStr "object");
        ("properties", JObj [("a", JObj [("type", JStr "string")])])].
Definition member_B : json :=
  JObj [("type", JStr "object");
        ("properties", JObj [("b", JObj [("type", JStr "string")])])].
Definition composed : json := JObj [("allOf", JArr [member_A; member_B])].

Definition composed_props : list (string * json) :=
  [("allOf", JArr [member_A; member_B])].

(** C1, counterexample.  The members of this [allOf] declare the
    properties [a] and [b]; the schema [ResolveRef] returns has the
    [properties] map of the second member only, so [a] is not in it. *)
Lemma allOf_properties_not_united :
  ResolveRef 2 (JObj []) (JObj composed_props)
  = Ok (JObj [("type", JStr "object");
              ("properties", JObj [("b", JObj [("type", JStr "string")])])],
        Some [None; None])
  /\ get "a" (get "properties" member_A) = JObj [("type", JStr "string")].
Proof. split; reflexivity. Qed.

(** C1, amended.  For a schema object with [allOf] and without
    [properties], [oneOf] and [anyOf], whose members all resolve,
    [ResolveRef] returns the shallow merge of the resolved members: every
    top-level key of the result, [properties] among them, has the value
    the last member with that key gives it, and the chains of the members
    are concatenated. *)
Theorem ResolveRef_allOf_shallow_merge fuel doc props members results :
  lookup_key "properties" props = None ->
  lookup_key "oneOf" props = None ->
  lookup_key "anyOf" props = None ->
  lookup_key "allOf" props = Some (JArr members) ->
  mapM (ResolveRef fuel doc) members = Ok results ->
  Forall distinct_keys (map fst results) ->
  exists merged,
    ResolveRef (S fuel) doc (JObj props)
    = Ok (JObj merged, Some (flatten_refs (map snd results)))
    /\ forall k, lookup_key k merged = last_with_key k (map fst results).
Proof.
  intros Hprops HoneOf HanyOf HallOf Hmembers Hdistinct.
  exists (assign_all (map fst results)). split.
  - simpl. rewrite Hprops, HoneOf. simpl. rewrite HanyOf. simpl.
    rewrite HallOf. simpl. rewrite Hmembers. reflexivity.
  - intros k. apply lookup_assign_all. exact Hdistinct.
Qed.

Lemma ResolveRef_allOf_shallow_merge_witness :
  exists merged,
    ResolveRef 2 (JObj []) (JObj composed_props)
    = Ok (JObj merged, Some (flatten_refs (map snd [(member_A, None); (member_B, None)])))
    /\ forall k, lookup_key k merged
                 = last_with_key k (map fst [(member_A, None : Refs); (member_B, None)]).
Proof.
  apply (ResolveRef_allOf_shallow_merge 1 (JObj []) composed_props [member_A; member_B]
           [(member_A, None); (member_B, None)]);
    try reflexivity.
  apply (bool_decide_unpack _). vm_compute. exact I.
Defined.

End AllOf.

(** ** C10 and C3: the visited set of the example builder *)

Module Cycles.

Lemma visit_refs_subset refs : forall v w,
  visit_refs refs v = inl w \/ visit_refs refs v = inr w -> v ⊆ w.
Proof.
  induction refs as [|ref refs IH]; simpl; intros v w H.
  - destruct H as [H|H]; inversion H; subst; set_solver.
  - case_bool_decide.
    + destruct H as [H|H]; inversion H; subst; set_solver.
    + apply IH in H. set_solver.
Qed.

Lemma visit_refs_seen refs : forall v ptr,
  ptr ∈ refs -> ptr ∈ v -> exists w, visit_refs refs v = inl w /\ v ⊆ w.
Proof.
  induction refs as [|ref refs IH]; simpl; intros v ptr Hin Hv.
  - inversion Hin.
  - case_bool_decide as Href.
    + eauto.
    + apply elem_of_cons in Hin as [->|Hin]; [contradiction|].
      destruct (IH ({[ref]} ∪ v) ptr Hin) as (w & Hw & Hsub); [set_solver|].
      exists w. split; [exact Hw|set_solver].
Qed.

Lemma visit_refs_added refs : forall v w ptr,
  visit_refs refs v = inr w -> ptr ∈ refs -> ptr ∈ w.
Proof.
  induction refs as [|ref refs IH]; simpl; intros v w ptr H Hin.
  - inversion Hin.
  - case_bool_decide as Href; [discriminate|].
    apply elem_of_cons in Hin as [->|Hin].
    + apply (visit_refs_subset refs ({[ref]} ∪ v) w); [eauto|set_solver].
    + eapply IH; eauto.
Qed.

Lemma mapM_st_monotone {A B} (f : gset (option string) -> A -> result (B * gset (option string))) l :
  (forall v x y v', f v x = Ok (y, v') -> v ⊆ v') ->
  forall v ys v', mapM_st f l v = Ok (ys, v') -> v ⊆ v'.
Proof.
  intros Hf. induction l as [|x l IH]; simpl; intros v ys v' H.
  - inversion H; subst. set_solver.
  - apply bind_Ok in H as ([y v1] & Hx & H).
    apply bind_Ok in H as ([ys' v2] & Hl & H).
    inversion H; subst.
    apply Hf in Hx. apply IH in Hl. set_solver.
Qed.

(** The guard of [build] on the chain [ResolveRef] answered with. *)
Definition guard (refs : Refs) (v : gset (option string))
  : gset (option string) + gset (option string) :=
  match refs with
  | Some refs => visit_refs refs v
  | None => inr v
  end.

Lemma guard_subset refs v w :
  guard refs v = inl w \/ guard refs v = inr w -> v ⊆ w.
Proof.
  destruct refs as [refs|]; simpl.
  - apply visit_refs_subset.
  - intros [H|H]; inversion H; subst; set_solver.
Qed.

(** One call of [build], given that the calls it makes only add to the
    set: the set it returns contains the one its guard leaves. *)
Lemma build_step resolver fuel :
  (forall v s r v', build resolver fuel v s = Ok (r, v') -> v ⊆ v') ->
  forall v s r v',
    build resolver (S fuel) v s = Ok (r, v') ->
    exists resolved refs w,
      resolver s = Ok (resolved, refs)
      /\ (guard refs v = inl w \/ guard refs v = inr w)
      /\ w ⊆ v'.
Proof.
  intros IH v s r v' H.
  simpl in H.
  apply bind_Ok in H as ([schema refs] & Hres & H).
  exists schema, refs. fold (guard refs v) in H.
  destruct (guard refs v) as [w|w] eqn:Hvis; exists w.
  - inversion H; subst. split; [exact Hres|]. split; [eauto|set_solver].
  - split; [exact Hres|]. split; [eauto|].
    clear Hvis Hres.
    apply bind_Ok in H as (has_oneOf & _ & H).
    destruct has_oneOf; [eapply IH; eauto|].
    apply bind_Ok in H as (has_allOf & _ & H).
    destruct has_allOf.
    { destruct (get "allOf" schema); try discriminate;
        try (inversion H; subst; set_solver).
      apply bind_Ok in H as ([examples v1] & Hm & H).
      inversion H; subst.
      eapply mapM_st_monotone; [|exact Hm]. exact IH. }
    apply bind_Ok in H as (has_example & _ & H).
    destruct (has_example && _); [inversion H; subst; set_solver|].
    apply bind_Ok in H as (has_default & _ & H).
    destruct (has_default && _); [inversion H; subst; set_solver|].
    apply bind_Ok in H as (has_properties & _ & H).
    destruct (has_properties && _).
    { apply bind_Ok in H as ([entries v1] & Hm & H).
      inversion H; subst.
      eapply mapM_st_monotone; [|exact Hm].
      intros v0 kv y v0' Hkv.
      apply bind_Ok in Hkv as ([example v2] & Hb & Hkv).
      inversion Hkv; subst. eapply IH; eauto. }
    apply bind_Ok in H as (has_items & _ & H).
    destruct (has_items && _); [eapply IH; eauto|].
    inversion H; subst. set_solver.
Qed.

Lemma build_monotone resolver fuel : forall v s r v',
  build resolver fuel v s = Ok (r, v') -> v ⊆ v'.
Proof.
  induction fuel as [|fuel IH]; intros v s r v' H; [discriminate|].
  destruct (build_step resolver fuel IH v s r v' H)
    as (resolved & refs & w & _ & Hguard & Hsub).
  apply guard_subset in Hguard. set_solver.
Qed.



Definition schemas_doc (schemas : list (string * json)) : json :=
  JObj [("components", JObj [("schemas", JObj schemas)])].

Definition ref_to (name : string) : json :=
  JObj [("$ref", JStr ("#/components/schemas/" +:+ name))].

(** A document in which two sibling properties use the same schema. *)
Definition greeting_doc : json :=
  schemas_doc [("Greeting", JObj [("type", JStr "string"); ("example", JStr "hi")])].

Definition two_greetings : json :=
  JObj [("type", JStr "object");
        ("properties", JObj [("first", ref_to "Greeting");
                             ("second", ref_to "Greeting")])].

(** The second use of the pointer is not a cycle, and still yields the
    empty object instead of the example of the schema. *)
Example sibling_reuse_yields_empty_object :
  extractExample 4 greeting_doc two_greetings
  = Ok (JObj [("first", JStr "hi"); ("second", JObj [])]).
Proof. vm_compute. reflexivity. Qed.


(** *** C3: a cycle of bare pointers *)

Lemma build_resolver_diverges resolver fuel v s :
  resolver s = Diverge -> build resolver (S fuel) v s = Diverge.
Proof. intros Hres. simpl. rewrite Hres. reflexivity. Qed.

(** A schema that is nothing but a pointer to itself. *)
Definition self_pointer_doc : json := schemas_doc [("A", ref_to "A")].

Lemma FindRef_self_pointer fuel :
  FindRef fuel self_pointer_doc (JStr "#/components/schemas/A") = Diverge.
Proof.
  induction fuel as [|fuel IH]; [reflexivity|].
  change (FindRef (S fuel) self_pointer_doc (JStr "#/components/schemas/A"))
    with (FindRef fuel self_pointer_doc (JStr "#/components/schemas/A")).
  exact IH.
Qed.

(** C3, failing input.  On a schema that points to itself through
    nothing but a pointer, [FindRef] calls itself again and again: no
    amount of fuel lets the resolver or the example builder return, so no
    empty object is produced.  (An engine reports such a recursion as a
    RangeError once its stack is exhausted.) *)
Theorem pointer_cycle_never_returns fuel :
  ResolveRef fuel self_pointer_doc (ref_to "A") = Diverge
  /\ extractExample fuel self_pointer_doc (ref_to "A") = Diverge.
Proof.
  assert (Hres : ResolveRef fuel self_pointer_doc (ref_to "A") = Diverge).
  { destruct fuel as [|fuel]; [reflexivity|].
    change (ResolveRef (S fuel) self_pointer_doc (ref_to "A"))
      with (FindRef fuel self_pointer_doc (JStr "#/components/schemas/A")
              ≫= fun schemaResolved =>
                   Ok (JObj (assign [] schemaResolved),
                       Some [Some "#/components/schemas/A"])).
    rewrite FindRef_self_pointer. reflexivity. }
  split; [exact Hres|].
  destruct fuel as [|fuel]; [reflexivity|].
  unfold extractExample. rewrite build_resolver_diverges by exact Hres.
  reflexivity.
Qed.

(** A cycle that passes through a property is cut by the guard of
    [build]: the branch that comes back to the schema is the empty
    object. *)
Definition node_doc : json :=
  schemas_doc [("Node", JObj [("type", JStr "object");
                               ("properties", JObj [("next", ref_to "Node")])])].

Example property_cycle_yields_empty_object :
  extractExample 4 node_doc (ref_to "Node") = Ok (JObj [("next", JObj [])]).
Proof. vm_compute. reflexivity. Qed.

(** *** Termination where the chains of pointers end

    The measure of the recursion of [build]: the pointers the guard has
    not seen yet, and the height of the schema.  [ResolveRef] answers
    with a tree built from parts of the schema and of the document, so
    heights and pointers stay within those of the two. *)

(** An object or an array: the values [in] can be applied to. *)
Definition container (j : json) : bool :=
  match j with JArr _ | JObj _ => true | _ => false end.

Definition children (j : json) : list json :=
  match j with JArr items => items | JObj props => map snd props | _ => [] end.

(** The nesting depth of objects and arrays. *)
Fixpoint height (j : json) : nat :=
  match j with
  | JArr items => S (max_list (map height items))
  | JObj props => S (max_list (map (fun kv => height (snd kv)) props))
  | _ => 0
  end.

Definition texts (inner : json -> list string) (j : json) : list string :=
  match j with JStr s => [s] | _ => inner j end.

(** The strings that are values of properties or elements of arrays
    anywhere in the tree; the pointers are among them. *)
Fixpoint strs (j : json) : list string :=
  match j with
  | JArr items => concat (map (texts strs) items)
  | JObj props => concat (map (fun kv => texts strs (snd kv)) props)
  | _ => []
  end.

Lemma height_children j :
  height j = if container j then S (max_list (map height (children j))) else 0.
Proof.
  destruct j; simpl; try reflexivity.
  rewrite map_map. reflexivity.
Qed.

Lemma strs_children j : strs j = concat (map (texts strs) (children j)).
Proof.
  destruct j; simpl; try reflexivity.
  rewrite map_map. reflexivity.
Qed.

Lemma elem_of_map {A B} (f : A -> B) l x : x ∈ l -> f x ∈ map f l.
Proof. induction 1; simpl; [left|right; assumption]. Qed.

Lemma elem_of_concat_map {A B} (f : A -> list B) l x y :
  x ∈ l -> y ∈ f x -> y ∈ concat (map f l).
Proof.
  induction 1; simpl; intros Hy; apply elem_of_app; auto.
Qed.

Lemma max_list_elem_of (l : list nat) n : n ∈ l -> n <= max_list l.
Proof.
  induction 1; simpl; lia.
Qed.

Lemma child_height j x : x ∈ children j -> height x < height j.
Proof.
  intros Hin. rewrite (height_children j).
  destruct (container j) eqn:Hc.
  - assert (height x <= max_list (map height (children j))); [|lia].
    apply max_list_elem_of. apply elem_of_map. exact Hin.
  - destruct j; simpl in *; try discriminate; inversion Hin.
Qed.

Lemma strs_texts j : strs j ⊆ texts strs j.
Proof. destruct j; simpl; set_solver. Qed.

Lemma child_texts j x : x ∈ children j -> texts strs x ⊆ strs j.
Proof.
  intros Hin. rewrite (strs_children j).
  intros s Hs. eapply elem_of_concat_map; eauto.
Qed.

Lemma child_strs j x : x ∈ children j -> strs x ⊆ strs j.
Proof.
  intros Hin. etransitivity; [apply strs_texts|]. apply child_texts. exact Hin.
Qed.

Lemma chars_spec s x : x ∈ chars s -> exists c, x = JStr c.
Proof.
  induction s as [|c s IH]; simpl; intros Hin.
  - inversion Hin.
  - apply elem_of_cons in Hin as [->|Hin]; eauto.
Qed.

Lemma lookup_key_elem k props v :
  lookup_key k props = Some v -> v ∈ map snd props.
Proof.
  induction props as [|[k' v'] props IH]; simpl; [discriminate|].
  destruct (String.eqb k k').
  - intros [= ->]. left.
  - intros H. right. auto.
Qed.

Lemma nth_cases {A} i (l : list A) d : nth i l d = d \/ nth i l d ∈ l.
Proof.
  destruct (nth_in_or_default i l d) as [H|H]; [right|left; exact H].
  apply list_elem_of_In. exact H.
Qed.

(** What a property read can answer. *)
Lemma get_cases k j :
  get k j = JUndef \/ (exists n, get k j = JNum n)
  \/ (container j = true /\ get k j ∈ children j)
  \/ (container j = false /\ exists c, get k j = JStr c).
Proof.
  destruct j; simpl; auto.
  - destruct (parse_index k).
    + destruct (nth_cases n (chars s) JUndef) as [H|H]; [auto|].
      right. right. right. split; [reflexivity|]. eapply chars_spec; eauto.
    + destruct (String.eqb k "length"); eauto.
  - destruct (parse_index k).
    + destruct (nth_cases n items JUndef) as [H|H]; auto.
    + destruct (String.eqb k "length"); eauto.
  - destruct (lookup_key k props) eqn:E; simpl; auto.
    right. right. left. split; [reflexivity|]. eapply lookup_key_elem; eauto.
Qed.

Lemma container_height j : container j = true -> 0 < height j.
Proof. destruct j; simpl; try discriminate; lia. Qed.

Lemma get_height k j : height (get k j) <= height j.
Proof.
  destruct (get_cases k j) as [H|[(n & H)|[(Hc & H)|(Hc & c & H)]]].
  - rewrite H. simpl. lia.
  - rewrite H. simpl. lia.
  - apply child_height in H. lia.
  - rewrite H. simpl. lia.
Qed.

Lemma get_height_lt k j : container j = true -> height (get k j) < height j.
Proof.
  intros Hj. pose proof (container_height j Hj) as Hpos.
  destruct (get_cases k j) as [H|[(n & H)|[(Hc & H)|(Hc & c & H)]]].
  - rewrite H. simpl. lia.
  - rewrite H. simpl. lia.
  - apply child_height in H. lia.
  - congruence.
Qed.

Lemma get_strs k j : strs (get k j) ⊆ strs j.
Proof.
  destruct (get_cases k j) as [H|[(n & H)|[(Hc & H)|(Hc & c & H)]]].
  - rewrite H. simpl. set_solver.
  - rewrite H. simpl. set_solver.
  - apply child_strs in H. exact H.
  - rewrite H. simpl. set_solver.
Qed.

Lemma get_text k j s : container j = true -> get k j = JStr s -> s ∈ strs j.
Proof.
  intros Hj Hget.
  destruct (get_cases k j) as [H|[(n & H)|[(Hc & H)|(Hc & c & H)]]] ; try congruence.
  apply child_texts in H. apply H. rewrite Hget. simpl. set_solver.
Qed.


Lemma has_key_container k j b : has_key k j = Ok b -> container j = true.
Proof. destruct j; simpl; try discriminate; reflexivity. Qed.

Lemma has_key_returns k j : has_key k j <> Diverge.
Proof. destruct j; simpl; discriminate. Qed.

(** [fits H P j]: the tree [j] is no higher than [H] and its texts are
    among [P]. *)
Definition fits (H : nat) (P : list string) (j : json) : Prop :=
  height j <= H /\ strs j ⊆ P.

Lemma fits_get H P k j : fits H P j -> fits H P (get k j).
Proof.
  intros [Hh Hs]. split.
  - pose proof (get_height k j). lia.
  - etransitivity; [apply get_strs|exact Hs].
Qed.

Lemma fits_self j : fits (height j) (strs j) j.
Proof. split; [lia|reflexivity]. Qed.

(** The bound on an object, entry by entry. *)
Definition entry_fits (H : nat) (P : list string) (kv : string * json) : Prop :=
  height (snd kv) < H /\ texts strs (snd kv) ⊆ P.

Lemma max_list_le (l : list nat) m : Forall (fun n => n <= m) l -> max_list l <= m.
Proof. induction 1; simpl; lia. Qed.

Lemma fits_JObj H P props :
  0 < H -> Forall (entry_fits H P) props -> fits H P (JObj props).
Proof.
  intros HH Hall. split; simpl.
  - assert (max_list (map (fun kv => height (snd kv)) props) <= H - 1); [|lia].
    apply max_list_le. induction Hall as [|kv props [Hkv _] _ IH]; simpl; constructor.
    + lia.
    + exact IH.
  - induction Hall as [|kv props [_ Hkv] _ IH]; simpl; intros x Hx.
    + inversion Hx.
    + apply elem_of_app in Hx as [Hx|Hx]; auto.
Qed.

Lemma indexed_values i l kv : kv ∈ indexed i l -> snd kv ∈ l.
Proof.
  revert i. induction l as [|x l IH]; simpl; intros i Hin.
  - inversion Hin.
  - apply elem_of_cons in Hin as [->|Hin]; [left|right; eauto].
Qed.

Lemma own_entries_children j kv :
  container j = true -> kv ∈ own_entries j -> snd kv ∈ children j.
Proof.
  destruct j; simpl; try discriminate; intros _ Hin.
  - eapply indexed_values; eauto.
  - apply elem_of_map. exact Hin.
Qed.

Lemma own_entries_fit H P j :
  container j = true -> fits H P j -> Forall (entry_fits H P) (own_entries j).
Proof.
  intros Hc [Hh Hs]. apply Forall_forall. intros kv Hin.
  apply own_entries_children in Hin; [|exact Hc]. split.
  - apply child_height in Hin. lia.
  - etransitivity; [apply child_texts; exact Hin|exact Hs].
Qed.

(** The values a loop over the own properties of [j] sees. *)
Lemma own_entries_value j kv :
  kv ∈ own_entries j ->
  height (snd kv) <= height j - 1 /\ strs (snd kv) ⊆ strs j.
Proof.
  intros Hin. destruct (container j) eqn:Hc.
  - apply own_entries_children in Hin; [|exact Hc]. split.
    + apply child_height in Hin. lia.
    + apply child_strs. exact Hin.
  - destruct j; try discriminate; simpl in Hin; try (inversion Hin; fail).
    apply indexed_values in Hin. apply chars_spec in Hin as [c Hc'].
    rewrite Hc'. simpl. split; [lia|set_solver].
Qed.

Lemma entry_fits_JObj H P props :
  fits H P (JObj props) -> 0 < H /\ Forall (entry_fits H P) props.
Proof.
  intros Hfit. split.
  - destruct Hfit as [Hh _]. simpl in Hh. lia.
  - apply (own_entries_fit H P (JObj props)); [reflexivity|exact Hfit].
Qed.

Lemma set_key_fit H P k v props :
  entry_fits H P (k, v) -> Forall (entry_fits H P) props ->
  Forall (entry_fits H P) (set_key k v props).
Proof.
  intros Hv. induction 1 as [|[k' v'] props Hkv Hall IH]; simpl.
  - repeat constructor; apply Hv.
  - destruct (String.eqb k k'); constructor; auto.
Qed.

Lemma delete_key_fit H P k props :
  Forall (entry_fits H P) props -> Forall (entry_fits H P) (delete_key k props).
Proof.
  induction 1 as [|[k' v'] props Hkv Hall IH]; simpl; [constructor|].
  destruct (String.eqb k k'); [exact IH|constructor; auto].
Qed.

Lemma assign_fit H P target source :
  Forall (entry_fits H P) target -> Forall (entry_fits H P) (own_entries source) ->
  Forall (entry_fits H P) (assign target source).
Proof.
  unfold assign. generalize (own_entries source). intros entries.
  revert target. induction entries as [|[k v] entries IH]; simpl; intros target Ht He.
  - exact Ht.
  - apply Forall_cons in He as [Hkv He]. apply IH; [|exact He].
    apply set_key_fit; assumption.
Qed.

Lemma assign_all_fit H P sources :
  Forall (fun s => Forall (entry_fits H P) (own_entries s)) sources ->
  Forall (entry_fits H P) (assign_all sources).
Proof.
  unfold assign_all. generalize (@nil (string * json)) (@List.Forall_nil _ (entry_fits H P)).
  induction sources as [|s sources IH]; simpl; intros target Ht Hs.
  - exact Ht.
  - apply Forall_cons in Hs as [Hs Hall]. apply IH; [|exact Hall].
    apply assign_fit; assumption.
Qed.

Lemma walk_path_fits H P r path : forall j j',
  walk_path r path j = Ok j' -> fits H P j -> fits H P j'.
Proof.
  induction path as [|p path IH]; simpl; intros j j' Hw Hfit.
  - inversion Hw; subst. exact Hfit.
  - destruct (is_nullish j); [discriminate|].
    destruct (truthy (get p j)); [|discriminate].
    eapply IH; [exact Hw|]. apply fits_get. exact Hfit.
Qed.

Lemma FindRef_fits H P doc n : forall ref j,
  FindRef n doc ref = Ok j -> fits H P doc -> container j = true /\ fits H P j.
Proof.
  induction n as [|n IH]; intros ref j Hf Hdoc; [discriminate|].
  simpl in Hf. destruct ref; try discriminate.
  apply bind_Ok in Hf as (schema & Hwalk & Hf).
  apply bind_Ok in Hf as (is_ref & Hkey & Hf).
  destruct is_ref.
  - eapply IH; eauto.
  - inversion Hf; subst. split.
    + eapply has_key_container; eauto.
    + eapply walk_path_fits; eauto.
Qed.

Lemma mapM_Forall2 {A B} (f : A -> result B) l : forall ys,
  mapM f l = Ok ys -> Forall2 (fun x y => f x = Ok y) l ys.
Proof.
  induction l as [|x l IH]; simpl; intros ys Hm.
  - inversion Hm. constructor.
  - apply bind_Ok in Hm as (y & Hy & Hm).
    apply bind_Ok in Hm as (ys' & Hys & Hm).
    inversion Hm; subst. constructor; eauto.
Qed.

(** A chain in which a pointer was followed. *)
Definition followed (refs : Refs) : Prop :=
  exists l r, refs = Some l /\ Some r ∈ l.

Lemma has_key_ref_object j : has_key "$ref" j = Ok true -> exists props, j = JObj props.
Proof.
  destruct j; simpl; try discriminate; eauto.
Qed.

Lemma elem0_fits H P j j' : elem0 j = Ok j' -> fits H P j -> fits H P j'.
Proof.
  unfold elem0. destruct (is_nullish j); [discriminate|].
  intros [= <-]. apply fits_get.
Qed.

Lemma flatten_refs_elem (refs : list Refs) ptr :
  ptr ∈ flatten_refs refs ->
  exists r, r ∈ refs /\ match r with Some l => ptr ∈ l | None => ptr = None end.
Proof.
  unfold flatten_refs. induction refs as [|r refs IH]; simpl; intros Hin.
  - inversion Hin.
  - apply elem_of_app in Hin as [Hin|Hin].
    + exists r. split; [left|]. destruct r; [exact Hin|].
      apply list_elem_of_singleton in Hin. exact Hin.
    + destruct (IH Hin) as (r' & Hr' & Hptr). exists r'. split; [right; exact Hr'|exact Hptr].
Qed.

Lemma elem_flatten_refs (refs : list Refs) l ptr :
  Some l ∈ refs -> ptr ∈ l -> ptr ∈ flatten_refs refs.
Proof.
  unfold flatten_refs. induction refs as [|r refs IH]; simpl; intros Hin Hptr.
  - inversion Hin.
  - apply elem_of_app. apply elem_of_cons in Hin as [<-|Hin]; auto.
Qed.

Lemma Forall2_elem_r {A B} (R : A -> B -> Prop) l k y :
  Forall2 R l k -> y ∈ k -> exists x, x ∈ l /\ R x y.
Proof.
  induction 1 as [|x y' l k HR Hall IH]; intros Hin.
  - inversion Hin.
  - apply elem_of_cons in Hin as [->|Hin].
    + exists x. split; [left|exact HR].
    + destruct (IH Hin) as (x' & Hx' & HR'). exists x'. split; [right; exact Hx'|exact HR'].
Qed.

(** What [ResolveRef] answers is an object or an array that fits every
    bound the schema fits, as long as that bound covers the document or
    no pointer was followed; and the pointers of its chain are texts of
    the schema. *)
Lemma ResolveRef_fits doc n : forall s s' refs H P,
  ResolveRef n doc s = Ok (s', refs) ->
  fits H P s -> (followed refs -> fits H P doc) ->
  container s' = true /\ fits H P s'
  /\ (forall l r, refs = Some l -> Some r ∈ l -> r ∈ strs s).
Proof.
  induction n as [|n IH]; intros s s' refs H P Hres Hs Hdoc; [discriminate|].
  simpl in Hres.
  apply bind_Ok in Hres as (has_properties & Hprop & Hres).
  destruct has_properties.
  { inversion Hres; subst. split; [eapply has_key_container; eauto|].
    split; [exact Hs|]. discriminate. }
  apply bind_Ok in Hres as (has_oneOf & _ & Hres).
  apply bind_Ok in Hres as (s1 & Hs1 & Hres).
  assert (Hfit1 : fits H P s1 /\ strs s1 ⊆ strs s).
  { destruct has_oneOf.
    - split; [eapply elem0_fits; [exact Hs1|]; apply fits_get; exact Hs|].
      eapply elem0_fits with (H := height s) (P := strs s) in Hs1 as [_ Hsub];
        [exact Hsub|]. apply fits_get, fits_self.
    - inversion Hs1; subst. split; [exact Hs|reflexivity]. }
  destruct Hfit1 as [Hfit1 Hsub1]. clear Hs1.
  apply bind_Ok in Hres as (has_anyOf & _ & Hres).
  apply bind_Ok in Hres as (s2 & Hs2 & Hres).
  assert (Hfit2 : fits H P s2 /\ strs s2 ⊆ strs s).
  { destruct has_anyOf.
    - split; [eapply elem0_fits; [exact Hs2|]; apply fits_get; exact Hfit1|].
      eapply elem0_fits with (H := height s1) (P := strs s1) in Hs2 as [_ Hsub];
        [etransitivity; [exact Hsub|exact Hsub1]|]. apply fits_get, fits_self.
    - inversion Hs2; subst. split; [exact Hfit1|exact Hsub1]. }
  destruct Hfit2 as [Hfit2 Hsub2]. clear Hs2.
  apply bind_Ok in Hres as (has_allOf & Hall & Hres).
  assert (Hc2 : container s2 = true) by (eapply has_key_container; eauto).
  assert (Hpos : 0 < H).
  { destruct Hfit2 as [Hh _]. pose proof (container_height s2 Hc2). lia. }
  destruct has_allOf.
  { destruct (get "allOf" s2) as [| | | | |members|] eqn:HallOf; try discriminate.
    apply bind_Ok in Hres as (results & Hm & Hres).
    inversion Hres; subst. clear Hres.
    apply mapM_Forall2 in Hm.
    assert (Hmembers : forall m, m ∈ members -> fits H P m /\ strs m ⊆ strs s).
    { intros m Hin.
      assert (Hchild : m ∈ children (get "allOf" s2)) by (rewrite HallOf; exact Hin).
      split.
      - pose proof (fits_get H P "allOf" s2 Hfit2) as [Hh Hst]. split.
        + apply child_height in Hchild. lia.
        + etransitivity; [apply child_strs; exact Hchild|exact Hst].
      - etransitivity; [apply child_strs; exact Hchild|].
        etransitivity; [apply get_strs|exact Hsub2]. }
    assert (Hresults : forall r, r ∈ results ->
      container (fst r) = true /\ fits H P (fst r)
      /\ (forall l ptr, snd r = Some l -> Some ptr ∈ l -> ptr ∈ strs s)).
    { intros [sm rm] Hin.
      destruct (Forall2_elem_r _ _ _ _ Hm Hin) as (m & Hmin & Hmr).
      destruct (Hmembers m Hmin) as [Hfm Hsm].
      destruct (IH m sm rm H P Hmr Hfm) as (Hcm & Hfitm & Hptrs).
      { intros (l & r & -> & Hr). apply Hdoc. eexists _, r. split; [reflexivity|].
        eapply elem_flatten_refs; [|exact Hr].
        apply (elem_of_map snd _ (sm, Some l)). exact Hin. }
      split; [exact Hcm|]. split; [exact Hfitm|].
      simpl. intros l ptr -> Hptr. apply Hsm. eapply Hptrs; eauto. }
    split; [reflexivity|]. split.
    - apply fits_JObj; [exact Hpos|]. apply assign_all_fit.
      apply Forall_forall. intros sm Hsm.
      apply list_elem_of_In, in_map_iff in Hsm as (r & <- & Hr).
      apply list_elem_of_In in Hr.
      destruct (Hresults r Hr) as (Hcm & Hfitm & _).
      apply own_entries_fit; assumption.
    - intros l r [= <-] Hr.
      apply flatten_refs_elem in Hr as (rm & Hrm & Hr).
      destruct rm as [l|]; [|discriminate].
      apply list_elem_of_In, in_map_iff in Hrm as (res & Hsnd & Hres).
      apply list_elem_of_In in Hres.
      destruct (Hresults res Hres) as (_ & _ & Hptrs). eapply Hptrs; eauto. }
  apply bind_Ok in Hres as (has_ref & Href & Hres).
  destruct has_ref.
  - apply bind_Ok in Hres as (schemaResolved & Hfind & Hres).
    destruct (get "$ref" s2) as [| | | |ref| |] eqn:Hget; try discriminate.
    inversion Hres; subst. clear Hres.
    destruct (has_key_ref_object _ Href) as [props ->].
    destruct (FindRef_fits H P doc n _ _ Hfind) as [Hcr Hfitr].
    { apply Hdoc. eexists _, ref. split; [reflexivity|]. left. }
    split; [reflexivity|]. split.
    + apply fits_JObj; [exact Hpos|]. apply assign_fit.
      * apply delete_key_fit. simpl. apply entry_fits_JObj. exact Hfit2.
      * apply own_entries_fit; assumption.
    + intros l r [= <-] Hr. apply list_elem_of_singleton in Hr. inversion Hr; subst.
      apply Hsub2. eapply get_text; [reflexivity|exact Hget].
  - inversion Hres; subst. split; [exact Hc2|]. split; [exact Hfit2|]. discriminate.
Qed.

(** *** Enough fuel *)

Lemma bind_returns {A B} (m : result A) (f : A -> result B) :
  m <> Diverge -> (forall a, m = Ok a -> f a <> Diverge) -> (m ≫= f) <> Diverge.
Proof.
  destruct m; simpl; intros Hm Hf; [apply Hf; reflexivity|discriminate|contradiction].
Qed.

Lemma mapM_returns {A B} (f : A -> result B) l :
  (forall x, x ∈ l -> f x <> Diverge) -> mapM f l <> Diverge.
Proof.
  induction l as [|x l IH]; simpl; intros Hf; [discriminate|].
  apply bind_returns; [apply Hf; left|]. intros y _.
  apply bind_returns; [apply IH; intros x' Hx'; apply Hf; right; exact Hx'|].
  discriminate.
Qed.

Lemma elem0_returns j : elem0 j <> Diverge.
Proof. unfold elem0. destruct (is_nullish j); discriminate. Qed.

Lemma walk_path_returns r path : forall j, walk_path r path j <> Diverge.
Proof.
  induction path as [|p path IH]; simpl; intros j; [discriminate|].
  destruct (is_nullish j); [discriminate|].
  destruct (truthy (get p j)); [apply IH|discriminate].
Qed.

Lemma FindRef_S n doc ref :
  FindRef (S n) doc ref
  = match ref with
    | JStr r =>
        schema ← walk_path r (tail (split_on "/" r)) doc;
        is_ref ← has_key "$ref" schema;
        if is_ref : bool then FindRef n doc (get "$ref" schema) else Ok schema
    | _ => Throw TypeError
    end.
Proof. reflexivity. Qed.

(** More fuel does not change what [FindRef] returns. *)
Lemma FindRef_fuel doc n : forall ref,
  FindRef n doc ref <> Diverge -> FindRef (S n) doc ref = FindRef n doc ref.
Proof.
  induction n as [|n IH]; intros ref Hret; [contradiction Hret; reflexivity|].
  rewrite (FindRef_S (S n)). rewrite FindRef_S in Hret |- *.
  destruct ref; try reflexivity.
  destruct (walk_path _ _ _) as [schema| |]; simpl in *; try reflexivity.
  destruct (has_key "$ref" schema) as [[]| |]; simpl in *; try reflexivity.
  apply IH. exact Hret.
Qed.

Lemma FindRef_fuel_le doc n m ref :
  n <= m -> FindRef n doc ref <> Diverge -> FindRef m doc ref = FindRef n doc ref.
Proof.
  induction 1 as [|m Hle IH]; intros Hret; [reflexivity|].
  rewrite FindRef_fuel; rewrite IH; auto.
Qed.

(** Every chain of pointers that starts at a text of the document comes
    to an end within [n] steps. *)
Definition pointers_end (n : nat) (doc : json) : Prop :=
  forall r, r ∈ strs doc -> FindRef n doc (JStr r) <> Diverge.

Lemma FindRef_returns n doc :
  pointers_end n doc -> forall m ref, n + 2 <= m -> FindRef m doc ref <> Diverge.
Proof.
  intros Hend m ref Hm.
  destruct m as [|m]; [lia|]. rewrite FindRef_S.
  destruct ref; try discriminate.
  apply bind_returns; [apply walk_path_returns|]. intros schema Hwalk.
  apply bind_returns; [apply has_key_returns|]. intros [] Hkey; [|discriminate].
  destruct (has_key_ref_object _ Hkey) as [props ->].
  destruct (get "$ref" (JObj props)) as [| | | |r| |] eqn:Hget;
    try (destruct m as [|m]; [lia|discriminate]).
  assert (Hr : r ∈ strs doc).
  { eapply (walk_path_fits (height doc) (strs doc)); [exact Hwalk|apply fits_self|].
    eapply get_text; [reflexivity|exact Hget]. }
  rewrite (FindRef_fuel_le doc n m); [apply Hend; exact Hr|lia|apply Hend; exact Hr].
Qed.

Lemma ResolveRef_S n doc schema :
  ResolveRef (S n) doc schema
  = (has_properties ← has_key "properties" schema;
     if has_properties : bool then Ok (schema, None) else
     has_oneOf ← has_key "oneOf" schema;
     schema ← (if has_oneOf : bool then elem0 (get "oneOf" schema) else Ok schema);
     has_anyOf ← has_key "anyOf" schema;
     schema ← (if has_anyOf : bool then elem0 (get "anyOf" schema) else Ok schema);
     has_allOf ← has_key "allOf" schema;
     if has_allOf : bool then
       match get "allOf" schema with
       | JArr members =>
           results ← mapM (ResolveRef n doc) members;
           Ok (JObj (assign_all (map fst results)), Some (flatten_refs (map snd results)))
       | _ => Throw TypeError
       end
     else
     has_ref ← has_key "$ref" schema;
     if has_ref : bool then
       schemaResolved ← FindRef n doc (get "$ref" schema);
       match get "$ref" schema with
       | JStr ref =>
           Ok (JObj (assign (delete_key "$ref" (own_entries schema)) schemaResolved),
               Some [Some ref])
       | _ => Throw TypeError
       end
     else Ok (schema, None)).
Proof. reflexivity. Qed.

Lemma ResolveRef_returns n0 doc :
  (forall m ref, n0 <= m -> FindRef m doc ref <> Diverge) ->
  forall fuel s, n0 + height s < fuel -> ResolveRef fuel doc s <> Diverge.
Proof.
  intros Hfind. induction fuel as [|fuel IH]; intros s Hfuel; [lia|].
  rewrite ResolveRef_S.
  apply bind_returns; [apply has_key_returns|]. intros [] _; [discriminate|].
  apply bind_returns; [apply has_key_returns|]. intros has_oneOf _.
  apply bind_returns; [destruct has_oneOf; [apply elem0_returns|discriminate]|].
  intros s1 Hs1.
  assert (Hh1 : height s1 <= height s).
  { destruct has_oneOf; [|inversion Hs1; subst; lia].
    eapply (elem0_fits (height s) (strs s)); [exact Hs1|apply fits_get, fits_self]. }
  apply bind_returns; [apply has_key_returns|]. intros has_anyOf _.
  apply bind_returns; [destruct has_anyOf; [apply elem0_returns|discriminate]|].
  intros s2 Hs2.
  assert (Hh2 : height s2 <= height s1).
  { destruct has_anyOf; [|inversion Hs2; subst; lia].
    eapply (elem0_fits (height s1) (strs s1)); [exact Hs2|apply fits_get, fits_self]. }
  apply bind_returns; [apply has_key_returns|]. intros [] Hkey.
  - destruct (get "allOf" s2) as [| | | | |members|] eqn:HallOf; try discriminate.
    apply bind_returns; [|discriminate].
    apply mapM_returns. intros m Hin. apply IH.
    assert (Hchild : m ∈ children (get "allOf" s2)) by (rewrite HallOf; exact Hin).
    apply child_height in Hchild.
    pose proof (get_height "allOf" s2). lia.
  - apply bind_returns; [apply has_key_returns|]. intros [] _; [|discriminate].
    apply bind_returns; [apply Hfind; lia|]. intros schemaResolved _.
    destruct (get "$ref" s2); discriminate.
Qed.


Lemma mapM_st_returns {A B}
    (f : gset (option string) -> A -> result (B * gset (option string))) l w :
  (forall w' x, x ∈ l -> w ⊆ w' -> f w' x <> Diverge) ->
  (forall w' x y w'', f w' x = Ok (y, w'') -> w' ⊆ w'') ->
  forall w', w ⊆ w' -> mapM_st f l w' <> Diverge.
Proof.
  intros Hret Hmono. induction l as [|x l IH]; simpl; intros w' Hw; [discriminate|].
  apply bind_returns; [apply Hret; [left|exact Hw]|]. intros [y w1] Hx. simpl.
  apply bind_returns.
  - apply IH.
    + intros w2 x' Hx' Hw2. apply Hret; [right; exact Hx'|exact Hw2].
    + apply Hmono in Hx. set_solver.
  - intros [ys w2] _. discriminate.
Qed.

Lemma build_S resolver fuel visitedRefs schema :
  build resolver (S fuel) visitedRefs schema
  = ('(schema, refs) ← resolver schema;
     match guard refs visitedRefs with
     | inl visitedRefs => Ok (JObj [], visitedRefs)
     | inr visitedRefs =>
     has_oneOf ← has_key "oneOf" schema;
     if has_oneOf : bool then
       let oneOf := get "oneOf" schema in
       build resolver fuel visitedRefs (if is_nullish oneOf then JUndef else get "0" oneOf)
     else
     has_allOf ← has_key "allOf" schema;
     if has_allOf : bool then
       match get "allOf" schema with
       | JArr members =>
           '(examples, visitedRefs) ← mapM_st (build resolver fuel) members visitedRefs;
           Ok (JObj (assign_all examples), visitedRefs)
       | JUndef | JNull => Ok (JObj [], visitedRefs)
       | _ => Throw TypeError
       end
     else
     has_example ← has_key "example" schema;
     if (has_example : bool) && negb (is_undefined (get "example" schema))
     then Ok (get "example" schema, visitedRefs) else
     has_default ← has_key "default" schema;
     if (has_default : bool) && negb (is_undefined (get "default" schema))
     then Ok (get "default" schema, visitedRefs) else
     has_properties ← has_key "properties" schema;
     if (has_properties : bool) && truthy (get "properties" schema) then
       '(entries, visitedRefs) ←
         mapM_st (fun visitedRefs kv =>
                    '(example, visitedRefs) ← build resolver fuel visitedRefs (snd kv);
                    Ok ((fst kv, example), visitedRefs))
                 (own_entries (get "properties" schema)) visitedRefs;
       let obj := fold_left (fun obj kv => set_key (fst kv) (snd kv) obj) entries [] in
       Ok (JObj obj, visitedRefs)
     else
     has_items ← has_key "items" schema;
     if (has_items : bool) && truthy (get "items" schema) then
       build resolver fuel visitedRefs (get "items" schema)
     else Ok (JUndef, visitedRefs)
     end).
Proof. reflexivity. Qed.

(** The pointers the guard can ever add. *)
Definition universe (P : list string) : gset (option string) :=
  {[None]} ∪ list_to_set (map Some P).

Lemma universe_elem P r : r ∈ P -> Some r ∈ universe P.
Proof.
  intros Hr. unfold universe. apply elem_of_union_r, elem_of_list_to_set.
  apply elem_of_map. exact Hr.
Qed.

Lemma remaining_le (U v w : gset (option string)) :
  v ⊆ w -> size (U ∖ w) <= size (U ∖ v).
Proof.
  intros Hsub. apply subseteq_size. intros x Hx.
  apply elem_of_difference in Hx as [HU Hw]. apply elem_of_difference.
  split; [exact HU|]. intros Hv. apply Hw, Hsub, Hv.
Qed.

Lemma remaining_lt (U v w : gset (option string)) ptr :
  v ⊆ w -> ptr ∈ U -> ptr ∉ v -> ptr ∈ w -> size (U ∖ w) < size (U ∖ v).
Proof.
  intros Hsub HU Hv Hw. apply subset_size. split.
  - intros x Hx. apply elem_of_difference in Hx as [HxU Hxw].
    apply elem_of_difference. split; [exact HxU|]. intros Hxv. apply Hxw, Hsub, Hxv.
  - intros Hsup.
    assert (Hin : ptr ∈ U ∖ w) by (apply Hsup, elem_of_difference; split; assumption).
    apply elem_of_difference in Hin as [_ Hn]. exact (Hn Hw).
Qed.

(** What the guard leaves when it lets the call go on: nothing new for
    an empty chain, and otherwise a set with a pointer more. *)
Lemma visit_refs_passes refs v w :
  visit_refs refs v = inr w ->
  v ⊆ w /\ (match refs with
            | [] => w = v
            | ptr :: _ => (ptr ∉ v) /\ (ptr ∈ w)
            end).
Proof.
  intros Hg. split; [eapply visit_refs_subset; eauto|].
  destruct refs as [|ptr refs]; simpl in Hg; [inversion Hg; reflexivity|].
  case_bool_decide as Hptr; [discriminate|]. split; [exact Hptr|].
  eapply (visit_refs_subset refs); [right; exact Hg|]. set_solver.
Qed.

Section Termination.
Variables (doc : json) (N H : nat) (P : list string).
Hypothesis Hdoc : fits H P doc.
Hypothesis Hresolver : forall s, height s <= H -> ResolveRef N doc s <> Diverge.

Let remaining (v : gset (option string)) : nat := size (universe P ∖ v).

Lemma build_returns : forall fuel v s,
  fits H P s -> remaining v * S H + height s < fuel ->
  build (ResolveRef N doc) fuel v s <> Diverge.
Proof.
  induction fuel as [|fuel IH]; intros v s Hs Hfuel; [lia|].
  rewrite build_S.
  apply bind_returns; [apply Hresolver; apply Hs|]. intros [s' refs] Hres. simpl.
  destruct (ResolveRef_fits doc N s s' refs H P Hres Hs (fun _ => Hdoc))
    as (Hc & Hfit & Hptrs).
  destruct (guard refs v) as [w|w] eqn:Hguard; [discriminate|].
  assert (Hbudget : v ⊆ w /\ remaining w * S H + height s' <= fuel).
  { assert (Hplain : ~ followed refs -> height s' <= height s).
    { intros Hnot.
      destruct (ResolveRef_fits doc N s s' refs (height s) (strs s) Hres (fits_self s))
        as (_ & [Hh _] & _); [intros Hf; contradiction|exact Hh]. }
    destruct refs as [refs|]; simpl in Hguard.
    - apply visit_refs_passes in Hguard as [Hsub Hrefs]. split; [exact Hsub|].
      destruct refs as [|ptr refs].
      + subst w. assert (height s' <= height s); [|lia].
        apply Hplain. intros (l & r & [= <-] & Hr). inversion Hr.
      + destruct Hrefs as [Hv Hw].
        assert (remaining w < remaining v).
        { apply (remaining_lt _ v w ptr); try assumption.
          destruct ptr as [r|]; [|unfold universe; set_solver].
          apply universe_elem. apply Hs. eapply Hptrs; [reflexivity|left]. }
        destruct Hfit as [Hh _]. nia.
    - inversion Hguard; subst. split; [reflexivity|].
      assert (height s' <= height s); [|lia].
      apply Hplain. intros (l & r & [=] & _). }
  destruct Hbudget as [Hsub Hbudget].
  assert (Hchild : forall w' t, w ⊆ w' -> height t < height s' -> strs t ⊆ strs s' ->
    build (ResolveRef N doc) fuel w' t <> Diverge).
  { intros w' t Hw' Hh Hst. apply IH.
    - destruct Hfit as [Hh' Hst']. split; [lia|]. etransitivity; eauto.
    - pose proof (remaining_le (universe P) w w' Hw'). unfold remaining in *. nia. }
  clear Hbudget IH Hfuel.
  pose proof (container_height s' Hc) as Hpos.
  apply bind_returns; [apply has_key_returns|]. intros [] _.
  { apply Hchild; [reflexivity| |].
    - destruct (is_nullish _); [simpl; lia|].
      pose proof (get_height "0" (get "oneOf" s')).
      pose proof (get_height_lt "oneOf" s' Hc). lia.
    - destruct (is_nullish _); [simpl; set_solver|].
      etransitivity; [apply get_strs|apply get_strs]. }
  apply bind_returns; [apply has_key_returns|]. intros [] _.
  { destruct (get "allOf" s') as [| | | | |members|] eqn:HallOf; try discriminate.
    apply bind_returns; [|intros [examples w'] _; discriminate].
    apply (mapM_st_returns _ _ w); [|apply build_monotone|reflexivity].
    intros w' m Hin Hw'.
    assert (Hm : m ∈ children (get "allOf" s')) by (rewrite HallOf; exact Hin).
    apply Hchild; [exact Hw'| |].
    - apply child_height in Hm. pose proof (get_height "allOf" s'). lia.
    - etransitivity; [apply child_strs; exact Hm|apply get_strs]. }
  apply bind_returns; [apply has_key_returns|]. intros has_example _.
  destruct (has_example && _); [discriminate|].
  apply bind_returns; [apply has_key_returns|]. intros has_default _.
  destruct (has_default && _); [discriminate|].
  apply bind_returns; [apply has_key_returns|]. intros has_properties _.
  destruct (has_properties && _).
  { apply bind_returns; [|intros [entries w'] _; discriminate].
    apply (mapM_st_returns _ _ w); [| |reflexivity].
    - intros w' kv Hin Hw'.
      apply bind_returns; [|intros [example w''] _; discriminate].
      apply own_entries_value in Hin as [Hh Hst].
      apply Hchild; [exact Hw'| |].
      + pose proof (get_height_lt "properties" s' Hc). lia.
      + etransitivity; [exact Hst|apply get_strs].
    - intros w' kv y w'' Hkv.
      apply bind_Ok in Hkv as ([example w1] & Hb & Hkv).
      inversion Hkv; subst. eapply build_monotone; eauto. }
  apply bind_returns; [apply has_key_returns|]. intros has_items _.
  destruct (has_items && _); [|discriminate].
  apply Hchild; [reflexivity|apply get_height_lt; exact Hc|apply get_strs].
Qed.

End Termination.

(** X30, the part of C3 that holds.  Where every chain of pointers of
    the document comes to an end, the extraction of an example returns
    (with a value or an exception) for every schema: the guard of
    [build] cuts every cycle that passes through a property, the items
    or a member of a composition. *)
Theorem extractExample_returns doc n schema :
  pointers_end n doc ->
  exists fuel0, forall fuel, fuel0 <= fuel -> extractExample fuel doc schema <> Diverge.
Proof.
  intros Hend.
  set (H := Nat.max (height doc) (height schema)).
  set (P := strs doc ++ strs schema).
  exists (Nat.max (n + 2 + H) (size (universe P) * S H + H) + 1).
  intros fuel Hfuel. unfold extractExample.
  assert (Hbuild : build (ResolveRef fuel doc) fuel ∅ schema <> Diverge).
  { apply (build_returns doc fuel H P).
    - split; [lia|]. intros x Hx. apply elem_of_app. left. exact Hx.
    - intros s Hs. apply (ResolveRef_returns (n + 2)); [|lia].
      intros m ref Hm. apply (FindRef_returns n); [exact Hend|lia].
    - split; [lia|]. intros x Hx. apply elem_of_app. right. exact Hx.
    - assert (size (universe P ∖ ∅) <= size (universe P)).
      { apply subseteq_size. intros x Hx.
        apply elem_of_difference in Hx as [Hx _]. exact Hx. }
      assert (height schema <= H) by lia. nia. }
  destruct (build _ _ _ _); simpl; [discriminate|discriminate|contradiction].
Qed.

Lemma node_doc_pointers_end : pointers_end 1 node_doc.
Proof.
  intros r Hr. vm_compute in Hr.
  repeat (apply elem_of_cons in Hr as [->|Hr]; [vm_compute; discriminate|]).
  inversion Hr.
Qed.

Lemma extractExample_returns_witness :
  exists fuel0, forall fuel, fuel0 <= fuel ->
    extractExample fuel node_doc (ref_to "Node") <> Diverge.
Proof. apply (extractExample_returns node_doc 1). exact node_doc_pointers_end. Defined.

End Cycles.

(** ** C5 and C7: the property mapper *)

Module MapperFacts.

Section Facts.
Context {host : Host}.

Lemma MapFromSchema_shape fuel doc schema config :
  MapFromSchema fuel doc schema = Ok config ->
  exists type default description,
    config = JObj [("type", type); ("default", default); ("description", description)]
    \/ exists options,
         config = JObj [("type", type); ("default", default);
                        ("description", description); ("options", options)].
Proof.
  unfold MapFromSchema. intros Hm.
  apply bind_Ok in Hm as (resolved & _ & Hm).
  apply bind_Ok in Hm as (exampleValue & _ & Hm).
  destruct (get "enum" resolved) as [| | | |s|items|]; try (inversion Hm; eauto 6).
  - destruct s; inversion Hm; eauto 6.
  - destruct items; inversion Hm; simpl; eauto 7.
Qed.

Lemma parameter_schema_config_shape fuel doc resolved config :
  parameter_schema_config fuel doc resolved = Ok config ->
  truthy config = true ->
  exists type default description,
    config = JObj [("type", type); ("default", default); ("description", description)]
    \/ exists options,
         config = JObj [("type", type); ("default", default);
                        ("description", description); ("options", options)].
Proof.
  unfold parameter_schema_config. intros Hc Ht.
  apply bind_Ok in Hc as (first & Hfirst & Hc).
  destruct (truthy first) eqn:Hf.
  - simpl in Hc. inversion Hc; subst.
    destruct (truthy (get "schema" resolved)).
    + eapply MapFromSchema_shape; eauto.
    + inversion Hfirst; subst. discriminate.
  - simpl in Hc. destruct (truthy (get "content" resolved)).
    + apply bind_Ok in Hc as (content & _ & Hc).
      destruct (IsContentObject content).
      * eapply MapFromSchema_shape; eauto.
      * inversion Hc; subst. congruence.
    + inversion Hc; subst. congruence.
Qed.

Lemma get_JObj k props : get k (JObj props) = default JUndef (lookup_key k props).
Proof. reflexivity. Qed.

Lemma lookup_defaults_fold k entries : forall target,
  NoDup (map fst entries) ->
  default JUndef
    (lookup_key k
       (fold_left
          (fun object kv =>
             if is_undefined (default JUndef (lookup_key (fst kv) object))
             then set_key (fst kv) (snd kv) object else object)
          entries target))
  = if is_undefined (default JUndef (lookup_key k target))
    then default JUndef (lookup_key k entries)
    else default JUndef (lookup_key k target).
Proof.
  induction entries as [|[k0 v0] entries IH]; simpl; intros target Hnd.
  - destruct (lookup_key k target) as [[]|]; reflexivity.
  - apply NoDup_cons in Hnd as [Hnotin Hnd].
    rewrite IH by exact Hnd. clear IH.
    destruct (String.eqb k k0) eqn:E.
    + apply String.eqb_eq in E. subst k0.
      rewrite (lookup_key_not_in k entries Hnotin).
      destruct (is_undefined (default JUndef (lookup_key k target))) eqn:Hu.
      * rewrite lookup_set_key_eq. simpl. destruct v0; reflexivity.
      * rewrite Hu. reflexivity.
    + destruct (is_undefined (default JUndef (lookup_key k0 target)));
        [|reflexivity].
      rewrite lookup_set_key, E. reflexivity.
Qed.

Lemma get_defaults_source k target source :
  distinct_keys source ->
  get k (JObj (defaults_source target source))
  = if is_undefined (get k (JObj target))
    then default JUndef (lookup_key k (own_entries source))
    else get k (JObj target).
Proof. intros Hnd. apply lookup_defaults_fold. exact Hnd. Qed.

(** Outside [required], [MergeProperties] of two objects keeps, for every
    key, the value of the first when it is defined and takes that of the
    second otherwise. *)
Lemma get_MergeProperties k first second :
  k <> "required" ->
  distinct_keys (JObj first) -> distinct_keys (JObj second) ->
  get k (JObj (MergeProperties [JObj first; JObj second]))
  = if is_undefined (get k (JObj first))
    then get k (JObj second) else get k (JObj first).
Proof.
  intros Hk Hfirst Hsecond.
  assert (Hmerged :
    get k (JObj (lodash_defaults [JObj first; JObj second]))
    = if is_undefined (get k (JObj first))
      then get k (JObj second) else get k (JObj first)).
  { unfold lodash_defaults. simpl fold_left.
    rewrite get_defaults_source by exact Hsecond.
    rewrite get_defaults_source by exact Hfirst.
    simpl. destruct (is_undefined (default JUndef (lookup_key k first))) eqn:Hu;
      rewrite ?Hu; reflexivity. }
  unfold MergeProperties.
  destruct (negb _); [|exact Hmerged].
  rewrite get_JObj, lookup_delete_key_ne by exact Hk. exact Hmerged.
Qed.

Definition known_location (parameter : json) : Prop :=
  get "in" parameter = JStr "query" \/ get "in" parameter = JStr "path"
  \/ get "in" parameter = JStr "header".

Lemma SetParameterRouting_frame k field parameter :
  known_location parameter -> k <> "routing" -> k <> "required" ->
  exists field',
    SetParameterRouting field parameter = Ok field'
    /\ lookup_key k field' = lookup_key k field.
Proof.
  intros Hloc Hrouting Hrequired. unfold SetParameterRouting.
  destruct Hloc as [Hin|[Hin|Hin]]; rewrite Hin; simpl; eexists;
    (split; [reflexivity|]); apply lookup_set_key_ne; assumption.
Qed.

(** C5, amended.  For a parameter with a name and a known location
    whose schema or content maps to a field, [MapFromParameter] answers a
    field in which the values of the parameter come first: the
    description is the one of the parameter when it is defined and the
    one derived from the schema otherwise, and the default is the example
    of the parameter when it is defined and the default derived from the
    schema otherwise. *)
Theorem MapFromParameter_parameter_level_first
    fuel doc parameter resolved name config :
  Resolve fuel doc parameter = Ok resolved ->
  get "name" resolved = JStr name ->
  name <> "" ->
  parameter_schema_config fuel doc resolved = Ok config ->
  truthy config = true ->
  known_location resolved ->
  exists field,
    MapFromParameter fuel doc parameter = Ok field
    /\ get "description" field
       = (if is_undefined (get "description" resolved)
          then get "description" config else get "description" resolved)
    /\ get "default" field
       = (if is_undefined (get "example" resolved)
          then get "default" config else get "example" resolved).
Proof.
  intros Hres Hname Hnonempty Hconfig Htruthy Hloc.
  assert (Hshape : exists props, config = JObj props /\ distinct_keys config).
  { destruct (parameter_schema_config_shape _ _ _ _ Hconfig Htruthy)
      as (type & default & description & [->|[options ->]]);
      eexists; (split; [reflexivity|]);
      apply (bool_decide_unpack _); vm_compute; exact I. }
  destruct Hshape as (props & -> & Hdistinct).
  assert (Hpcfg : distinct_keys (parameterFieldConfig resolved name)).
  { apply (bool_decide_unpack _). vm_compute. exact I. }
  assert (Hmerge : forall k, k <> "required" ->
    get k (JObj (MergeProperties [parameterFieldConfig resolved name; JObj props]))
    = if is_undefined (get k (parameterFieldConfig resolved name))
      then get k (JObj props)
      else get k (parameterFieldConfig resolved name)).
  { intros k Hk. apply get_MergeProperties; assumption. }
  unfold MapFromParameter. rewrite Hres. simpl. rewrite Hname, Hconfig.
  assert (Hname_truthy : truthy (JStr name) = true).
  { simpl. destruct name; [contradiction|reflexivity]. }
  rewrite Hname_truthy. simpl.
  set (merged := MergeProperties _) in *.
  assert (Hfinal : forall k, k <> "routing" -> k <> "required" ->
    exists field,
      (SetParameterRouting merged resolved ≫= fun field =>
         if negb (truthy (default JUndef (lookup_key "required" field)))
         then Ok (JObj (delete_key "required" field)) else Ok (JObj field))
      = Ok field
      /\ get k field = get k (JObj merged)).
  { intros k Hk1 Hk2.
    destruct (SetParameterRouting_frame k merged resolved Hloc Hk1 Hk2)
      as (field' & Hset & Hsame).
    rewrite Hset. simpl.
    destruct (negb _); eexists; (split; [reflexivity|]).
    - rewrite !get_JObj, lookup_delete_key_ne by exact Hk2. rewrite Hsame.
      reflexivity.
    - rewrite !get_JObj, Hsame. reflexivity. }
  destruct (Hfinal "description") as (field & Hfield & Hdesc); [discriminate..|].
  destruct (Hfinal "default") as (field' & Hfield' & Hdef); [discriminate..|].
  rewrite Hfield in Hfield'. inversion Hfield'; subst field'. clear Hfield'.
  exists field. split; [exact Hfield|].
  rewrite Hdesc, Hdef, !Hmerge by discriminate.
  split; reflexivity.
Qed.

(** C7, amended.  For a schema whose resolved [enum] is an array with at
    least one value, [MapFromSchema] answers a field of type options
    with one option per enum value, in the order of the enum, each with
    the raw value and its start-cased name.  Its default is the default
    computed from the example or, without one, from the type, when that
    is truthy; and it is the first enum value when the schema gives no
    example and the default of the type is falsy (which it is not for a
    type that is an [inherited] name: there the table of the source
    answers with the inherited member).  What becomes of an example that
    is falsy is left open. *)
Theorem MapFromSchema_enum fuel doc schema resolved exampleValue first others :
  Resolve fuel doc schema = Ok resolved ->
  extractExample fuel doc resolved = Ok exampleValue ->
  get "enum" resolved = JArr (first :: others) ->
  exists field,
    MapFromSchema fuel doc schema = Ok field
    /\ get "type" field = JStr "options"
    /\ get "options" field = JArr (map enum_option (first :: others))
    /\ (truthy (field_default exampleValue resolved) = true ->
        get "default" field = field_default exampleValue resolved)
    /\ (is_undefined exampleValue = true ->
        inherited (schema_type resolved) = false ->
        truthy (GetDefaultValue resolved) = false ->
        get "default" field = first).
Proof.
  intros Hres Hexample Henum.
  unfold MapFromSchema. rewrite Hres. simpl. rewrite Hexample. simpl.
  rewrite Henum. eexists. split; [reflexivity|].
  split; [reflexivity|]. split; [reflexivity|].
  change (get "default" _)
    with (or_else (field_default exampleValue resolved) first).
  unfold or_else. split.
  - intros ->. reflexivity.
  - intros Hnone _ Hfalsy.
    assert (Hdefault : truthy (field_default exampleValue resolved) = false).
    { unfold field_default. rewrite Hnone. cbn [negb].
      assert (Hscalar : typeof_object (GetDefaultValue resolved) = false).
      { unfold GetDefaultValue, SCHEMA_DEFAULTS.
        repeat (destruct (String.eqb _ _); [reflexivity|]). reflexivity. }
      rewrite Hscalar. exact Hfalsy. }
    rewrite Hdefault. reflexivity.
Qed.

End Facts.

Section Evaluation.
#[local] Existing Instance sample_host.

Definition flag_parameter : json :=
  JObj [("name", JStr "all");
        ("required", JBool false);
        ("in", JStr "query");
        ("example", JBool false);
        ("description", JStr "Boolean flag description");
        ("schema", JObj [("type", JStr "boolean")])].

(** C5, counterexample.  The schema of this parameter gives the default
    [true]; the parameter has the example [false]; the mapped field has
    the default [false]: the value of the parameter is kept, not the one
    derived from the schema. *)
Lemma parameter_example_not_suppressed :
  MapFromSchema 3 (JObj []) (get "schema" flag_parameter)
  = Ok (JObj [("type", JStr "boolean"); ("default", JBool true);
              ("description", JUndef)])
  /\ MapFromParameter 3 (JObj []) flag_parameter
     = Ok (JObj [("displayName", JStr "all");
                 ("name", JStr "all");
                 ("description", JStr "Boolean flag description");
                 ("default", JBool false);
                 ("type", JStr "boolean");
                 ("routing",
                  JObj [("send", JObj [("type", JStr "query");
                                       ("property", JStr "all");
                                       ("value", JStr "={{ $value }}");
                                       ("propertyInDotNotation", JBool false)])])]).
Proof. split; vm_compute; reflexivity. Qed.

Lemma MapFromParameter_parameter_level_first_witness :
  exists field,
    MapFromParameter 3 (JObj []) flag_parameter = Ok field
    /\ get "description" field
       = (if is_undefined (get "description" flag_parameter)
          then get "description"
                 (JObj [("type", JStr "boolean"); ("default", JBool true);
                        ("description", JUndef)])
          else get "description" flag_parameter)
    /\ get "default" field
       = (if is_undefined (get "example" flag_parameter)
          then get "default"
                 (JObj [("type", JStr "boolean"); ("default", JBool true);
                        ("description", JUndef)])
          else get "example" flag_parameter).
Proof.
  apply (MapFromParameter_parameter_level_first 3 (JObj []) flag_parameter
           flag_parameter "all"
           (JObj [("type", JStr "boolean"); ("default", JBool true);
                  ("description", JUndef)])).
  - vm_compute. reflexivity.
  - reflexivity.
  - discriminate.
  - vm_compute. reflexivity.
  - reflexivity.
  - left. reflexivity.
Defined.

Definition boolean_enum : json :=
  JObj [("type", JStr "boolean"); ("enum", JArr [JBool false; JBool true])].

(** C7, counterexample.  The first value of this enum is [false] and the
    schema has neither example nor default, yet the default of the field
    is [true], the default of the type. *)
Lemma boolean_enum_default_not_first :
  MapFromSchema 3 (JObj []) boolean_enum
  = Ok (JObj [("type", JStr "options");
              ("default", JBool true);
              ("description", JUndef);
              ("options",
               JArr [JObj [("name", JStr (startCase (JBool false)));
                           ("value", JBool false)];
                     JObj [("name", JStr (startCase (JBool true)));
                           ("value", JBool true)]])]).
Proof. vm_compute. reflexivity. Qed.

Definition string_enum : json :=
  JObj [("type", JStr "string"); ("enum", JArr [JStr "type1"; JStr "type2"])].

Lemma MapFromSchema_enum_witness :
  exists field,
    MapFromSchema 3 (JObj []) string_enum = Ok field
    /\ get "type" field = JStr "options"
    /\ get "options" field = JArr (map enum_option [JStr "type1"; JStr "type2"])
    /\ get "default" field = JStr "type1".
Proof.
  destruct (MapFromSchema_enum 3 (JObj []) string_enum string_enum JUndef
              (JStr "type1") [JStr "type2"])
    as (field & Hfield & Htype & Hoptions & _ & Hfirst).
  - vm_compute. reflexivity.
  - vm_compute. reflexivity.
  - reflexivity.
  - exists field. split; [exact Hfield|]. split; [exact Htype|].
    split; [exact Hoptions|]. apply Hfirst; reflexivity.
Defined.

(** With no example and a type whose default is falsy, that is the first
    enum value. *)
Example string_enum_default :
  get "default" <$> MapFromSchema 3 (JObj []) string_enum = Ok (JStr "type1").
Proof. vm_compute. reflexivity. Qed.

End Evaluation.

End MapperFacts.

(** ** C6: the order of the resource selector *)

Module ResourceFacts.
Import Resources.

Section Sorting.
Context {A : Type} (key : A -> nat).

Definition key_le (a b : A) : Prop := key a <= key b.

Lemma insert_by_perm x l : insert_by key x l ≡ₚ x :: l.
Proof.
  induction l as [|y l IH]; simpl; [reflexivity|].
  destruct (key x <=? key y)%nat; [reflexivity|].
  rewrite IH. apply Permutation_swap.
Qed.

Lemma sort_by_perm l : sort_by key l ≡ₚ l.
Proof.
  induction l as [|x l IH]; simpl; [reflexivity|].
  rewrite insert_by_perm, IH. reflexivity.
Qed.

Lemma insert_by_sorted x l :
  StronglySorted key_le l -> StronglySorted key_le (insert_by key x l).
Proof.
  induction 1 as [|y l Hsorted IH Hall]; simpl.
  - repeat constructor.
  - destruct (key x <=? key y)%nat eqn:E.
    + apply Nat.leb_le in E. constructor; [constructor; assumption|].
      constructor; [exact E|].
      eapply List.Forall_impl; [|exact Hall]. unfold key_le. intros; simpl in *; lia.
    + apply Nat.leb_gt in E. constructor; [exact IH|].
      rewrite insert_by_perm.
      constructor; [unfold key_le; lia|exact Hall].
Qed.

Lemma sort_by_sorted l : StronglySorted key_le (sort_by key l).
Proof.
  induction l as [|x l IH]; simpl; [constructor|].
  apply insert_by_sorted. exact IH.
Qed.

Lemma insert_by_filter n x l :
  filter (fun y => key y = n) (insert_by key x l)
  = filter (fun y => key y = n) (x :: l).
Proof.
  induction l as [|y l IH]; simpl; [reflexivity|].
  destruct (key x <=? key y)%nat eqn:E; [reflexivity|].
  apply Nat.leb_gt in E.
  rewrite filter_cons, IH, !filter_cons.
  repeat case_decide; try reflexivity; lia.
Qed.

(** The sort is stable: tags of equal key keep their order. *)
Lemma sort_by_stable n l :
  filter (fun y => key y = n) (sort_by key l) = filter (fun y => key y = n) l.
Proof.
  induction l as [|x l IH]; simpl; [reflexivity|].
  rewrite insert_by_filter, !filter_cons, IH. reflexivity.
Qed.

Lemma remove_first_sorted (p : A -> bool) l :
  StronglySorted key_le l -> StronglySorted key_le (remove_first p l).
Proof.
  induction 1 as [|y l Hsorted IH Hall]; simpl; [constructor|].
  destruct (p y); [exact Hsorted|].
  constructor; [exact IH|].
  clear -Hall. induction l as [|z l IH]; simpl; [constructor|].
  apply Forall_cons in Hall as [Hz Hall].
  destruct (p z); [exact Hall|]. constructor; auto.
Qed.

Lemma remove_first_perm (p : A -> bool) l d :
  List.find p l = Some d -> l ≡ₚ remove_first p l ++ [d].
Proof.
  induction l as [|y l IH]; simpl; [discriminate|].
  destruct (p y).
  - intros [= ->]. rewrite Permutation_app_comm. reflexivity.
  - intros Hfind. simpl. rewrite <- IH by exact Hfind. reflexivity.
Qed.

(** In a sorted list an element at a smaller index has a key that is not
    greater. *)
Lemma sorted_lookup_le l :
  StronglySorted key_le l ->
  forall j i y x, l !! j = Some y -> l !! i = Some x -> (j < i)%nat -> key y <= key x.
Proof.
  induction 1 as [|a l Hsorted IH Hall]; intros j i y x Hj Hi Hlt.
  - rewrite lookup_nil in Hj. discriminate.
  - destruct i as [|i]; [lia|]. destruct j as [|j]; simpl in *.
    + inversion Hj; subst.
      rewrite Forall_forall in Hall. apply Hall.
      eapply list_elem_of_lookup_2. exact Hi.
    + eapply IH; eauto. lia.
Qed.

End Sorting.

(** The tags of [sortedTags] that the ordering applies to: all of them
    when a tag named default was declared, all but the tag moved to the
    end otherwise. *)
Definition ordered_part (c : ResourceCollector) : list TagObject :=
  let sorted := sort_by (order_of (tagsOrder c)) (map snd (tags c)) in
  if bool_decide (is_Some (tagsOrder c !! "default")) then sorted
  else remove_first is_default sorted.

(** C6, amended.  The options of the resource selector are those of the
    tags of [sortedTags], which are the collected tags in ascending order
    of their declaration index, where a tag that was only inferred from
    operations counts as index 0, except that the tag named default,
    unless it was declared, stands at the end.  So an inferred tag
    stands before every declared tag of index 1 or more, not after the
    declared ones. *)
Theorem sortedTags_order (resourceParser : IResourceParser) (c : ResourceCollector) :
  get "options" (resources resourceParser c)
  = JArr (map (resource_option resourceParser) (sortedTags c))
  /\ sortedTags c ≡ₚ map snd (tags c)
  /\ (sortedTags c = ordered_part c
      \/ exists defaultTag,
           tagsOrder c !! "default" = None
           /\ name defaultTag = "default"
           /\ sortedTags c = ordered_part c ++ [defaultTag])
  /\ StronglySorted (key_le (order_of (tagsOrder c))) (ordered_part c)
  /\ (forall i j inferred declared index,
        ordered_part c !! i = Some inferred ->
        ordered_part c !! j = Some declared ->
        tagsOrder c !! name inferred = None ->
        tagsOrder c !! name declared = Some (S index) ->
        (i < j)%nat).
Proof.
  assert (Hsorted : StronglySorted (key_le (order_of (tagsOrder c))) (ordered_part c)).
  { unfold ordered_part. case_bool_decide.
    - apply sort_by_sorted.
    - apply remove_first_sorted, sort_by_sorted. }
  split; [reflexivity|].
  split; [|split; [|split; [exact Hsorted|]]].
  - unfold sortedTags. case_bool_decide; [apply sort_by_perm|].
    destruct (List.find _ _) as [d|] eqn:Hfind; [|apply sort_by_perm].
    rewrite <- (remove_first_perm _ _ _ Hfind). apply sort_by_perm.
  - unfold sortedTags, ordered_part. case_bool_decide as Hdecl; [left; reflexivity|].
    destruct (List.find _ _) as [d|] eqn:Hfind.
    + right. exists d. split; [|split; [|reflexivity]].
      * destruct (tagsOrder c !! "default") eqn:E; [|reflexivity].
        exfalso. apply Hdecl. eauto.
      * apply find_some in Hfind as [_ Hd]. apply String.eqb_eq in Hd. exact Hd.
    + left. clear -Hfind.
      induction (sort_by _ _) as [|y l IH]; simpl in *; [reflexivity|].
      destruct (is_default y); [discriminate|]. rewrite <- IH by exact Hfind.
      reflexivity.
  - intros i j inferred declared index Hi Hj Hinf Hdecl.
    destruct (decide (i < j)%nat) as [Hlt|Hge]; [exact Hlt|exfalso].
    destruct (decide (i = j)) as [->|Hne].
    + rewrite Hi in Hj. inversion Hj; subst. rewrite Hinf in Hdecl. discriminate.
    + assert (Hji : (j < i)%nat) by lia.
      pose proof (sorted_lookup_le _ _ Hsorted j i declared inferred Hj Hi Hji) as Hle.
      unfold key_le, order_of in Hle. rewrite Hinf, Hdecl in Hle. simpl in Hle. lia.
Qed.

(** One operation with a tag of its own, and two declared tags. *)
Definition inferred_tag_doc : json :=
  JObj [("paths",
         JObj [("/a", JObj [("get", JObj [("tags", JArr [JStr "inferred"])])])]);
        ("tags", JArr [JObj [("name", JStr "alpha")]; JObj [("name", JStr "beta")]])].

(** The collector after the walk of that document. *)
Definition inferred_tag_collector : ResourceCollector :=
  {| tags := [("inferred", {| name := "inferred"; description := "" |});
              ("alpha", {| name := "alpha"; description := "" |});
              ("beta", {| name := "beta"; description := "" |})];
     tagsOrder := <["beta" := 1%nat]> (<["alpha" := 0%nat]> ∅) |}.

(** C6, counterexample.  The tag that was only inferred from the
    operation is listed first, before both declared tags. *)
Lemma inferred_tag_sorts_first :
  snd (Parse Resources.visitor inferred_tag_doc new_ResourceCollector)
  = Ok inferred_tag_collector
  /\ map name (sortedTags inferred_tag_collector) = ["inferred"; "alpha"; "beta"].
Proof. split; vm_compute; reflexivity. Qed.

(** The theorem on that collector: the inferred tag, at index 0, and the
    second declared tag, at index 2. *)
Lemma sortedTags_order_witness : (0 < 2)%nat.
Proof.
  apply (proj2 (proj2 (proj2 (proj2
           (sortedTags_order (plain_ResourceParser (host := sample_host))
              inferred_tag_collector))))
           0%nat 2%nat
           {| name := "inferred"; description := "" |}
           {| name := "beta"; description := "" |} 0%nat);
    vm_compute; reflexivity.
Defined.

End ResourceFacts.

(** ** C4: what a build writes into the document *)

Module WalkerFacts.

(** [doc.paths[pathName][httpMethod]]. *)
Definition operation_at (doc : json) (pathName httpMethod : string) : json :=
  get httpMethod (get pathName (get "paths" doc)).

Definition default_tags : json := JArr [JStr "default"].

(** Every operation object of the document that is not a reference
    carries tags. *)
Definition all_tagged (doc : json) : Prop :=
  forall pathName httpMethod props,
    is_http_method httpMethod = true ->
    operation_at doc pathName httpMethod = JObj props ->
    lookup_key "$ref" props = None ->
    is_nullish (get "tags" (JObj props)) = false.

(** What the walker may have written into [doc] to make it [doc']:
    nothing outside the operations, and in an operation nothing but the
    default for missing tags. *)
Record only_tags_defaulted (doc doc' : json) : Prop := {
  frame_document : forall k, k <> "paths" -> get k doc' = get k doc;
  frame_path_item : forall pathName k,
    is_http_method k = false ->
    get k (get pathName (get "paths" doc')) = get k (get pathName (get "paths" doc));
  frame_operation : forall pathName httpMethod,
    operation_at doc' pathName httpMethod = operation_at doc pathName httpMethod
    \/ exists props,
         operation_at doc pathName httpMethod = JObj props
         /\ is_nullish (get "tags" (JObj props)) = true
         /\ operation_at doc' pathName httpMethod
            = JObj (set_key "tags" default_tags props)
}.

Lemma only_tags_defaulted_refl doc : only_tags_defaulted doc doc.
Proof. split; auto. Qed.

Lemma only_tags_defaulted_trans doc doc' doc'' :
  only_tags_defaulted doc doc' -> only_tags_defaulted doc' doc'' ->
  only_tags_defaulted doc doc''.
Proof.
  intros [Ha Hb Hc] [Ha' Hb' Hc']. split.
  - intros k Hk. rewrite Ha', Ha by exact Hk. reflexivity.
  - intros p k Hk. rewrite Hb', Hb by exact Hk. reflexivity.
  - intros p m.
    destruct (Hc' p m) as [Hsame'|(props' & Hop' & Hnull' & Hset')].
    + rewrite Hsame'. apply Hc.
    + destruct (Hc p m) as [Hsame|(props & Hop & Hnull & Hset)].
      * right. exists props'. rewrite <- Hsame. auto.
      * exfalso. rewrite Hset in Hop'. inversion Hop'; subst props'.
        unfold get in Hnull'. rewrite lookup_set_key_eq in Hnull'. discriminate.
Qed.

Lemma get_set_in k k1 keys v target :
  get k (set_in (k1 :: keys) v target)
  = match target with
    | JObj _ => if String.eqb k k1 then set_in keys v (get k1 target) else get k target
    | _ => get k target
    end.
Proof.
  destruct target; try reflexivity.
  simpl. rewrite lookup_set_key. destruct (String.eqb k k1); reflexivity.
Qed.

(** The write of [ParseMethods]. *)
Lemma default_tags_step doc pathName httpMethod props :
  is_http_method httpMethod = true ->
  operation_at doc pathName httpMethod = JObj props ->
  is_nullish (get "tags" (JObj props)) = true ->
  only_tags_defaulted doc
    (set_in ["paths"; pathName; httpMethod; "tags"] default_tags doc).
Proof.
  intros Hmethod Hop Hnull. unfold operation_at in *.
  split.
  - intros k Hk. rewrite get_set_in. destruct doc; try reflexivity.
    destruct (String.eqb k "paths") eqn:E; [|reflexivity].
    apply String.eqb_eq in E. contradiction.
  - intros p k Hk. rewrite (get_set_in "paths" "paths").
    destruct doc as [| | | | | |top]; try reflexivity. rewrite String.eqb_refl.
    rewrite (get_set_in p pathName).
    destruct (get "paths" (JObj top)) as [| | | | | |paths]; try reflexivity.
    destruct (String.eqb p pathName) eqn:Ep; [|reflexivity].
    apply String.eqb_eq in Ep. subst p.
    rewrite (get_set_in k httpMethod).
    destruct (get pathName (JObj paths)) as [| | | | | |item]; try reflexivity.
    destruct (String.eqb k httpMethod) eqn:Ek; [|reflexivity].
    apply String.eqb_eq in Ek. subst k. congruence.
  - intros p m. unfold operation_at. rewrite (get_set_in "paths" "paths").
    destruct doc as [| | | | | |top]; auto. rewrite String.eqb_refl.
    rewrite (get_set_in p pathName).
    destruct (get "paths" (JObj top)) as [| | | | | |paths]; auto.
    destruct (String.eqb p pathName) eqn:Ep; auto.
    apply String.eqb_eq in Ep. subst p.
    rewrite (get_set_in m httpMethod).
    destruct (get pathName (JObj paths)) as [| | | | | |item]; auto.
    destruct (String.eqb m httpMethod) eqn:Em; auto.
    apply String.eqb_eq in Em. subst m.
    right. exists props. rewrite Hop. auto.
Qed.

(** An operation object with the default for missing tags. *)
Definition defaulted (props : list (string * json)) : json :=
  if is_nullish (get "tags" (JObj props))
  then JObj (set_key "tags" default_tags props) else JObj props.

(** The document has a paths object. *)
Definition has_paths (doc : json) : Prop :=
  exists paths, get "paths" doc = JObj paths.

Lemma http_method_read m v props :
  is_http_method m = true -> get m v = JObj props -> exists item, v = JObj item.
Proof.
  intros Hm Hget. unfold is_http_method in Hm.
  apply existsb_exists in Hm as (name & Hname & E).
  apply String.eqb_eq in E. subst name.
  destruct v as [| | | |text|items|item]; try discriminate; eauto; exfalso;
    unfold HTTP_METHODS in Hname; simpl in Hname;
    repeat (destruct Hname as [<-|Hname]; [simpl in Hget; discriminate|]);
    exact Hname.
Qed.

Lemma text_read k text item : get k (JStr text) <> JObj item.
Proof.
  simpl. destruct (parse_index k) as [i|];
    [|destruct (String.eqb k "length"); discriminate].
  revert i. induction text as [|c text IH]; intros [|i]; simpl; try discriminate.
  apply IH.
Qed.

Lemma lookup_key_elem_fst k props v :
  lookup_key k props = Some v -> k ∈ map fst props.
Proof.
  induction props as [|[k' v'] props IH]; simpl; [discriminate|].
  destruct (String.eqb k k') eqn:E.
  - apply String.eqb_eq in E. subst. intros _. left.
  - intros H. right. exact (IH H).
Qed.

Lemma get_key_elem k props value :
  get k (JObj props) = JObj value -> k ∈ map fst props.
Proof.
  rewrite MapperFacts.get_JObj.
  destruct (lookup_key k props) eqn:E; [|discriminate].
  intros _. eapply lookup_key_elem_fst; eauto.
Qed.

Lemma defaulted_tagged props :
  exists props',
    defaulted props = JObj props'
    /\ is_nullish (get "tags" (JObj props')) = false
    /\ lookup_key "$ref" props' = lookup_key "$ref" props.
Proof.
  unfold defaulted. destruct (is_nullish (get "tags" (JObj props))) eqn:Hnull.
  - eexists. split; [reflexivity|]. split.
    + rewrite MapperFacts.get_JObj, lookup_set_key_eq. reflexivity.
    + apply lookup_set_key_ne. discriminate.
  - eauto.
Qed.

Lemma tagged_stable doc doc' p m props :
  only_tags_defaulted doc doc' ->
  operation_at doc p m = JObj props ->
  is_nullish (get "tags" (JObj props)) = false ->
  operation_at doc' p m = JObj props.
Proof.
  intros [_ _ Hop] Hat Htagged.
  destruct (Hop p m) as [->|(props0 & Hat0 & Hnull & _)]; [exact Hat|].
  rewrite Hat in Hat0. inversion Hat0; subst. congruence.
Qed.

Lemma defaulted_stable doc doc' p m props :
  only_tags_defaulted doc doc' ->
  operation_at doc p m = defaulted props ->
  operation_at doc' p m = defaulted props.
Proof.
  intros Hframe Hat. destruct (defaulted_tagged props) as (props' & Heq & Htagged & _).
  rewrite Heq in *. eapply tagged_stable; eauto.
Qed.

Lemma frame_defaulted doc doc1 p m props :
  only_tags_defaulted doc doc1 ->
  operation_at doc p m = JObj props ->
  exists props1,
    operation_at doc1 p m = JObj props1
    /\ defaulted props1 = defaulted props
    /\ lookup_key "$ref" props1 = lookup_key "$ref" props.
Proof.
  intros [_ _ Hop] Hat.
  destruct (Hop p m) as [Hsame|(props0 & Hat0 & Hnull & Hset)].
  - exists props. rewrite Hsame. auto.
  - rewrite Hat in Hat0. inversion Hat0; subst props0.
    eexists. split; [exact Hset|]. split.
    + unfold defaulted. rewrite Hnull.
      rewrite MapperFacts.get_JObj, lookup_set_key_eq. reflexivity.
    + apply lookup_set_key_ne. discriminate.
Qed.

(** The write of the default tags, read back. *)
Lemma set_in_operation doc p m props v :
  has_paths doc ->
  is_http_method m = true ->
  operation_at doc p m = JObj props ->
  operation_at (set_in ["paths"; p; m; "tags"] v doc) p m = JObj (set_key "tags" v props)
  /\ has_paths (set_in ["paths"; p; m; "tags"] v doc).
Proof.
  intros [paths Hpaths] Hm Hat. unfold operation_at in *.
  assert (Hdoc : exists top, doc = JObj top).
  { destruct doc; simpl in Hpaths; try discriminate; eauto. }
  destruct Hdoc as [top ->].
  rewrite Hpaths in Hat.
  destruct (http_method_read m _ _ Hm Hat) as [item Hitem].
  unfold has_paths.
  rewrite (get_set_in "paths" "paths"), String.eqb_refl, Hpaths.
  change (set_in ["paths"; p; m; "tags"] v (JObj top))
    with (set_in ["paths"; p; m; "tags"] v (JObj top)).
  assert (Hwritten :
    set_in [p; m; "tags"] v (JObj paths)
    = JObj (set_key p (JObj (set_key m (JObj (set_key "tags" v props)) item)) paths)).
  { cbn [set_in]. rewrite Hitem. rewrite Hitem in Hat. rewrite Hat. reflexivity. }
  rewrite Hwritten. split; [|eauto].
  rewrite !MapperFacts.get_JObj, lookup_set_key_eq. simpl default.
  rewrite MapperFacts.get_JObj, lookup_set_key_eq. reflexivity.
Qed.

#[local] Arguments set_in : simpl never.

Section Walk.
Context {S : Type} (visitor : IOpenApiVisitor S).

Lemma ParseMethods_frame pathName httpMethods : forall doc st,
  only_tags_defaulted doc (fst (ParseMethods visitor pathName httpMethods doc st)).
Proof.
  induction httpMethods as [|m ms IH]; intros doc st; simpl.
  - apply only_tags_defaulted_refl.
  - destruct (is_http_method m) eqn:Hm; simpl; [|apply IH].
    destruct (get m (get pathName (get "paths" doc))) as [| | | | | |props] eqn:Hop;
      simpl; try apply only_tags_defaulted_refl.
    case_bool_decide as Href; [apply IH|].
    assert (Hstep : only_tags_defaulted doc
              (if is_nullish (get "tags" (JObj props))
               then set_in ["paths"; pathName; m; "tags"] (JArr [JStr "default"]) doc
               else doc)).
    { destruct (is_nullish (get "tags" (JObj props))) eqn:Hnull.
      - eapply default_tags_step; eauto.
      - apply only_tags_defaulted_refl. }
    simpl in Hstep.
    destruct (visit_operation _ _ _ _ _); simpl; try exact Hstep.
    eapply only_tags_defaulted_trans; [exact Hstep|apply IH].
Qed.

Lemma ParsePathItems_frame pathNames : forall doc st,
  only_tags_defaulted doc (fst (ParsePathItems visitor pathNames doc st)).
Proof.
  induction pathNames as [|p ps IH]; intros doc st; simpl.
  - apply only_tags_defaulted_refl.
  - destruct (is_nullish _); simpl; [apply only_tags_defaulted_refl|].
    pose proof (ParseMethods_frame p
      (map fst (own_entries (get p (get "paths" doc)))) doc st) as Hstep.
    destruct (ParseMethods _ _ _ _ _) as [doc1 [st1| |]]; simpl in *; try exact Hstep.
    eapply only_tags_defaulted_trans; [exact Hstep|apply IH].
Qed.

Lemma ParsePaths_frame doc st :
  only_tags_defaulted doc (fst (ParsePaths visitor doc st)).
Proof.
  unfold ParsePaths. destruct (negb _); simpl; [apply only_tags_defaulted_refl|].
  destruct (get "paths" doc); simpl;
    try apply only_tags_defaulted_refl; apply ParsePathItems_frame.
Qed.

Lemma Parse_frame doc st : only_tags_defaulted doc (fst (Parse visitor doc st)).
Proof.
  unfold Parse. destruct (call_hook _ _); simpl; try apply only_tags_defaulted_refl.
  destruct (is_nullish doc); simpl; [apply only_tags_defaulted_refl|].
  pose proof (ParsePaths_frame doc a) as Hstep.
  destruct (ParsePaths _ _ _) as [doc1 [st1| |]]; exact Hstep.
Qed.

Lemma ParseMethods_unchanged pathName httpMethods doc : 
  all_tagged doc ->
  forall st, fst (ParseMethods visitor pathName httpMethods doc st) = doc.
Proof.
  intros Htagged. induction httpMethods as [|m ms IH]; intros st; simpl;
    [reflexivity|].
  destruct (is_http_method m) eqn:Hm; simpl; [|apply IH].
  destruct (get m (get pathName (get "paths" doc))) as [| | | | | |props] eqn:Hop;
    simpl; try reflexivity.
  case_bool_decide as Href; [apply IH|].
  assert (Hnull : is_nullish (get "tags" (JObj props)) = false).
  { apply (Htagged pathName m props Hm Hop).
    destruct (lookup_key "$ref" props) eqn:E; [|reflexivity].
    exfalso. apply Href. eauto. }
  simpl in Hnull. rewrite Hnull.
  destruct (visit_operation _ _ _ _ _); simpl; try reflexivity. apply IH.
Qed.

Lemma ParsePathItems_unchanged pathNames doc :
  all_tagged doc ->
  forall st, fst (ParsePathItems visitor pathNames doc st) = doc.
Proof.
  intros Htagged. induction pathNames as [|p ps IH]; intros st; simpl;
    [reflexivity|].
  destruct (is_nullish _); simpl; [reflexivity|].
  pose proof (ParseMethods_unchanged p
    (map fst (own_entries (get p (get "paths" doc)))) doc Htagged st) as Hstep.
  destruct (ParseMethods _ _ _ _ _) as [doc1 [st1| |]]; simpl in *; subst doc1;
    try reflexivity.
  apply IH.
Qed.

Lemma Parse_unchanged doc st : all_tagged doc -> fst (Parse visitor doc st) = doc.
Proof.
  intros Htagged. unfold Parse.
  destruct (call_hook _ _); simpl; try reflexivity.
  destruct (is_nullish doc); simpl; [reflexivity|].
  assert (Hpaths : fst (ParsePaths visitor doc a) = doc).
  { unfold ParsePaths. destruct (negb _); simpl; [reflexivity|].
    destruct (get "paths" doc); simpl; try reflexivity;
      apply ParsePathItems_unchanged; exact Htagged. }
  destruct (ParsePaths _ _ _) as [doc1 [st1| |]]; exact Hpaths.
Qed.

Lemma ParseMethods_tagged pathName httpMethods : forall doc st doc' st',
  has_paths doc ->
  ParseMethods visitor pathName httpMethods doc st = (doc', Ok st') ->
  has_paths doc'
  /\ forall m props,
       m ∈ httpMethods -> is_http_method m = true ->
       operation_at doc pathName m = JObj props ->
       lookup_key "$ref" props = None ->
       operation_at doc' pathName m = defaulted props.
Proof.
  induction httpMethods as [|m0 ms IH]; intros doc st doc' st' Hpaths Hparse.
  - inversion Hparse; subst. split; [exact Hpaths|]. intros m props Hin. inversion Hin.
  - cbn [ParseMethods] in Hparse.
    destruct (is_http_method m0) eqn:Hm0; cbn [negb] in Hparse.
    2:{ destruct (IH _ _ _ _ Hpaths Hparse) as [Hpaths' Hall]. split; [exact Hpaths'|].
        intros m props Hin Hm. apply elem_of_cons in Hin as [->|Hin]; [congruence|].
        apply Hall; assumption. }
    destruct (get m0 (get pathName (get "paths" doc))) as [| | | | | |props0] eqn:Hop0;
      try discriminate.
    case_bool_decide as Href.
    { destruct (IH _ _ _ _ Hpaths Hparse) as [Hpaths' Hall]. split; [exact Hpaths'|].
      intros m props Hin Hm Hat Hnoref.
      apply elem_of_cons in Hin as [->|Hin]; [|apply Hall; assumption].
      unfold operation_at in Hat. rewrite Hop0 in Hat. inversion Hat; subst.
      rewrite Hnoref in Href. destruct Href as [? Href]. discriminate. }
    cbv zeta in Hparse.
    set (doc1 := if is_nullish (get "tags" (JObj props0))
                 then set_in ["paths"; pathName; m0; "tags"] (JArr [JStr "default"]) doc
                 else doc) in *.
    assert (Hstep : only_tags_defaulted doc doc1
                    /\ has_paths doc1
                    /\ operation_at doc1 pathName m0 = defaulted props0).
    { unfold doc1, defaulted.
      destruct (is_nullish (get "tags" (JObj props0))) eqn:Hnull.
      - split; [eapply default_tags_step; eauto|].
        destruct (set_in_operation doc pathName m0 props0 default_tags Hpaths Hm0 Hop0)
          as [Hwritten Hpaths1].
        split; [exact Hpaths1|exact Hwritten].
      - split; [apply only_tags_defaulted_refl|]. split; [exact Hpaths|exact Hop0]. }
    destruct Hstep as (Hframe & Hpaths1 & Hwritten).
    match type of Hparse with
    | match ?v with _ => _ end = _ => destruct v as [st1| |] eqn:Hvisit
    end; try discriminate.
    destruct (IH _ _ _ _ Hpaths1 Hparse) as [Hpaths' Hall]. split; [exact Hpaths'|].
    pose proof (ParseMethods_frame pathName ms doc1 st1) as Hrest.
    rewrite Hparse in Hrest. cbn [fst] in Hrest.
    intros m props Hin Hm Hat Hnoref.
    destruct (decide (m = m0)) as [->|Hne].
    + unfold operation_at in Hat. rewrite Hop0 in Hat. inversion Hat; subst props0.
      eapply defaulted_stable; eauto.
    + apply elem_of_cons in Hin as [->|Hin]; [contradiction|].
      destruct (frame_defaulted _ _ pathName m props Hframe Hat)
        as (props1 & Hat1 & Hsame & Href1).
      rewrite <- Hsame. apply Hall; try assumption. congruence.
Qed.

Lemma ParsePathItems_tagged pathNames : forall doc st doc' st',
  has_paths doc ->
  ParsePathItems visitor pathNames doc st = (doc', Ok st') ->
  forall p m props,
    p ∈ pathNames -> is_http_method m = true ->
    operation_at doc p m = JObj props ->
    lookup_key "$ref" props = None ->
    operation_at doc' p m = defaulted props.
Proof.
  induction pathNames as [|p0 ps IH]; intros doc st doc' st' Hpaths Hparse p m props Hin;
    [inversion Hin|].
  cbn [ParsePathItems] in Hparse. cbv zeta in Hparse.
  destruct (is_nullish _); [discriminate|].
  destruct (ParseMethods visitor p0 _ doc st) as [doc1 [st1| |]] eqn:Hmethods;
    try discriminate.
  destruct (ParseMethods_tagged _ _ _ _ _ _ Hpaths Hmethods) as [Hpaths1 Hall].
  pose proof (ParseMethods_frame p0
                (map fst (own_entries (get p0 (get "paths" doc)))) doc st) as Hframe.
  rewrite Hmethods in Hframe. cbn [fst] in Hframe.
  pose proof (ParsePathItems_frame ps doc1 st1) as Hrest.
  rewrite Hparse in Hrest. cbn [fst] in Hrest.
  intros Hm Hat Hnoref.
  destruct (decide (p = p0)) as [->|Hne].
  - eapply defaulted_stable; [exact Hrest|]. apply Hall; try assumption.
    unfold operation_at in Hat.
    destruct (http_method_read m _ _ Hm Hat) as [item Hitem].
    rewrite Hitem in *. cbn [own_entries]. eapply get_key_elem; eauto.
  - apply elem_of_cons in Hin as [->|Hin]; [contradiction|].
    destruct (frame_defaulted _ _ p m props Hframe Hat)
      as (props1 & Hat1 & Hsame & Href1).
    rewrite <- Hsame. eapply IH; eauto. congruence.
Qed.

(** A walk that returns has given every operation object that is not a
    reference its tags. *)
Lemma Parse_tagged doc st doc' st' :
  Parse visitor doc st = (doc', Ok st') ->
  forall p m props,
    is_http_method m = true ->
    operation_at doc p m = JObj props ->
    lookup_key "$ref" props = None ->
    operation_at doc' p m = defaulted props.
Proof.
  unfold Parse. intros Hparse p m props Hm Hat Hnoref.
  destruct (call_hook _ st) as [st0| |]; try (inversion Hparse; fail).
  destruct (is_nullish doc); [discriminate|].
  destruct (ParsePaths visitor doc st0) as [doc1 [st1| |]] eqn:Hpaths;
    try discriminate.
  assert (doc1 = doc') by (inversion Hparse; reflexivity). subst doc1. clear Hparse.
  unfold ParsePaths in Hpaths.
  pose proof Hat as Hread. unfold operation_at in Hread.
  destruct (http_method_read m _ _ Hm Hread) as [item Hitem].
  destruct (get "paths" doc) as [| | | |text|items|paths] eqn:Hp; try discriminate.
  - exfalso. exact (text_read p text item Hitem).
  - cbn [truthy negb own_entries] in Hpaths.
    eapply (ParsePathItems_tagged (map fst paths)); eauto.
    + exists paths. exact Hp.
    + eapply get_key_elem. exact Hitem.
Qed.

End Walk.

Section Build.
Context {host : Host}.
Import Builder.

(** C4, amended.  [Build] writes into the document it is given in one
    way only: an operation object that is not a reference and has no
    tags may get the tags [["default"]].  What can be read outside the
    operations, and every other property of an operation, is as before,
    also for a build that throws; and a document whose operations all
    carry tags is left unchanged.  When the first walk, the one of the
    resource collector, returns, every operation object under a method
    of a path item that is not a reference has its tags at the end: the
    ones it had, or [["default"]]. *)
Theorem Build_document_frame fuel operationParser resourceParser collectorClass
    doc overrides :
  let doc' := fst (Build fuel operationParser resourceParser collectorClass doc overrides) in
  only_tags_defaulted doc doc'
  /\ (all_tagged doc -> doc' = doc)
  /\ (forall resourceCollector,
        snd (Parse Resources.visitor doc Resources.new_ResourceCollector)
        = Ok resourceCollector ->
        forall pathName httpMethod props,
          is_http_method httpMethod = true ->
          operation_at doc pathName httpMethod = JObj props ->
          lookup_key "$ref" props = None ->
          operation_at doc' pathName httpMethod = defaulted props).
Proof.
  simpl. unfold Build.
  pose proof (Parse_frame Resources.visitor doc Resources.new_ResourceCollector) as Hf1.
  pose proof (Parse_unchanged Resources.visitor doc Resources.new_ResourceCollector) as Hu1.
  pose proof (Parse_tagged Resources.visitor doc Resources.new_ResourceCollector) as Ht1.
  destruct (Parse Resources.visitor doc _) as [doc1 [rc| |]]; simpl in *;
    try (split; [exact Hf1|split; [exact Hu1|discriminate]]).
  set (visitor := Operations.visitor fuel operationParser resourceParser collectorClass).
  pose proof (Parse_frame visitor doc1 Operations.new_Collector) as Hf2.
  pose proof (Parse_unchanged visitor doc1 Operations.new_Collector) as Hu2.
  assert (Hdoc : fst (let (apiDocument, r) := Parse visitor doc1 Operations.new_Collector in
                      match r with
                      | Ok operationsCollector =>
                          (apiDocument,
                           operations ← Operations.operations operationsCollector;
                           Ok (UpdateProperties
                                 (Resources.resources resourceParser rc
                                  :: operations ++ Operations.fields operationsCollector)
                                 overrides))
                      | Throw error => (apiDocument, Throw error)
                      | Diverge => (apiDocument, Diverge)
                      end)
                 = fst (Parse visitor doc1 Operations.new_Collector)).
  { destruct (Parse visitor doc1 _) as [doc2 [oc| |]]; reflexivity. }
  rewrite Hdoc. clear Hdoc.
  split; [eapply only_tags_defaulted_trans; eauto|]. split.
  - intros Htagged. specialize (Hu1 Htagged). subst doc1. auto.
  - intros resourceCollector _ pathName httpMethod props Hmethod Hat Hnoref.
    eapply defaulted_stable; [exact Hf2|].
    eapply Ht1; eauto.
Qed.

End Build.

Section Evaluation.
Import Builder.
#[local] Existing Instance sample_host.

Definition list_operation (tags : list (string * json)) : json :=
  JObj (("operationId", JStr "list") :: tags).

Definition entities_doc (operation : json) : json :=
  JObj [("paths", JObj [("/api/entities", JObj [("get", operation)])])].

(** C4, counterexample.  The operation of this document has no tags;
    after the build the operation in the document of the caller has the
    tags [["default"]]. *)
Lemma Build_writes_default_tags :
  fst (Build 3 Operations.OperationParser plain_ResourceParser
         Operations.OperationCollector (entities_doc (list_operation [])) [])
  = entities_doc (list_operation [("tags", JArr [JStr "default"])]).
Proof. vm_compute. reflexivity. Qed.

Lemma tagged_entities_doc :
  all_tagged (entities_doc (list_operation [("tags", JArr [JStr "Entity"])])).
Proof.
  intros pathName httpMethod props _ Hop _.
  unfold operation_at, entities_doc in Hop. simpl in Hop.
  destruct (String.eqb pathName "/api/entities"); simpl in Hop; [|discriminate].
  destruct (String.eqb httpMethod "get"); simpl in Hop; [|discriminate].
  inversion Hop. reflexivity.
Defined.

Lemma Build_document_frame_witness :
  fst (Build 3 Operations.OperationParser plain_ResourceParser
         Operations.OperationCollector
         (entities_doc (list_operation [("tags", JArr [JStr "Entity"])])) [])
  = entities_doc (list_operation [("tags", JArr [JStr "Entity"])])
  /\ operation_at
       (fst (Build 3 Operations.OperationParser plain_ResourceParser
               Operations.OperationCollector (entities_doc (list_operation [])) []))
       "/api/entities" "get"
     = defaulted [("operationId", JStr "list")].
Proof.
  split.
  - apply (proj1 (proj2 (Build_document_frame 3 Operations.OperationParser
                           plain_ResourceParser Operations.OperationCollector
                           (entities_doc (list_operation [("tags", JArr [JStr "Entity"])]))
                           []))).
    exact tagged_entities_doc.
  - apply (proj2 (proj2 (Build_document_frame 3 Operations.OperationParser
                           plain_ResourceParser Operations.OperationCollector
                           (entities_doc (list_operation [])) []))
             {| Resources.tags := [("default", {| Resources.name := "default";
                                                  Resources.description := "" |})];
                Resources.tagsOrder := ∅ |});
      reflexivity.
Defined.

End Evaluation.

End WalkerFacts.

(** ** C2, C8 and C9: the operation collector *)

Module CollectorFacts.
Import Operations.

Lemma map_get_set {V} k k' (v : V) m :
  Resources.map_get k (Resources.map_set k' v m)
  = if String.eqb k k' then Some v else Resources.map_get k m.
Proof.
  induction m as [|[k0 v0] m IH]; simpl.
  - destruct (String.eqb k k'); reflexivity.
  - destruct (String.eqb k' k0) eqn:E0; simpl.
    + apply String.eqb_eq in E0. subst k0. destruct (String.eqb k k'); reflexivity.
    + destruct (String.eqb k k0) eqn:E1.
      * apply String.eqb_eq in E1. subst k0.
        rewrite String.eqb_sym in E0. rewrite E0. reflexivity.
      * exact IH.
Qed.

(** The options registered under a resource. *)
Definition options_of (c : Collector) (resource : string) : list json :=
  default [] (Resources.map_get resource (resourceOptions c)).

(** No option registered under the resource has this value. *)
Definition free (c : Collector) (resource : string) (option : json) : Prop :=
  existsb (has_value (get "value" option)) (options_of c resource) = false.

Definition emitted (operationFields : list json) (operationName : string)
    (resources : list string) : list json :=
  concat (map (fun resource => AddDisplayOption operationFields resource operationName)
              resources).

Section Register.
Context {host : Host}.

Lemma register_ok option operationFields resources : forall c,
  NoDup resources ->
  (forall resource, resource ∈ resources -> free c resource option) ->
  exists c',
    register option operationFields resources c = (c', Ok tt)
    /\ collectedFields c'
       = collectedFields c
         ++ emitted operationFields (to_string (get "name" option)) resources
    /\ (forall resource, resource ∈ resources ->
          options_of c' resource = options_of c resource ++ [option])
    /\ (forall resource, resource ∉ resources ->
          options_of c' resource = options_of c resource)
    /\ logs c' = logs c /\ logContext c' = logContext c.
Proof.
  induction resources as [|r rs IH]; intros c Hnd Hfree.
  - exists c. simpl. rewrite app_nil_r. repeat split; try reflexivity.
    intros resource Hin. inversion Hin.
  - apply NoDup_cons in Hnd as [Hr Hnd].
    pose proof (Hfree r ltac:(left)) as Hfr.
    unfold free, options_of in Hfr.
    simpl. unfold add. rewrite Hfr.
    set (c1 := {| collectedFields := _ |}).
    destruct (IH c1 Hnd) as (c' & Hreg & Hfields & Hin & Hout & Hlogs & Hctx).
    { intros resource Hres. unfold free, options_of, c1. simpl.
      rewrite map_get_set.
      destruct (String.eqb resource r) eqn:E.
      - apply String.eqb_eq in E. subst. contradiction.
      - apply Hfree. right. exact Hres. }
    exists c'. split; [exact Hreg|]. split; [|split; [|split]].
    + rewrite Hfields. unfold c1, emitted. simpl. rewrite <- app_assoc. reflexivity.
    + intros resource Hres. apply elem_of_cons in Hres as [->|Hres].
      * rewrite (Hout r Hr). unfold options_of, c1. simpl.
        rewrite map_get_set, String.eqb_refl. reflexivity.
      * rewrite (Hin resource Hres). unfold options_of, c1. simpl.
        rewrite map_get_set.
        destruct (String.eqb resource r) eqn:E; [|reflexivity].
        apply String.eqb_eq in E. subst. contradiction.
    + intros resource Hres. rewrite Hout by (intros Hx; apply Hres; right; exact Hx).
      unfold options_of, c1. simpl. rewrite map_get_set.
      destruct (String.eqb resource r) eqn:E; [|reflexivity].
      apply String.eqb_eq in E. subst. exfalso. apply Hres. left.
    + exact (conj Hlogs Hctx).
Qed.


Lemma register_inv option operationFields resources : forall c c',
  register option operationFields resources c = (c', Ok tt) ->
  collectedFields c'
  = collectedFields c ++ emitted operationFields (to_string (get "name" option)) resources
  /\ (forall resource, option ∈ options_of c resource -> option ∈ options_of c' resource)
  /\ (forall resource, resource ∈ resources -> option ∈ options_of c' resource).
Proof.
  induction resources as [|r rs IH]; intros c c' Hreg; simpl in Hreg.
  - inversion Hreg; subst. unfold emitted. simpl. rewrite app_nil_r.
    repeat split; auto. intros resource Hin. inversion Hin.
  - unfold add in Hreg. destruct (existsb _ _); [discriminate|].
    set (c1 := {| collectedFields := _ |}) in Hreg.
    destruct (IH c1 c' Hreg) as (Hfields & Hkeep & Hin).
    assert (Hstep : forall resource,
              option ∈ options_of c resource -> option ∈ options_of c1 resource).
    { intros resource Hopt. unfold options_of, c1 in *. simpl.
      rewrite map_get_set. destruct (String.eqb resource r) eqn:E; [|exact Hopt].
      apply String.eqb_eq in E. subst resource. simpl.
      apply elem_of_app. left. exact Hopt. }
    split; [|split].
    + rewrite Hfields. unfold c1, emitted. simpl. rewrite <- app_assoc. reflexivity.
    + intros resource Hopt. apply Hkeep, Hstep, Hopt.
    + intros resource Hres. apply elem_of_cons in Hres as [->|Hres]; [|auto].
      apply Hkeep. unfold options_of, c1. simpl.
      rewrite map_get_set, String.eqb_refl. simpl.
      apply elem_of_app. right. apply list_elem_of_singleton. reflexivity.
Qed.

End Register.

Definition is_object (v : json) : Prop := exists props, v = JObj props.

Definition is_notice (field : json) : bool :=
  match get "type" field with
  | JStr type => String.eqb type "notice"
  | _ => false
  end.

Lemma mapM_Forall {A B} (f : A -> result B) (P : B -> Prop) l : forall ys,
  (forall x y, f x = Ok y -> P y) ->
  mapM f l = Ok ys -> Forall P ys.
Proof.
  induction l as [|x l IH]; simpl; intros ys Hf Hm.
  - inversion Hm. constructor.
  - apply bind_Ok in Hm as (y & Hy & Hm).
    apply bind_Ok in Hm as (ys' & Hys & Hm).
    inversion Hm; subst. constructor; eauto.
Qed.

Section Facts.
Context {host : Host}.

Lemma GetTypeMapping_not_notice schemaType :
  is_notice (JObj [("type", GetTypeMapping schemaType)]) = false.
Proof.
  unfold GetTypeMapping, PROPERTY_TYPE_MAPPING.
  repeat (destruct (String.eqb schemaType _); [reflexivity|]).
  reflexivity.
Qed.

Lemma MapFromSchema_not_notice fuel doc schema config :
  MapFromSchema fuel doc schema = Ok config -> is_notice config = false.
Proof.
  unfold MapFromSchema. intros Hm.
  apply bind_Ok in Hm as (resolved & _ & Hm).
  apply bind_Ok in Hm as (exampleValue & _ & Hm).
  pose proof (GetTypeMapping_not_notice (schema_type resolved)) as Htype.
  destruct (get "enum" resolved) as [| | | |s|items|];
    try (inversion Hm; subst; exact Htype).
  - destruct s; inversion Hm; subst; exact Htype.
  - destruct items; inversion Hm; subst; [exact Htype|reflexivity].
Qed.

Lemma parameter_schema_config_not_notice fuel doc resolved config :
  parameter_schema_config fuel doc resolved = Ok config ->
  is_notice config = false.
Proof.
  unfold parameter_schema_config. intros Hc.
  apply bind_Ok in Hc as (first & Hfirst & Hc).
  assert (Hf : is_notice first = false).
  { destruct (truthy (get "schema" resolved)).
    - eapply MapFromSchema_not_notice; eauto.
    - inversion Hfirst; subst. reflexivity. }
  destruct (negb (truthy first) && truthy (get "content" resolved)).
  - apply bind_Ok in Hc as (content & _ & Hc).
    destruct (IsContentObject content).
    + eapply MapFromSchema_not_notice; eauto.
    + inversion Hc; subst. exact Hf.
  - inversion Hc; subst. exact Hf.
Qed.

Lemma SetParameterRouting_inv field parameter field' k :
  SetParameterRouting field parameter = Ok field' ->
  k <> "routing" -> k <> "required" ->
  lookup_key k field' = lookup_key k field.
Proof.
  unfold SetParameterRouting. intros Hset Hk1 Hk2.
  destruct (get "in" parameter) as [| | | |location| |]; try discriminate.
  destruct (String.eqb location "query");
    [|destruct (String.eqb location "path");
      [|destruct (String.eqb location "header"); [|discriminate]]];
    inversion Hset; subst; apply lookup_set_key_ne; assumption.
Qed.

(** A field mapped from a parameter is an object, and its type is the
    one derived from the schema, never notice. *)
Lemma MapFromParameter_field fuel doc parameter field :
  MapFromParameter fuel doc parameter = Ok field ->
  is_object field /\ is_notice field = false.
Proof.
  unfold MapFromParameter. intros Hm.
  apply bind_Ok in Hm as (resolved & _ & Hm). simpl in Hm.
  destruct (negb (truthy (get "name" resolved))); [discriminate|].
  apply bind_Ok in Hm as (config & Hconfig & Hm).
  destruct (truthy config) eqn:Htruthy; [|discriminate]. simpl in Hm.
  destruct (get "name" resolved) as [| | | |name| |] eqn:Hname; try discriminate.
  apply bind_Ok in Hm as (routed & Hrouted & Hm).
  pose proof (SetParameterRouting_inv _ _ _ "type" Hrouted
                ltac:(discriminate) ltac:(discriminate)) as Htype.
  assert (Hmerged :
    get "type" (JObj (MergeProperties [parameterFieldConfig resolved name; config]))
    = get "type" config).
  { destruct (MapperFacts.parameter_schema_config_shape _ _ _ _ Hconfig Htruthy)
      as (type & default & description & [->|[options ->]]);
      unfold parameterFieldConfig;
      rewrite MapperFacts.get_MergeProperties;
      try discriminate; try reflexivity;
      apply (bool_decide_unpack _); vm_compute; exact I. }
  assert (Hnotice : is_notice (JObj routed) = false).
  { pose proof (parameter_schema_config_not_notice _ _ _ _ Hconfig) as Hn.
    unfold is_notice in *. rewrite <- Hmerged in Hn.
    rewrite !MapperFacts.get_JObj in *. rewrite Htype. exact Hn. }
  destruct (negb _); inversion Hm; subst; (split; [eexists; reflexivity|]).
  - unfold is_notice in *. rewrite !MapperFacts.get_JObj in *.
    rewrite lookup_delete_key_ne by discriminate. exact Hnotice.
  - exact Hnotice.
Qed.

Lemma MapFromParameters_fields fuel doc parameters fields :
  MapFromParameters fuel doc parameters = Ok fields ->
  Forall (fun field => is_object field /\ is_notice field = false) fields.
Proof.
  unfold MapFromParameters. intros Hm.
  destruct (negb (truthy parameters)); [inversion Hm; constructor|].
  destruct parameters; try discriminate.
  eapply mapM_Forall; [|exact Hm]. intros x y. apply MapFromParameter_field.
Qed.

Lemma MapFromRequestBody_objects fuel doc body fields :
  MapFromRequestBody fuel doc body = Ok fields -> Forall is_object fields.
Proof.
  unfold MapFromRequestBody. intros Hm.
  destruct (negb (truthy body)); [inversion Hm; constructor|].
  apply bind_Ok in Hm as (resolvedBody & _ & Hm).
  apply bind_Ok in Hm as (content & _ & Hm).
  destruct (negb (IsContentObject content)); [discriminate|].
  apply bind_Ok in Hm as (schema & _ & Hm).
  destruct (_ && _); [discriminate|].
  apply bind_Ok in Hm as (arrayFields & Harray & Hm).
  apply bind_Ok in Hm as (propertyFields & Hproperty & Hm).
  inversion Hm; subst. clear Hm. apply Forall_app. split.
  - destruct (is_type "array" schema && truthy (get "items" schema)).
    + apply bind_Ok in Harray as (innerSchema & _ & Harray).
      apply bind_Ok in Harray as (keys & _ & Harray).
      inversion Harray; subst. repeat constructor. eexists. reflexivity.
    + inversion Harray. constructor.
  - destruct (truthy (get "properties" schema)); [|inversion Hproperty; constructor].
    eapply mapM_Forall; [|exact Hproperty].
    intros kv field. unfold body_property_field. intros Hf.
    apply bind_Ok in Hf as (keys & _ & Hf).
    apply bind_Ok in Hf as (required & _ & Hf).
    inversion Hf. eexists. reflexivity.
Qed.

End Facts.

Section Collector.
Context {host : Host}.
Variable fuel : nat.
Variable operationParser : IOperationParser.
Variable resourceParser : Resources.IResourceParser.
Variable class : CollectorClass.

(** The parser does not ask to skip the operation. *)
Definition not_skipped (operation : json) (context : IOperationContext) : Prop :=
  match shouldSkip operationParser with
  | Some legacy => legacy operation context
  | None => false
  end = false.

(** The notice the subclass puts before the fields of every operation. *)
Definition banner (context : IOperationContext) : list json :=
  match class with
  | BaseOperationCollector => []
  | OperationCollector => [method_notice context]
  end.

Ltac objects :=
  repeat first
    [ assumption
    | apply Forall_app_2
    | apply Forall_cons_2
    | apply Forall_nil_2
    | (eexists; reflexivity) ].

Lemma get_displayOptions displayOptions field :
  is_object field ->
  get "displayOptions" (set_displayOptions displayOptions field) = displayOptions.
Proof.
  intros [props ->]. simpl. rewrite lookup_set_key_eq. reflexivity.
Qed.

Lemma filter_no_notice fields :
  Forall (fun field => is_object field /\ is_notice field = false) fields ->
  List.filter is_notice fields = [].
Proof.
  induction 1 as [|field fields [_ Hn] _ IH]; simpl; [reflexivity|].
  rewrite Hn. exact IH.
Qed.

(** One visit of an operation whose request body does not map while
    its parameters do: [VisitOperation] returns normally, a warning is
    logged, the option of the operation is registered under each of its
    resources, and the fields emitted for each resource are those of the
    parameters followed by one notice (after the notice of the subclass,
    which every operation has); none of the parameter fields is of type
    notice, so the notice for the body is the only one added. *)
Lemma VisitOperation_body_failure doc operation context c parameterFields error resources :
  not_skipped operation context ->
  MapFromParameters fuel doc (get "parameters" operation) = Ok parameterFields ->
  MapFromRequestBody fuel doc (get "requestBody" operation) = Throw error ->
  target_resources resourceParser operation = Ok resources ->
  NoDup resources ->
  (forall resource, resource ∈ resources ->
     free c resource (operation_option operationParser operation context)) ->
  exists c',
    VisitOperation fuel operationParser resourceParser class doc operation context c
    = Ok c'
    /\ collectedFields c'
       = collectedFields c
         ++ emitted (banner context ++ parameterFields ++ [body_notice context])
              (operation_name operationParser operation context) resources
    /\ (forall resource, resource ∈ resources ->
          options_of c' resource
          = options_of c resource
            ++ [operation_option operationParser operation context])
    /\ List.filter is_notice (parameterFields ++ [body_notice context])
       = [body_notice context]
    /\ logs c'
       = logs c ++ [{| level := warn;
                       data := with_error (contextData operation context) error;
                       message := "Failed to parse request body" |}].
Proof.
  intros Hskip Hparams Hbody Hres Hnd Hfree.
  unfold VisitOperation, VisitOperationInternal.
  unfold not_skipped in Hskip. rewrite Hskip.
  unfold ParseOperation, ParseFields. rewrite Hparams, Hbody. cbv beta iota.
  rewrite Hres. cbv beta iota.
  set (c1 := log warn _ _ _).
  set (operationFields := match class with
                          | BaseOperationCollector => _
                          | OperationCollector => _
                          end).
  destruct (register_ok (operation_option operationParser operation context)
              operationFields resources c1 Hnd)
    as (c' & Hreg & Hfields & Hin & _ & Hlogs & _).
  { intros resource Hresource. exact (Hfree resource Hresource). }
  rewrite Hreg. exists c'. split; [reflexivity|].
  split; [|split; [|split]].
  - rewrite Hfields. unfold operationFields, banner. destruct class; reflexivity.
  - intros resource Hresource. rewrite (Hin resource Hresource). reflexivity.
  - rewrite List.filter_app, (filter_no_notice parameterFields); [reflexivity|].
    eapply MapFromParameters_fields; eauto.
  - rewrite Hlogs. reflexivity.
Qed.

(** C2, amended.  For an operation that [VisitOperationInternal]
    registers, the fields emitted are those of the operation once for
    every target resource, and under every target resource each of them
    carries the condition [show] with that resource and one operation
    entry, the same for all of them; where the parser gives the
    operation a name equal to its value, that entry is the value stored
    in the option registered under the resource.  The option itself
    carries no condition. *)
Theorem emitted_fields_scoped doc operation context c c' :
  not_skipped operation context ->
  VisitOperationInternal fuel operationParser resourceParser class doc operation context c
  = (c', Ok tt) ->
  let option := operation_option operationParser operation context in
  let value := GetValue operationParser operation context in
  exists operationFields resources entry,
    target_resources resourceParser operation = Ok resources
    /\ collectedFields c' = collectedFields c ++ emitted operationFields entry resources
    /\ (forall resource field,
          resource ∈ resources ->
          field ∈ AddDisplayOption operationFields resource entry ->
          get "displayOptions" field = show resource entry)
    /\ (operation_name operationParser operation context = value -> entry = value)
    /\ (forall resource, resource ∈ resources -> option ∈ options_of c' resource)
    /\ get "value" option = JStr value
    /\ get "displayOptions" option = JUndef.
Proof.
  intros Hskip Hvisit option value.
  set (name := operation_name operationParser operation context).
  unfold VisitOperationInternal in Hvisit.
  unfold not_skipped in Hskip. rewrite Hskip in Hvisit.
  unfold ParseOperation, ParseFields in Hvisit.
  destruct (MapFromParameters fuel doc (get "parameters" operation))
    as [parameterFields| |] eqn:Hparams; try discriminate.
  assert (Hobjects : exists c1 operationFields,
    Forall is_object operationFields
    /\ match target_resources resourceParser operation with
       | Ok resources => register option operationFields resources c1
       | Throw error => (c1, Throw error)
       | Diverge => (c1, Diverge)
       end = (c', Ok tt)
    /\ collectedFields c1 = collectedFields c).
  { pose proof (MapFromParameters_fields _ _ _ _ Hparams) as Hpf.
    assert (Hpo : Forall is_object parameterFields).
    { eapply List.Forall_impl; [|exact Hpf]. intros a [Ha _]. exact Ha. }
    destruct (MapFromRequestBody fuel doc (get "requestBody" operation))
      as [bodyFields|error|] eqn:Hbody; try discriminate.
    - pose proof (MapFromRequestBody_objects _ _ _ _ Hbody) as Hbo.
      exists c. eexists. split; [|split; [exact Hvisit|reflexivity]].
      destruct class; objects.
    - eexists. eexists. split; [|split; [exact Hvisit|reflexivity]].
      destruct class; objects. }
  destruct Hobjects as (c1 & operationFields & Hobj & Hreg & Hc1).
  destruct (target_resources resourceParser operation) as [resources| |];
    try discriminate.
  destruct (register_inv _ _ _ _ _ Hreg) as (Hfields & _ & Hin).
  assert (Hshow : forall resource field,
            resource ∈ resources ->
            field ∈ AddDisplayOption operationFields resource name ->
            get "displayOptions" field = show resource name).
  { intros resource field _ Hfield. unfold AddDisplayOption in Hfield.
    apply list_elem_of_fmap in Hfield as (field0 & -> & Hfield0).
    apply get_displayOptions.
    rewrite Forall_forall in Hobj. apply Hobj. exact Hfield0. }
  exists operationFields, resources, name.
  split; [reflexivity|].
  split; [rewrite Hfields, Hc1; reflexivity|].
  split; [exact Hshow|].
  split; [intros Hname; exact Hname|].
  split; [exact Hin|split; reflexivity].
Qed.

(** Where [C8] does hold: an error thrown while the operation is parsed,
    before anything is registered, leaves the fields and the options as
    they were, and a warning with the context of the operation is
    logged. *)
Lemma VisitOperation_parse_error doc operation context c c1 error :
  not_skipped operation context ->
  ParseOperation fuel operationParser class doc operation context
    {| collectedFields := collectedFields c;
       resourceOptions := resourceOptions c;
       logContext := contextData operation context;
       logs := logs c |}
  = (c1, Throw error) ->
  exists c',
    VisitOperation fuel operationParser resourceParser class doc operation context c
    = Ok c'
    /\ collectedFields c' = collectedFields c
    /\ resourceOptions c' = resourceOptions c
    /\ logs c' = logs c ++ [{| level := warn;
                               data := with_error (contextData operation context) error;
                               message := "Failed to parse operation" |}].
Proof.
  intros Hskip Hparse.
  unfold VisitOperation, VisitOperationInternal.
  unfold not_skipped in Hskip. rewrite Hskip, Hparse. cbv beta iota.
  eexists. split; [reflexivity|].
  unfold ParseOperation, ParseFields in Hparse.
  destruct (MapFromParameters fuel doc (get "parameters" operation));
    [destruct (MapFromRequestBody fuel doc (get "requestBody" operation))| |];
    inversion Hparse; subst; repeat split; reflexivity.
Qed.

End Collector.

Section Evaluation.
#[local] Existing Instance sample_host.

Definition get_context (pattern : string) : IOperationContext :=
  {| pattern := pattern; path := JUndef; method := "get" |}.

(** An operation without operationId, with one query parameter and a
    request body whose schema is a string. *)
Definition entities_operation : json :=
  JObj [("parameters",
         JArr [JObj [("name", JStr "all");
                     ("in", JStr "query");
                     ("schema", JObj [("type", JStr "boolean")])]]);
        ("requestBody",
         JObj [("content",
                JObj [("application/json",
                       JObj [("schema", JObj [("type", JStr "string")])])])]);
        ("tags", JArr [JStr "Entity"])].

Definition all_field : json :=
  JObj [("displayName", JStr "all");
        ("name", JStr "all");
        ("description", JUndef);
        ("default", JBool true);
        ("type", JStr "boolean");
        ("routing",
         JObj [("send", JObj [("type", JStr "query");
                              ("property", JStr "all");
                              ("value", JStr "={{ $value }}");
                              ("propertyInDotNotation", JBool false)])])].

Definition entities_option : json :=
  JObj [("name", JStr "GET /api/entities");
        ("value", JStr "GET -api-entities");
        ("action", JStr "GET /api/entities");
        ("description", JStr "");
        ("routing",
         JObj [("request", JObj [("method", JStr "GET");
                                 ("url", JStr "=/api/entities")])])].

(** C2, counterexample.  The option registered for this operation has
    no [displayOptions] at all: conditions are put on the fields only.
    (The operation has no operationId, so the default parser names it
    after its method and path; the condition of the fields then holds
    that name, which is not the value of the option.) *)
Lemma option_carries_no_condition :
  (fun c => (resourceOptions c, map (get "displayOptions") (collectedFields c)))
    <$> VisitOperation 3 OperationParser plain_ResourceParser BaseOperationCollector
          (JObj []) entities_operation (get_context "/api/entities") new_Collector
  = Ok ([("Entity", [entities_option])],
        [show "Entity" "GET /api/entities"; show "Entity" "GET /api/entities"])
  /\ get "displayOptions" entities_option = JUndef.
Proof. split; vm_compute; reflexivity. Qed.

(** An operation with an operationId, which the parser gives the same
    name and value. *)
Definition list_entities : json :=
  JObj [("operationId", JStr "list"); ("tags", JArr [JStr "Entity"])].

Lemma emitted_fields_scoped_witness :
  exists operationFields resources,
    target_resources plain_ResourceParser list_entities = Ok resources
    /\ collectedFields
         (fst (VisitOperationInternal 3 OperationParser plain_ResourceParser
                 OperationCollector (JObj []) list_entities
                 (get_context "/api/entities") new_Collector))
       = collectedFields new_Collector ++ emitted operationFields "list" resources
    /\ (forall resource field,
          resource ∈ resources ->
          field ∈ AddDisplayOption operationFields resource "list" ->
          get "displayOptions" field = show resource "list")
    /\ operation_option OperationParser list_entities (get_context "/api/entities")
       ∈ options_of
           (fst (VisitOperationInternal 3 OperationParser plain_ResourceParser
                   OperationCollector (JObj []) list_entities
                   (get_context "/api/entities") new_Collector))
           "Entity"
    /\ get "value" (operation_option OperationParser list_entities
                      (get_context "/api/entities"))
       = JStr "list".
Proof.
  destruct (emitted_fields_scoped 3 OperationParser plain_ResourceParser
              OperationCollector (JObj []) list_entities
              (get_context "/api/entities") new_Collector
              (fst (VisitOperationInternal 3 OperationParser plain_ResourceParser
                      OperationCollector (JObj []) list_entities
                      (get_context "/api/entities") new_Collector)))
    as (operationFields & resources & entry & Hres & Hfields & Hshow & Hentry
        & Hoption & Hvalue & _).
  - reflexivity.
  - vm_compute. reflexivity.
  - rewrite (Hentry eq_refl) in Hfields, Hshow.
    exists operationFields, resources.
    split; [exact Hres|]. split; [exact Hfields|]. split; [exact Hshow|].
    split; [|exact Hvalue].
    apply Hoption. vm_compute in Hres. inversion Hres.
    apply list_elem_of_singleton. reflexivity.
Defined.

(** C9, the two failures the claim names: a body whose schema is a
    string, and a body without JSON content. *)
Example string_body_throws :
  MapFromRequestBody 3 (JObj []) (get "requestBody" entities_operation)
  = Throw "Request body schema type 'string' not supported".
Proof. vm_compute. reflexivity. Qed.

Example no_json_content_throws :
  MapFromRequestBody 3 (JObj [])
    (JObj [("content", JObj [("text/plain", JObj [("schema", JObj [])])])])
  = Throw no_json_content.
Proof. vm_compute. reflexivity. Qed.

Example VisitOperation_body_failure_entities :
  exists c',
    VisitOperation 3 OperationParser plain_ResourceParser OperationCollector
      (JObj []) entities_operation (get_context "/api/entities") new_Collector
    = Ok c'
    /\ collectedFields c'
       = emitted [method_notice (get_context "/api/entities"); all_field;
                  body_notice (get_context "/api/entities")]
           "GET /api/entities" ["Entity"]
    /\ options_of c' "Entity" = [entities_option]
    /\ List.filter is_notice [all_field; body_notice (get_context "/api/entities")]
       = [body_notice (get_context "/api/entities")].
Proof.
  destruct (VisitOperation_body_failure 3 OperationParser plain_ResourceParser
              OperationCollector (JObj []) entities_operation
              (get_context "/api/entities") new_Collector [all_field]
              "Request body schema type 'string' not supported" ["Entity"])
    as (c' & Hvisit & Hfields & Hoptions & Hnotice & _).
  - reflexivity.
  - vm_compute. reflexivity.
  - vm_compute. reflexivity.
  - vm_compute. reflexivity.
  - apply NoDup_singleton.
  - intros resource _. reflexivity.
  - exists c'. split; [exact Hvisit|]. split; [exact Hfields|].
    split; [|exact Hnotice].
    apply (Hoptions "Entity"). apply list_elem_of_singleton. reflexivity.
Qed.

(** The same operation through [Build]: the build returns; after the two
    selectors come the fields of the operation, the notice for the body
    last. *)
Definition entities_body_doc : json :=
  JObj [("paths", JObj [("/api/entities", JObj [("get", entities_operation)])])].

Example body_failure_build :
  exists properties,
    snd (Builder.Build 3 OperationParser plain_ResourceParser OperationCollector
           entities_body_doc [])
    = Ok properties
    /\ get "options" <$> properties !! 1%nat = Some (JArr [entities_option])
    /\ drop 2 properties
       = emitted [method_notice (get_context "/api/entities"); all_field;
                  body_notice (get_context "/api/entities")]
           "GET /api/entities" ["Entity"].
Proof. eexists. split; [vm_compute; reflexivity|]. split; vm_compute; reflexivity. Qed.

(** *** C8: an error after a registration *)

(** Two operations with the same operationId; the second has the tags A
    and B, the first the tag B. *)
Definition first_list : json :=
  JObj [("operationId", JStr "list"); ("tags", JArr [JStr "B"])].
Definition second_list : json :=
  JObj [("operationId", JStr "list"); ("tags", JArr [JStr "A"; JStr "B"])].

Definition list_option (pattern : string) : json :=
  JObj [("name", JStr "list");
        ("value", JStr "list");
        ("action", JStr "list");
        ("description", JStr "");
        ("routing",
         JObj [("request", JObj [("method", JStr "GET");
                                 ("url", JStr ("=" +:+ pattern))])])].

Definition after_first_list : Collector :=
  {| collectedFields :=
       AddDisplayOption [method_notice (get_context "/first")] "B" "list";
     resourceOptions := [("B", [list_option "/first"])];
     logContext := contextData first_list (get_context "/first");
     logs := [] |}.

(** C8, failing input.  The visit of the second operation registers it
    under A, then throws on the duplicate under B.  The error is caught
    and logged, but the option and the field registered under A stay:
    the state is not the one before the visit. *)
Theorem failed_operation_leaves_registration :
  VisitOperation 3 OperationParser plain_ResourceParser OperationCollector
    (JObj []) first_list (get_context "/first") new_Collector
  = Ok after_first_list
  /\ VisitOperation 3 OperationParser plain_ResourceParser OperationCollector
       (JObj []) second_list (get_context "/second") after_first_list
     = Ok {| collectedFields :=
               collectedFields after_first_list
               ++ AddDisplayOption [method_notice (get_context "/second")] "A" "list";
             resourceOptions :=
               [("B", [list_option "/first"]); ("A", [list_option "/second"])];
             logContext := contextData second_list (get_context "/second");
             logs :=
               [{| level := warn;
                   data :=
                     with_error (contextData second_list (get_context "/second"))
                       (duplicate_operation (JStr "list") "B");
                   message := "Failed to parse operation" |}] |}.
Proof. split; vm_compute; reflexivity. Qed.

End Evaluation.

End CollectorFacts.

(** ** reference-resolver.ts: what a lookup returns *)

Module ResolverFacts.


(** X1.  [FindRef] never hands out a reference: the schema it returns
    has no own key [$ref], however many pointers it had to follow. *)
Theorem FindRef_target_not_reference n doc : forall ref target,
  FindRef n doc ref = Ok target -> has_key "$ref" target = Ok false.
Proof.
  induction n as [|n IH]; intros ref target Hfind; [discriminate|].
  rewrite Cycles.FindRef_S in Hfind. destruct ref; try discriminate.
  apply bind_Ok in Hfind as (schema & Hwalk & Hfind).
  apply bind_Ok in Hfind as (is_ref & Hkey & Hfind).
  destruct is_ref; [exact (IH _ _ Hfind)|].
  inversion Hfind; subst. exact Hkey.
Qed.

Definition has_char (c : ascii) : string -> bool :=
  fix go (s : string) : bool :=
    match s with
    | EmptyString => false
    | String c' rest => Ascii.eqb c' c || go rest
    end.

(** The pointer with these segments: the text [#/a/b/c]. *)
Definition pointer (segments : list string) : string :=
  "#" +:+ String.concat "" (map (fun segment => "/" +:+ segment) segments).

(** [target] is what the reads [document.a.b.c] come to, every value on
    the way being truthy. *)
Inductive reaches : json -> list string -> json -> Prop :=
| reaches_here j : reaches j [] j
| reaches_step j segment segments target :
    is_nullish j = false ->
    truthy (get segment j) = true ->
    reaches (get segment j) segments target ->
    reaches j (segment :: segments) target.

Lemma app_cons c s t : String c s +:+ t = String c (s +:+ t).
Proof. reflexivity. Qed.

Lemma app_empty_r s : s +:+ "" = s.
Proof. induction s as [|c s IH]; [reflexivity|]. rewrite app_cons. f_equal. exact IH. Qed.

Lemma split_on_plain sep s : has_char sep s = false -> split_on sep s = [s].
Proof.
  induction s as [|c s IH]; simpl; [reflexivity|].
  intros Hc. apply orb_false_iff in Hc as [Hc Hs].
  rewrite Hc, IH by exact Hs. reflexivity.
Qed.

Lemma split_on_app sep s t :
  has_char sep s = false ->
  split_on sep (s +:+ String sep t) = s :: split_on sep t.
Proof.
  induction s as [|c s IH]; simpl.
  - intros _. rewrite Ascii.eqb_refl. reflexivity.
  - intros Hc. apply orb_false_iff in Hc as [Hc Hs].
    rewrite Hc, IH by exact Hs. reflexivity.
Qed.

Lemma split_on_segments sep segments : forall s,
  has_char sep s = false ->
  Forall (fun segment => has_char sep segment = false) segments ->
  split_on sep (s +:+ String.concat "" (map (fun segment => String sep segment) segments))
  = s :: segments.
Proof.
  induction segments as [|segment segments IH]; intros s Hs Hall.
  - simpl. rewrite app_empty_r. apply split_on_plain. exact Hs.
  - apply Forall_cons in Hall as [Hsegment Hall].
    assert (Hconcat : String.concat "" (map (fun segment => String sep segment) (segment :: segments))
            = String sep (segment +:+ String.concat "" (map (fun segment => String sep segment) segments))).
    { simpl. destruct (map _ segments) eqn:E; simpl; [|reflexivity].
      rewrite app_empty_r. reflexivity. }
    rewrite Hconcat, split_on_app by exact Hs.
    rewrite IH by assumption. reflexivity.
Qed.

Lemma split_pointer segments :
  Forall (fun segment => has_char "/" segment = false) segments ->
  tail (split_on "/" (pointer segments)) = segments.
Proof.
  intros Hall. unfold pointer.
  change (map (fun segment => "/" +:+ segment) segments)
    with (map (fun segment => String "/" segment) segments).
  rewrite split_on_segments; [reflexivity|reflexivity|exact Hall].
Qed.

Lemma walk_path_reaches r segments : forall j target,
  reaches j segments target -> walk_path r segments j = Ok target.
Proof.
  induction segments as [|segment segments IH]; intros j target Hreach;
    inversion Hreach as [|? ? ? ? Hj Htruthy Hrest]; subst; simpl; [reflexivity|].
  rewrite Hj, Htruthy. apply IH. exact Hrest.
Qed.

Lemma walk_path_missing r before segment after : forall j s,
  is_nullish j = false ->
  reaches j before s ->
  truthy (get segment s) = false ->
  walk_path r (before ++ segment :: after) j = Throw (not_found r).
Proof.
  induction before as [|b before IH]; intros j s Hj Hreach Hmissing;
    inversion Hreach as [|? ? ? ? _ Htruthy Hrest]; subst; simpl.
  - rewrite Hj, Hmissing. reflexivity.
  - rewrite Hj, Htruthy. eapply IH; eauto.
    destruct (get b j); simpl in *; congruence.
Qed.

(** X2.  A pointer [#/s1/.../sn], no segment of which holds a slash, is
    read from the document segment by segment: where every read finds a
    value that is not falsy and the value reached is not a reference,
    [FindRef] returns that value. *)
Theorem FindRef_pointer_lookup n doc segments target :
  Forall (fun segment => has_char "/" segment = false) segments ->
  reaches doc segments target ->
  has_key "$ref" target = Ok false ->
  FindRef (S n) doc (JStr (pointer segments)) = Ok target.
Proof.
  intros Hsegments Hreach Hplain. rewrite Cycles.FindRef_S.
  rewrite split_pointer by exact Hsegments.
  rewrite (walk_path_reaches _ _ _ _ Hreach). simpl.
  rewrite Hplain. reflexivity.
Qed.

(** X3.  Where the segments before it can be read and lead to an
    object in which the next segment is missing, or holds a falsy value,
    [FindRef] throws the error that names the whole pointer, provided
    the segment is not one of the names every object inherits: the read
    of such a name finds the inherited member, which is outside the
    model. *)
Theorem FindRef_missing_segment n doc before segment after props :
  Forall (fun segment => has_char "/" segment = false) (before ++ segment :: after) ->
  is_nullish doc = false ->
  reaches doc before (JObj props) ->
  inherited segment = false ->
  truthy (get segment (JObj props)) = false ->
  FindRef (S n) doc (JStr (pointer (before ++ segment :: after)))
  = Throw (not_found (pointer (before ++ segment :: after))).
Proof.
  intros Hsegments Hdoc Hreach _ Hmissing. rewrite Cycles.FindRef_S.
  rewrite split_pointer by exact Hsegments.
  rewrite (walk_path_missing _ _ _ _ _ _ Hdoc Hreach Hmissing). reflexivity.
Qed.

Lemma lookup_delete_key_eq k props : lookup_key k (delete_key k props) = None.
Proof.
  induction props as [|[k' v'] props IH]; simpl; [reflexivity|].
  destruct (String.eqb k k') eqn:E; [exact IH|]. simpl. rewrite E. exact IH.
Qed.

Lemma has_key_JObj k props :
  has_key k (JObj props) = Ok (bool_decide (is_Some (lookup_key k props))).
Proof. reflexivity. Qed.

Lemma has_key_absent k props : lookup_key k props = None -> has_key k (JObj props) = Ok false.
Proof. intros H. rewrite has_key_JObj, H. reflexivity. Qed.

Lemma has_key_present k props v :
  lookup_key k props = Some v -> has_key k (JObj props) = Ok true.
Proof. intros H. rewrite has_key_JObj, H. reflexivity. Qed.

Lemma Ok_bind {A B} (a : A) (f : A -> result B) : (Ok a ≫= f) = f a.
Proof. reflexivity. Qed.


(** X5.  For a schema without [properties]: of [oneOf], and without
    [oneOf] of [anyOf], [ResolveRef] reads the first alternative only:
    the result is the one for the schema that holds nothing but this
    alternative.  The other alternatives and all sibling keys are lost. *)
Theorem ResolveRef_first_alternative_only n doc props first others :
  lookup_key "properties" props = None ->
  (lookup_key "oneOf" props = Some (JArr (first :: others)) ->
   ResolveRef n doc (JObj props) = ResolveRef n doc (JObj [("oneOf", JArr [first])]))
  /\ (lookup_key "oneOf" props = None ->
      lookup_key "anyOf" props = Some (JArr (first :: others)) ->
      ResolveRef n doc (JObj props) = ResolveRef n doc (JObj [("anyOf", JArr [first])])).
Proof.
  intros Hproperties. destruct n as [|n]; [split; reflexivity|].
  split.
  - intros HoneOf. rewrite !Cycles.ResolveRef_S.
    rewrite (has_key_absent _ _ Hproperties), (has_key_present _ _ _ HoneOf).
    rewrite (has_key_absent "properties" [("oneOf", JArr [first])]) by reflexivity.
    rewrite (has_key_present "oneOf" [("oneOf", JArr [first])] (JArr [first])) by reflexivity.
    rewrite !Ok_bind. cbv beta iota.
    rewrite !MapperFacts.get_JObj, HoneOf. reflexivity.
  - intros HoneOf HanyOf. rewrite !Cycles.ResolveRef_S.
    rewrite (has_key_absent _ _ Hproperties).
    rewrite (has_key_absent "properties" [("anyOf", JArr [first])]) by reflexivity.
    rewrite !Ok_bind. cbv beta iota.
    rewrite (has_key_absent _ _ HoneOf).
    rewrite (has_key_absent "oneOf" [("anyOf", JArr [first])]) by reflexivity.
    rewrite !Ok_bind. cbv beta iota. rewrite ?Ok_bind.
    rewrite (has_key_present _ _ _ HanyOf).
    rewrite (has_key_present "anyOf" [("anyOf", JArr [first])] (JArr [first])) by reflexivity.
    rewrite !Ok_bind. cbv beta iota.
    rewrite !MapperFacts.get_JObj, HanyOf. reflexivity.
Qed.

(** A document with a schema that is a pointer to another one. *)
Definition text_schema : list (string * json) :=
  [("type", JStr "string"); ("description", JStr "a text")].

Definition alias_doc : json :=
  Cycles.schemas_doc [("Text", JObj text_schema); ("Alias", Cycles.ref_to "Text")].

Lemma FindRef_target_not_reference_witness :
  has_key "$ref" (JObj text_schema) = Ok false.
Proof.
  apply (FindRef_target_not_reference 3 alias_doc (JStr "#/components/schemas/Alias")).
  reflexivity.
Defined.

Lemma FindRef_pointer_lookup_witness :
  FindRef 1 alias_doc (JStr (pointer ["components"; "schemas"; "Text"]))
  = Ok (JObj text_schema).
Proof.
  apply FindRef_pointer_lookup.
  - repeat constructor.
  - repeat (apply reaches_step; [reflexivity|reflexivity|]). apply reaches_here.
  - reflexivity.
Defined.

Lemma FindRef_missing_segment_witness :
  FindRef 1 alias_doc (JStr (pointer (["components"; "schemas"] ++ "Number" :: ["type"])))
  = Throw (not_found (pointer (["components"; "schemas"] ++ "Number" :: ["type"]))).
Proof.
  apply (FindRef_missing_segment 0 alias_doc ["components"; "schemas"] "Number" ["type"]
           [("Text", JObj text_schema); ("Alias", Cycles.ref_to "Text")]).
  - repeat constructor.
  - reflexivity.
  - repeat (apply reaches_step; [reflexivity|reflexivity|]). apply reaches_here.
  - reflexivity.
  - reflexivity.
Defined.



Definition either (keyword : string) : list (string * json) :=
  [("description", JStr "either");
   (keyword, JArr [Cycles.ref_to "Text"; JObj [("type", JStr "number")]])].

Lemma ResolveRef_first_alternative_only_witness :
  ResolveRef 2 alias_doc (JObj (either "oneOf"))
  = ResolveRef 2 alias_doc (JObj [("oneOf", JArr [Cycles.ref_to "Text"])])
  /\ ResolveRef 2 alias_doc (JObj (either "anyOf"))
     = ResolveRef 2 alias_doc (JObj [("anyOf", JArr [Cycles.ref_to "Text"])]).
Proof.
  split.
  - apply (proj1 (ResolveRef_first_alternative_only 2 alias_doc (either "oneOf")
                    (Cycles.ref_to "Text") [JObj [("type", JStr "number")]] eq_refl)).
    reflexivity.
  - apply (proj2 (ResolveRef_first_alternative_only 2 alias_doc (either "anyOf")
                    (Cycles.ref_to "Text") [JObj [("type", JStr "number")]] eq_refl));
      reflexivity.
Defined.

End ResolverFacts.

Import ResolverFacts.

(** ** schema-example.ts: where an example comes from *)

Module ExampleFacts.
Import Cycles.

Section Builder.
Variable resolver : json -> result (json * Refs).

(** X6.  For a resolved schema without [oneOf] and [allOf] whose chain
    of pointers is new, [build] returns the [example] when it is
    defined, whatever else the schema holds, and otherwise the [default]
    when that is defined. *)
Theorem build_example_before_default n v s props refs w :
  resolver s = Ok (JObj props, refs) ->
  guard refs v = inr w ->
  lookup_key "oneOf" props = None ->
  lookup_key "allOf" props = None ->
  (forall example,
     lookup_key "example" props = Some example -> is_undefined example = false ->
     build resolver (S n) v s = Ok (example, w))
  /\ (forall value,
        is_undefined (get "example" (JObj props)) = true ->
        lookup_key "default" props = Some value -> is_undefined value = false ->
        build resolver (S n) v s = Ok (value, w)).
Proof.
  intros Hres Hguard HoneOf HallOf.
  split.
  - intros example Hexample Hdefined.
    rewrite build_S, Hres, Ok_bind. cbv beta iota. rewrite Hguard.
    rewrite (has_key_absent _ _ HoneOf), Ok_bind. cbv beta iota.
    rewrite (has_key_absent _ _ HallOf), Ok_bind. cbv beta iota.
    rewrite (has_key_present _ _ _ Hexample), Ok_bind. cbv beta.
    rewrite (MapperFacts.get_JObj "example"), Hexample. simpl default. rewrite Hdefined.
    reflexivity.
  - intros value Hexample Hdefault Hdefined.
    rewrite build_S, Hres, Ok_bind. cbv beta iota. rewrite Hguard.
    rewrite (has_key_absent _ _ HoneOf), Ok_bind. cbv beta iota.
    rewrite (has_key_absent _ _ HallOf), Ok_bind. cbv beta iota.
    rewrite (has_key_JObj "example"), Ok_bind. cbv beta.
    rewrite Hexample. change (negb true) with false. rewrite andb_false_r. cbv iota.
    rewrite (has_key_present _ _ _ Hdefault), Ok_bind. cbv beta.
    rewrite (MapperFacts.get_JObj "default"), Hdefault. simpl default. rewrite Hdefined.
    reflexivity.
Qed.

Lemma visit_refs_repeated refs : forall v,
  ~ NoDup refs -> exists w, visit_refs refs v = inl w.
Proof.
  induction refs as [|ref refs IH]; intros v Hdup.
  - exfalso. apply Hdup. constructor.
  - simpl. case_bool_decide as Hseen; [eauto|].
    destruct (decide (ref ∈ refs)) as [Hin|Hnotin].
    + destruct (visit_refs_seen refs ({[ref]} ∪ v) ref Hin) as (w & Hw & _).
      { apply elem_of_union_l, elem_of_singleton. reflexivity. }
      eauto.
    + apply IH. intros Hnd. apply Hdup. constructor; assumption.
Qed.

(** X7.  A chain of pointers in which an entry occurs twice makes
    [build] return the empty object.  The chain of an [allOf] has the
    entry [undefined] for each member that is not a reference, so two
    such members are enough. *)
Theorem build_repeated_chain_empty n v s resolved refs :
  resolver s = Ok (resolved, Some refs) ->
  ~ NoDup refs ->
  exists w, build resolver (S n) v s = Ok (JObj [], w).
Proof.
  intros Hres Hdup.
  destruct (visit_refs_repeated refs v Hdup) as [w Hw].
  exists w. rewrite build_S, Hres, Ok_bind. cbv beta iota.
  simpl guard. rewrite Hw. reflexivity.
Qed.









End Builder.

(** A schema with an example, a default and properties, and the same
    without the example. *)
Definition greeting_properties : list (string * json) :=
  [("text", JObj [("type", JStr "string"); ("example", JStr "hi")]);
   ("count", JObj [("type", JStr "integer")])].

Definition greeting (example : list (string * json)) : list (string * json) :=
  example ++ [("default", JStr "by default"); ("properties", JObj greeting_properties)].

Lemma build_example_before_default_witness :
  build (ResolveRef 1 (JObj [])) 1 ∅ (JObj (greeting [("example", JStr "an example")]))
  = Ok (JStr "an example", ∅)
  /\ build (ResolveRef 1 (JObj [])) 1 ∅ (JObj (greeting [])) = Ok (JStr "by default", ∅).
Proof.
  split.
  - apply (proj1 (build_example_before_default (ResolveRef 1 (JObj [])) 0 ∅
                    (JObj (greeting [("example", JStr "an example")]))
                    (greeting [("example", JStr "an example")]) None ∅
                    eq_refl eq_refl eq_refl eq_refl)); reflexivity.
  - apply (proj2 (build_example_before_default (ResolveRef 1 (JObj [])) 0 ∅
                    (JObj (greeting [])) (greeting []) None ∅
                    eq_refl eq_refl eq_refl eq_refl)); reflexivity.
Defined.

(** Two members that are not pointers, each with an example. *)
Definition two_inline_members : json :=
  JObj [("allOf", JArr [JObj [("example", JObj [("a", JNum 1)])];
                        JObj [("example", JObj [("b", JNum 2)])]])].

Lemma build_repeated_chain_empty_witness :
  exists w, build (ResolveRef 2 (JObj [])) 1 ∅ two_inline_members = Ok (JObj [], w).
Proof.
  apply (build_repeated_chain_empty (ResolveRef 2 (JObj [])) 0 ∅ two_inline_members
           (JObj [("example", JObj [("b", JNum 2)])]) [None; None]).
  - reflexivity.
  - intros Hnd. apply NoDup_cons in Hnd as [Hnotin _]. apply Hnotin. left.
Defined.




End ExampleFacts.

(** ** schema-to-properties.ts: the fields of parameters and bodies *)

Module FieldFacts.
Import MapperFacts.

(** The first of the objects that defines the key gives the value. *)
Definition first_defined (k : string) (objects : list (list (string * json))) : json :=
  fold_right
    (fun props later =>
       if is_undefined (get k (JObj props)) then later else get k (JObj props))
    JUndef objects.

Lemma first_defined_two k first second :
  first_defined k [first; second]
  = if is_undefined (get k (JObj first))
    then (if is_undefined (get k (JObj second)) then JUndef else get k (JObj second))
    else get k (JObj first).
Proof. reflexivity. Qed.

Lemma get_defaults_fold k objects : forall target,
  Forall (fun props => NoDup (map fst props)) objects ->
  get k (JObj (fold_left defaults_source (map JObj objects) target))
  = if is_undefined (get k (JObj target)) then first_defined k objects
    else get k (JObj target).
Proof.
  induction objects as [|props objects IH]; intros target Hall.
  - simpl. destruct (is_undefined _) eqn:E; [|reflexivity].
    destruct (default JUndef (lookup_key k target)); try discriminate. reflexivity.
  - apply Forall_cons in Hall as [Hprops Hall].
    change (fold_left defaults_source (map JObj (props :: objects)) target)
      with (fold_left defaults_source (map JObj objects)
              (defaults_source target (JObj props))).
    change (first_defined k (props :: objects))
      with (if is_undefined (get k (JObj props)) then first_defined k objects
            else get k (JObj props)).
    rewrite IH by exact Hall.
    rewrite get_defaults_source by exact Hprops.
    change (default JUndef (lookup_key k (own_entries (JObj props))))
      with (get k (JObj props)).
    destruct (is_undefined (get k (JObj target))) eqn:E; [reflexivity|].
    rewrite E. reflexivity.
Qed.

Lemma get_delete_key k k' props :
  get k (JObj (delete_key k' props))
  = if String.eqb k k' then JUndef else get k (JObj props).
Proof.
  rewrite !get_JObj. destruct (String.eqb k k') eqn:E.
  - apply String.eqb_eq in E. subst. rewrite lookup_delete_key_eq. reflexivity.
  - rewrite lookup_delete_key_ne; [reflexivity|].
    intros ->. rewrite String.eqb_refl in E. discriminate.
Qed.

Lemma get_MergeProperties_all k objects :
  Forall (fun props => NoDup (map fst props)) objects ->
  get k (JObj (MergeProperties (map JObj objects)))
  = if String.eqb k "required" && negb (truthy (first_defined k objects))
    then JUndef else first_defined k objects.
Proof.
  intros Hall.
  assert (Hmerged : forall k',
    get k' (JObj (lodash_defaults (map JObj objects))) = first_defined k' objects).
  { intros k'. unfold lodash_defaults. rewrite get_defaults_fold by exact Hall.
    reflexivity. }
  unfold MergeProperties.
  pose proof (Hmerged "required") as Hrequired. rewrite get_JObj in Hrequired.
  rewrite Hrequired. clear Hrequired.
  destruct (String.eqb k "required") eqn:E.
  - apply String.eqb_eq in E. subst k.
    destruct (truthy (first_defined "required" objects)); cbn [negb andb]; cbv iota.
    + apply Hmerged.
    + rewrite get_delete_key. reflexivity.
  - cbn [andb]. cbv iota.
    destruct (negb (truthy (first_defined "required" objects))); [|apply Hmerged].
    rewrite get_delete_key, E. apply Hmerged.
Qed.

(** X9.  [MergeProperties] gives a key the value of the first source
    that defines it; [required] is dropped unless that value is
    truthy. *)
Theorem MergeProperties_first_defined objects k :
  Forall (fun props => NoDup (map fst props)) objects ->
  (k <> "required" ->
   get k (JObj (MergeProperties (map JObj objects))) = first_defined k objects)
  /\ get "required" (JObj (MergeProperties (map JObj objects)))
     = (if truthy (first_defined "required" objects)
        then first_defined "required" objects else JUndef).
Proof.
  intros Hall. split.
  - intros Hk. rewrite get_MergeProperties_all by exact Hall.
    destruct (String.eqb k "required") eqn:E; [|reflexivity].
    apply String.eqb_eq in E. contradiction.
  - rewrite get_MergeProperties_all by exact Hall.
    rewrite String.eqb_refl. cbn [andb].
    destruct (truthy _); reflexivity.
Qed.

Lemma set_key_keys k v props :
  map fst (set_key k v props) = map fst props
  \/ ((k ∉ map fst props) /\ map fst (set_key k v props) = map fst props ++ [k]).
Proof.
  induction props as [|[k' v'] props IH]; simpl.
  - right. split; [apply not_elem_of_nil|reflexivity].
  - destruct (String.eqb k k') eqn:E.
    + apply String.eqb_eq in E. subst. left. reflexivity.
    + apply String.eqb_neq in E. simpl.
      destruct IH as [IH|[Hnotin IH]]; rewrite IH; [left; reflexivity|].
      right. split; [|reflexivity].
      intros Hin. apply elem_of_cons in Hin as [Hin|Hin]; contradiction.
Qed.

Lemma set_key_distinct k v props :
  NoDup (map fst props) -> NoDup (map fst (set_key k v props)).
Proof.
  intros Hnd. destruct (set_key_keys k v props) as [->|[Hnotin ->]]; [exact Hnd|].
  apply NoDup_app. split; [exact Hnd|]. split.
  - intros x Hx Hin. apply list_elem_of_singleton in Hin. subst. contradiction.
  - apply NoDup_singleton.
Qed.

Lemma delete_key_distinct k props :
  NoDup (map fst props) -> NoDup (map fst (delete_key k props)).
Proof.
  induction props as [|[k' v'] props IH]; simpl; intros Hnd; [constructor|].
  apply NoDup_cons in Hnd as [Hnotin Hnd].
  destruct (String.eqb k k'); [exact (IH Hnd)|].
  simpl. apply NoDup_cons. split; [|exact (IH Hnd)].
  intros Hin. apply Hnotin. clear -Hin.
  induction props as [|[k0 v0] props IH]; simpl in *; [inversion Hin|].
  destruct (String.eqb k k0); [right; exact (IH Hin)|].
  simpl in Hin. apply elem_of_cons in Hin as [->|Hin]; [left|right; exact (IH Hin)].
Qed.

Lemma MergeProperties_distinct sources :
  NoDup (map fst (MergeProperties sources)).
Proof.
  assert (Hdefaults : NoDup (map fst (lodash_defaults sources))).
  { unfold lodash_defaults.
    assert (Hnil : NoDup (map fst (@nil (string * json)))) by constructor.
    revert Hnil. generalize (@nil (string * json)).
    induction sources as [|source sources IH]; intros target Hnd; [exact Hnd|].
    simpl. apply IH. unfold defaults_source.
    revert target Hnd. generalize (own_entries source).
    induction l as [|kv l IHl]; intros target Hnd; [exact Hnd|].
    simpl. apply IHl. destruct (is_undefined _); [|exact Hnd].
    apply set_key_distinct. exact Hnd. }
  unfold MergeProperties. destruct (negb _); [|exact Hdefaults].
  apply delete_key_distinct. exact Hdefaults.
Qed.

Section Facts.
Context {host : Host}.

Definition n8n_types : list json :=
  [JStr "boolean"; JStr "string"; JStr "json"; JStr "number"; JStr "options"].

Lemma GetTypeMapping_types schemaType : GetTypeMapping schemaType ∈ n8n_types.
Proof.
  unfold GetTypeMapping, PROPERTY_TYPE_MAPPING, n8n_types.
  repeat (destruct (String.eqb schemaType _);
          [apply list_elem_of_In; simpl; tauto|]).
  apply list_elem_of_In; simpl; tauto.
Qed.

(** X10.  The type of a field mapped from a schema is one of the five
    types boolean, string, json, number and options, also where the
    type of the schema is none of the six the table knows, provided it
    is not one of the names every object inherits: for those the table
    of the source answers with the inherited member. *)
Theorem MapFromSchema_type fuel doc schema resolved field :
  Resolve fuel doc schema = Ok resolved ->
  inherited (schema_type resolved) = false ->
  MapFromSchema fuel doc schema = Ok field -> get "type" field ∈ n8n_types.
Proof.
  unfold MapFromSchema. intros Hres _ Hm. rewrite Hres in Hm.
  apply bind_Ok in Hm as (resolved' & Hsame & Hm).
  inversion Hsame; subst resolved'. clear Hsame.
  apply bind_Ok in Hm as (exampleValue & _ & Hm).
  pose proof (GetTypeMapping_types (schema_type resolved)) as Htype.
  destruct (get "enum" resolved) as [| | | |s|items|];
    try (inversion Hm; subst; exact Htype).
  - destruct s; inversion Hm; subst; exact Htype.
  - destruct items; inversion Hm; subst; [exact Htype|].
    apply list_elem_of_In; simpl; tauto.
Qed.

Lemma field_default_scalar exampleValue resolved :
  typeof_object (field_default exampleValue resolved) = false.
Proof.
  unfold field_default.
  set (defaultValue := if negb (is_undefined exampleValue) then exampleValue
                       else GetDefaultValue resolved).
  destruct (typeof_object defaultValue) eqn:E; [reflexivity|exact E].
Qed.

(** X11.  The default of a mapped field is an object, an array or null
    only when it is the first value of the [enum] of the schema: an
    example or a default of the schema that is an object is stored as
    JSON text. *)
Theorem MapFromSchema_default_scalar fuel doc schema resolved field :
  Resolve fuel doc schema = Ok resolved ->
  MapFromSchema fuel doc schema = Ok field ->
  typeof_object (get "default" field) = true ->
  exists first others,
    get "enum" resolved = JArr (first :: others) /\ get "default" field = first.
Proof.
  unfold MapFromSchema. intros Hres Hm Hobject.
  rewrite Hres, Ok_bind in Hm.
  apply bind_Ok in Hm as (exampleValue & _ & Hm).
  pose proof (field_default_scalar exampleValue resolved) as Hscalar.
  destruct (get "enum" resolved) as [| | | |s|items|];
    try (inversion Hm; subst; simpl in Hobject; congruence).
  - destruct s; inversion Hm; subst; simpl in Hobject; congruence.
  - destruct items as [|first others]; inversion Hm; subst;
      [simpl in Hobject; congruence|].
    exists first, others. split; [reflexivity|].
    simpl in Hobject |- *. unfold or_else in *.
    destruct (truthy (field_default exampleValue resolved)); [congruence|reflexivity].
Qed.

(** What the schema of a parameter maps to: an object with distinct
    keys, none of them one the parameter itself gives. *)
Lemma parameter_schema_config_keys fuel doc resolved config :
  parameter_schema_config fuel doc resolved = Ok config ->
  truthy config = true ->
  exists props,
    config = JObj props /\ NoDup (map fst props)
    /\ lookup_key "required" props = None
    /\ lookup_key "name" props = None
    /\ lookup_key "displayName" props = None
    /\ lookup_key "routing" props = None.
Proof.
  intros Hconfig Htruthy.
  destruct (parameter_schema_config_shape _ _ _ _ Hconfig Htruthy)
    as (type & default & description & [->|[options ->]]);
    eexists; (split; [reflexivity|]); (split; [|repeat split; reflexivity]);
    apply (bool_decide_unpack _); vm_compute; exact I.
Qed.

Definition parameter_fields (resolved : json) (name : string) : list (string * json) :=
  [("displayName", JStr (startCase (JStr name)));
   ("name", JStr (encodeURIComponent (replace_dots name)));
   ("required", get "required" resolved);
   ("description", get "description" resolved);
   ("default", get "example" resolved)].

(** The last steps of [MapFromParameter], for a parameter with a name
    and a schema that maps. *)
Lemma MapFromParameter_steps fuel doc parameter resolved name props :
  Resolve fuel doc parameter = Ok resolved ->
  get "name" resolved = JStr name ->
  name <> "" ->
  parameter_schema_config fuel doc resolved = Ok (JObj props) ->
  MapFromParameter fuel doc parameter
  = (field ← SetParameterRouting
               (MergeProperties (map JObj [parameter_fields resolved name; props]))
               resolved;
     if negb (truthy (default JUndef (lookup_key "required" field)))
     then Ok (JObj (delete_key "required" field)) else Ok (JObj field)).
Proof.
  intros Hres Hname Hnonempty Hconfig.
  unfold MapFromParameter. rewrite Hres, Ok_bind, Hname, Hconfig, Ok_bind.
  assert (Htruthy : truthy (JStr name) = true).
  { simpl. destruct name; [contradiction|reflexivity]. }
  rewrite Htruthy. reflexivity.
Qed.

Lemma merged_required resolved name props :
  NoDup (map fst props) -> lookup_key "required" props = None ->
  get "required" (JObj (MergeProperties (map JObj [parameter_fields resolved name; props])))
  = if truthy (get "required" resolved) then get "required" resolved else JUndef.
Proof.
  intros Hdistinct Hrequired.
  rewrite get_MergeProperties_all.
  - assert (Hfirst : first_defined "required" [parameter_fields resolved name; props]
                     = get "required" resolved).
    { rewrite first_defined_two.
      rewrite (get_JObj "required" props), Hrequired.
      change (get "required" (JObj (parameter_fields resolved name)))
        with (get "required" resolved).
      destruct (get "required" resolved); reflexivity. }
    rewrite Hfirst, String.eqb_refl. cbn [andb].
    destruct (truthy _); reflexivity.
  - apply Forall_cons. split; [apply (bool_decide_unpack _); vm_compute; exact I|].
    apply Forall_cons. split; [exact Hdistinct|constructor].
Qed.

(** X12.  A path parameter is always required, also when it says it is
    not; a query or header parameter is required when its [required] is
    truthy, and otherwise the field has no [required]. *)
Theorem MapFromParameter_required fuel doc parameter resolved name config :
  Resolve fuel doc parameter = Ok resolved ->
  get "name" resolved = JStr name ->
  name <> "" ->
  parameter_schema_config fuel doc resolved = Ok config ->
  truthy config = true ->
  (get "in" resolved = JStr "path" ->
   exists field,
     MapFromParameter fuel doc parameter = Ok field
     /\ get "required" field = JBool true)
  /\ (get "in" resolved = JStr "query" \/ get "in" resolved = JStr "header" ->
      exists field,
        MapFromParameter fuel doc parameter = Ok field
        /\ get "required" field
           = if truthy (get "required" resolved) then get "required" resolved
             else JUndef).
Proof.
  intros Hres Hname Hnonempty Hconfig Htruthy.
  destruct (parameter_schema_config_keys _ _ _ _ Hconfig Htruthy)
    as (props & -> & Hdistinct & Hrequired & _).
  rewrite (MapFromParameter_steps _ _ _ _ _ _ Hres Hname Hnonempty Hconfig).
  pose proof (merged_required resolved name props Hdistinct Hrequired) as Hmerged.
  set (merged := MergeProperties _) in *.
  split.
  - intros Hin. unfold SetParameterRouting. rewrite Hin. simpl String.eqb. cbv iota.
    rewrite Ok_bind, lookup_set_key_eq. simpl. eexists. split; [reflexivity|].
    rewrite get_JObj, lookup_set_key_eq. reflexivity.
  - intros Hin.
    assert (Hrouted : exists routed,
      SetParameterRouting merged resolved = Ok routed
      /\ lookup_key "required" routed = lookup_key "required" merged).
    { unfold SetParameterRouting.
      destruct Hin as [Hin|Hin]; rewrite Hin; simpl String.eqb; cbv iota;
        eexists; (split; [reflexivity|]); apply lookup_set_key_ne; discriminate. }
    destruct Hrouted as (routed & -> & Hsame). rewrite Ok_bind, Hsame.
    rewrite get_JObj in Hmerged.
    destruct (truthy (default JUndef (lookup_key "required" merged))) eqn:Hkept;
      simpl; eexists; (split; [reflexivity|]).
    + rewrite get_JObj, Hsame, Hmerged.
      destruct (truthy (get "required" resolved)) eqn:Ht; [reflexivity|].
      rewrite Hmerged in Hkept. discriminate.
    + rewrite get_delete_key. simpl.
      destruct (truthy (get "required" resolved)) eqn:Ht; [|reflexivity].
      rewrite Hmerged, Ht in Hkept. discriminate.
Qed.

Lemma merged_plain k resolved name props :
  NoDup (map fst props) -> k <> "required" ->
  get k (JObj (MergeProperties (map JObj [parameter_fields resolved name; props])))
  = if is_undefined (get k (JObj (parameter_fields resolved name)))
    then get k (JObj props) else get k (JObj (parameter_fields resolved name)).
Proof.
  intros Hdistinct Hk. rewrite get_MergeProperties_all.
  - replace (String.eqb k "required") with false.
    + cbn [andb]. cbv iota. rewrite first_defined_two.
      destruct (is_undefined (get k (JObj (parameter_fields resolved name))));
        [|reflexivity].
      destruct (get k (JObj props)); reflexivity.
    + symmetry. apply String.eqb_neq. exact Hk.
  - apply Forall_cons. split; [apply (bool_decide_unpack _); vm_compute; exact I|].
    apply Forall_cons. split; [exact Hdistinct|constructor].
Qed.

(** What is read from the field [MapFromParameter] answers with, for a
    key other than [required], is read from the field its routing was
    set in. *)
Lemma get_unless_required k routed :
  k <> "required" ->
  forall field,
    (if negb (truthy (default JUndef (lookup_key "required" routed)))
     then Ok (JObj (delete_key "required" routed)) else Ok (JObj routed)) = Ok field ->
    get k field = get k (JObj routed).
Proof.
  intros Hk field Hfield.
  destruct (negb _); inversion Hfield; subst; [|reflexivity].
  rewrite get_delete_key.
  replace (String.eqb k "required") with false; [reflexivity|].
  symmetry. apply String.eqb_neq. exact Hk.
Qed.

Lemma final_field routed :
  exists field,
    (if negb (truthy (default JUndef (lookup_key "required" routed)))
     then Ok (JObj (delete_key "required" routed)) else Ok (JObj routed))
    = @Ok json field.
Proof. destruct (negb _); eauto. Qed.

Definition query_routing (name : string) : json :=
  JObj [("send", JObj [("type", JStr "query");
                       ("property", JStr name);
                       ("value", JStr value_expression);
                       ("propertyInDotNotation", JBool false)])].

Definition header_routing (name : string) : json :=
  JObj [("request", JObj [("headers", JObj [(name, JStr value_expression)])])].

(** X13.  The field of a parameter: the display name is the start-cased
    name; the name has its dots replaced by dashes and is URI-encoded;
    the routing sends a query parameter under the name as it was
    declared and a header under its name, and a path parameter has no
    routing. *)
Theorem MapFromParameter_name_and_routing fuel doc parameter resolved name config :
  Resolve fuel doc parameter = Ok resolved ->
  get "name" resolved = JStr name ->
  name <> "" ->
  parameter_schema_config fuel doc resolved = Ok config ->
  truthy config = true ->
  known_location resolved ->
  exists field,
    MapFromParameter fuel doc parameter = Ok field
    /\ get "displayName" field = JStr (startCase (JStr name))
    /\ get "name" field = JStr (encodeURIComponent (replace_dots name))
    /\ get "routing" field
       = match get "in" resolved with
         | JStr "query" => query_routing name
         | JStr "header" => header_routing name
         | _ => JUndef
         end.
Proof.
  intros Hres Hname Hnonempty Hconfig Htruthy Hlocation.
  destruct (parameter_schema_config_keys _ _ _ _ Hconfig Htruthy)
    as (props & -> & Hdistinct & _ & Hno_name & Hno_display & Hno_routing).
  rewrite (MapFromParameter_steps _ _ _ _ _ _ Hres Hname Hnonempty Hconfig).
  pose proof (merged_plain "displayName" resolved name props Hdistinct
                ltac:(discriminate)) as Hdisplay.
  pose proof (merged_plain "name" resolved name props Hdistinct
                ltac:(discriminate)) as Hfield_name.
  pose proof (merged_plain "routing" resolved name props Hdistinct
                ltac:(discriminate)) as Hrouting.
  rewrite (get_JObj "routing" props), Hno_routing in Hrouting.
  change (get "routing" (JObj (parameter_fields resolved name))) with JUndef in Hrouting.
  change (get "displayName" (JObj (parameter_fields resolved name)))
    with (JStr (startCase (JStr name))) in Hdisplay.
  change (get "name" (JObj (parameter_fields resolved name)))
    with (JStr (encodeURIComponent (replace_dots name))) in Hfield_name.
  cbn [is_undefined] in Hdisplay, Hfield_name, Hrouting.
  set (merged := MergeProperties _) in *.
  rewrite !get_JObj in Hdisplay, Hfield_name, Hrouting.
  unfold SetParameterRouting. rewrite Hname.
  destruct Hlocation as [Hin|[Hin|Hin]]; rewrite Hin; simpl String.eqb; cbv iota;
    rewrite Ok_bind;
    match goal with
    | |- context [lookup_key "required" ?routed] =>
        destruct (final_field routed) as [field Hfield];
        exists field; (split; [exact Hfield|]);
        rewrite (get_unless_required "displayName" routed ltac:(discriminate) _ Hfield),
          (get_unless_required "name" routed ltac:(discriminate) _ Hfield),
          (get_unless_required "routing" routed ltac:(discriminate) _ Hfield)
    end;
    rewrite !get_JObj, !lookup_set_key; simpl String.eqb; cbv iota;
    rewrite ?Hdisplay, ?Hfield_name, ?Hrouting; auto.
Qed.

(** X14.  What [MapFromParameter] refuses: a parameter without a name,
    one with neither schema nor content, and one whose location is not
    query, path or header, each with its own error. *)
Theorem MapFromParameter_refusals fuel doc parameter resolved :
  Resolve fuel doc parameter = Ok resolved ->
  (truthy (get "name" resolved) = false ->
   MapFromParameter fuel doc parameter = Throw "Parameter name is required")
  /\ (truthy (get "name" resolved) = true ->
      truthy (get "schema" resolved) = false ->
      truthy (get "content" resolved) = false ->
      MapFromParameter fuel doc parameter
      = Throw ("Parameter schema or content not found for parameter '"
               +:+ to_string (get "name" resolved) +:+ "'"))
  /\ (forall name config location,
        get "name" resolved = JStr name -> name <> "" ->
        parameter_schema_config fuel doc resolved = Ok config ->
        truthy config = true ->
        get "in" resolved = JStr location ->
        location <> "query" -> location <> "path" -> location <> "header" ->
        MapFromParameter fuel doc parameter = Throw (unknown_location location)).
Proof.
  intros Hres. split; [|split].
  - intros Hname. unfold MapFromParameter. rewrite Hres, Ok_bind, Hname. reflexivity.
  - intros Hname Hschema Hcontent.
    unfold MapFromParameter. rewrite Hres, Ok_bind, Hname. cbn [negb]. cbv iota.
    unfold parameter_schema_config. rewrite Hschema, Ok_bind, Hcontent.
    reflexivity.
  - intros name config location Hname Hnonempty Hconfig Htruthy Hin Hquery Hpath Hheader.
    destruct (parameter_schema_config_keys _ _ _ _ Hconfig Htruthy)
      as (props & -> & _).
    rewrite (MapFromParameter_steps _ _ _ _ _ _ Hres Hname Hnonempty Hconfig).
    unfold SetParameterRouting. rewrite Hin.
    apply String.eqb_neq in Hquery, Hpath, Hheader.
    rewrite Hquery, Hpath, Hheader. reflexivity.
Qed.

(** What [MapFromSchemaProperty] answers with: the name without dots
    first, then what the schema gives. *)
Lemma MapFromSchemaProperty_keys fuel doc name property keys :
  MapFromSchemaProperty fuel doc name property = Ok keys ->
  NoDup (map fst keys)
  /\ get "displayName" (JObj keys) = JStr (startCase (JStr name))
  /\ get "name" (JObj keys) = JStr (replace_dots name)
  /\ get "required" (JObj keys) = JUndef
  /\ get "routing" (JObj keys) = JUndef
  /\ exists config,
       MapFromSchema fuel doc property = Ok config
       /\ get "type" (JObj keys) = get "type" config.
Proof.
  unfold MapFromSchemaProperty. intros Hm.
  apply bind_Ok in Hm as (config & Hconfig & Hm). inversion Hm; subst. clear Hm.
  split; [apply MergeProperties_distinct|].
  destruct (MapFromSchema_shape _ _ _ _ Hconfig)
    as (type & default & description & [->|[options ->]]).
  - change [JObj [("displayName", JStr (startCase (JStr name)));
                  ("name", JStr (replace_dots name))];
            JObj [("type", type); ("default", default); ("description", description)]]
      with (map JObj [[("displayName", JStr (startCase (JStr name)));
                       ("name", JStr (replace_dots name))];
                      [("type", type); ("default", default);
                       ("description", description)]]).
    rewrite !get_MergeProperties_all
      by (repeat (apply Forall_cons; split;
                  [apply (bool_decide_unpack _); vm_compute; exact I|]); constructor).
    rewrite !first_defined_two. repeat split; try reflexivity.
    exists (JObj [("type", type); ("default", default); ("description", description)]).
    split; [exact Hconfig|]. simpl. destruct type; reflexivity.
  - change [JObj [("displayName", JStr (startCase (JStr name)));
                  ("name", JStr (replace_dots name))];
            JObj [("type", type); ("default", default); ("description", description);
                  ("options", options)]]
      with (map JObj [[("displayName", JStr (startCase (JStr name)));
                       ("name", JStr (replace_dots name))];
                      [("type", type); ("default", default);
                       ("description", description); ("options", options)]]).
    rewrite !get_MergeProperties_all
      by (repeat (apply Forall_cons; split;
                  [apply (bool_decide_unpack _); vm_compute; exact I|]); constructor).
    rewrite !first_defined_two. repeat split; try reflexivity.
    exists (JObj [("type", type); ("default", default); ("description", description);
                  ("options", options)]).
    split; [exact Hconfig|]. simpl. destruct type; reflexivity.
Qed.

Definition body_routing (key value : string) : json :=
  JObj [("send", JObj [("property", JStr key);
                       ("propertyInDotNotation", JBool false);
                       ("type", JStr "body");
                       ("value", JStr value)])].

Lemma body_property_field_facts fuel doc schema key property field :
  body_property_field fuel doc schema (key, property) = Ok field ->
  get "name" field = JStr (replace_dots key)
  /\ get "routing" field
     = body_routing key
         (if is_type "json" field then json_parse_expression else value_expression)
  /\ exists listed,
       required_includes schema key = Ok (JBool listed)
       /\ get "required" field = if listed then JBool true else JUndef.
Proof.
  unfold body_property_field. cbn [fst snd]. intros Hfield.
  apply bind_Ok in Hfield as (keys & Hkeys & Hfield).
  apply bind_Ok in Hfield as (required & Hrequired & Hfield).
  destruct (MapFromSchemaProperty_keys _ _ _ _ _ Hkeys)
    as (Hdistinct & _ & Hname & Hno_required & _ & _).
  assert (Hlisted : exists listed, required = JBool listed).
  { unfold required_includes in Hrequired.
    destruct (get "required" schema); inversion Hrequired; eauto. }
  destruct Hlisted as [listed ->].
  change [JObj [("required", JBool listed)]; JObj keys]
    with (map JObj [[("required", JBool listed)]; keys]) in Hfield.
  assert (Hall : Forall (fun props : list (string * json) => NoDup (map fst props))
                   [[("required", JBool listed)]; keys]).
  { apply Forall_cons. split; [apply NoDup_singleton|].
    apply Forall_cons. split; [exact Hdistinct|constructor]. }
  pose proof (get_MergeProperties_all "name" _ Hall) as Hmerged_name.
  pose proof (get_MergeProperties_all "type" _ Hall) as Hmerged_type.
  pose proof (get_MergeProperties_all "required" _ Hall) as Hmerged_required.
  rewrite first_defined_two in Hmerged_name, Hmerged_type, Hmerged_required.
  set (merged := MergeProperties _) in *.
  inversion Hfield; subst field. clear Hfield.
  rewrite !get_JObj, !lookup_set_key. simpl String.eqb. cbv iota.
  rewrite !get_JObj in Hmerged_name, Hmerged_type, Hmerged_required.
  split; [|split].
  - rewrite Hmerged_name. simpl. rewrite <- get_JObj, Hname. reflexivity.
  - unfold is_type. rewrite get_JObj, lookup_set_key. simpl String.eqb. cbv iota.
    destruct (default JUndef (lookup_key "type" merged)); reflexivity.
  - exists listed. split; [exact Hrequired|].
    rewrite Hmerged_required. simpl. destruct listed; reflexivity.
Qed.

Lemma mapM_Forall2_in {A B} (f : A -> result B) l : forall ys,
  mapM f l = Ok ys -> Forall2 (fun x y => f x = Ok y) l ys.
Proof.
  induction l as [|x l IH]; simpl; intros ys Hm.
  - inversion Hm. constructor.
  - apply bind_Ok in Hm as (y & Hy & Hm).
    apply bind_Ok in Hm as (ys' & Hys & Hm).
    inversion Hm; subst. constructor; eauto.
Qed.

(** The steps of [MapFromRequestBody] for a body that is there. *)
Lemma MapFromRequestBody_steps fuel doc body resolvedBody content schema :
  truthy body = true ->
  Resolve fuel doc body = Ok resolvedBody ->
  FindMatchingKey (get "content" resolvedBody) = Ok content ->
  IsContentObject content = true ->
  Resolve fuel doc (get "schema" content) = Ok schema ->
  (truthy (get "properties" schema) || is_type "object" schema
   || is_type "array" schema) = true ->
  MapFromRequestBody fuel doc body
  = (arrayFields ←
       (if is_type "array" schema && truthy (get "items" schema) then
          innerSchema ← Resolve fuel doc (get "items" schema);
          fieldPropertyKeys ← MapFromSchemaProperty fuel doc "body" innerSchema;
          let fieldDefaults :=
            JObj [("required", JBool (truthy (get "required" schema)))] in
          let field := MergeProperties [fieldDefaults; JObj fieldPropertyKeys] in
          Ok [JObj (set_key "routing"
                      (JObj [("request", JObj [("body", JStr json_parse_expression)])])
                      field)]
        else Ok []);
     propertyFields ←
       (if truthy (get "properties" schema)
        then mapM (body_property_field fuel doc schema)
                  (own_entries (get "properties" schema))
        else Ok []);
     Ok (arrayFields ++ propertyFields)).
Proof.
  intros Hbody Hres Hcontent Hobject Hschema Hsupported.
  unfold MapFromRequestBody.
  rewrite Hbody. cbn [negb]. cbv iota.
  rewrite Hres, Ok_bind, Hcontent, Ok_bind, Hobject. cbn [negb]. cbv iota.
  rewrite Hschema, Ok_bind.
  destruct (truthy (get "properties" schema)), (is_type "object" schema),
    (is_type "array" schema); try discriminate; reflexivity.
Qed.

(** X15.  The fields of a request body that is not an array, one for
    each property in the order of [properties]: the name is the key with
    its dots replaced, the routing sends the value under the key as it
    was declared, parsed as JSON when the type of the field is json, and
    the field is required exactly when [required] of the schema lists
    the key. *)
Theorem MapFromRequestBody_property_fields
    fuel doc body resolvedBody content schema fields :
  truthy body = true ->
  Resolve fuel doc body = Ok resolvedBody ->
  FindMatchingKey (get "content" resolvedBody) = Ok content ->
  Resolve fuel doc (get "schema" content) = Ok schema ->
  is_type "array" schema = false ->
  MapFromRequestBody fuel doc body = Ok fields ->
  Forall2
    (fun (property : string * json) field =>
       get "name" field = JStr (replace_dots (fst property))
       /\ get "routing" field
          = body_routing (fst property)
              (if is_type "json" field then json_parse_expression
               else value_expression)
       /\ exists listed,
            required_includes schema (fst property) = Ok (JBool listed)
            /\ get "required" field = if listed then JBool true else JUndef)
    (own_entries (get "properties" schema)) fields.
Proof.
  intros Hbody Hres Hcontent Hschema Harray Hfields.
  assert (Hobject : IsContentObject content = true
                    /\ (truthy (get "properties" schema) || is_type "object" schema
                        || is_type "array" schema) = true).
  { unfold MapFromRequestBody in Hfields.
    rewrite Hbody in Hfields. cbn [negb] in Hfields. cbv iota in Hfields.
    rewrite Hres, Ok_bind, Hcontent, Ok_bind in Hfields.
    destruct (IsContentObject content); [|discriminate].
    cbn [negb] in Hfields. cbv iota in Hfields.
    rewrite Hschema, Ok_bind in Hfields.
    destruct (truthy (get "properties" schema)), (is_type "object" schema),
      (is_type "array" schema); try discriminate; split; reflexivity. }
  destruct Hobject as [Hobject Hsupported].
  rewrite (MapFromRequestBody_steps _ _ _ _ _ _ Hbody Hres Hcontent Hobject Hschema
             Hsupported) in Hfields.
  rewrite Harray in Hfields. cbn [andb] in Hfields. cbv iota in Hfields.
  rewrite Ok_bind in Hfields.
  apply bind_Ok in Hfields as (propertyFields & Hproperties & Hfields).
  inversion Hfields; subst fields. clear Hfields. cbn [app].
  destruct (truthy (get "properties" schema)) eqn:Htruthy.
  - apply mapM_Forall2_in in Hproperties.
    eapply Forall2_impl; [exact Hproperties|].
    intros [key property] field Hfield. cbn [fst].
    eapply body_property_field_facts. exact Hfield.
  - inversion Hproperties; subst.
    destruct (get "properties" schema) as [| |b|n|text| |]; try discriminate;
      simpl in *; try constructor.
    destruct text; [constructor|discriminate].
Qed.

(** X16.  A request body of type array with [items] gives first one
    field named body, whose value is parsed as JSON and sent as the
    whole body, required when the schema has a truthy [required]; the
    fields of the properties follow, one for each. *)
Theorem MapFromRequestBody_array_field
    fuel doc body resolvedBody content schema fields :
  truthy body = true ->
  Resolve fuel doc body = Ok resolvedBody ->
  FindMatchingKey (get "content" resolvedBody) = Ok content ->
  Resolve fuel doc (get "schema" content) = Ok schema ->
  is_type "array" schema = true ->
  truthy (get "items" schema) = true ->
  MapFromRequestBody fuel doc body = Ok fields ->
  exists field others,
    fields = field :: others
    /\ get "name" field = JStr "body"
    /\ get "routing" field
       = JObj [("request", JObj [("body", JStr json_parse_expression)])]
    /\ get "required" field
       = (if truthy (get "required" schema) then JBool true else JUndef)
    /\ length others = length (own_entries (get "properties" schema)).
Proof.
  intros Hbody Hres Hcontent Hschema Harray Hitems Hfields.
  assert (Hobject : IsContentObject content = true).
  { unfold MapFromRequestBody in Hfields.
    rewrite Hbody in Hfields. cbn [negb] in Hfields. cbv iota in Hfields.
    rewrite Hres, Ok_bind, Hcontent, Ok_bind in Hfields.
    destruct (IsContentObject content); [reflexivity|discriminate]. }
  rewrite (MapFromRequestBody_steps _ _ _ _ _ _ Hbody Hres Hcontent Hobject Hschema)
    in Hfields by (rewrite Harray; apply orb_true_r).
  rewrite Harray, Hitems in Hfields. cbn [andb] in Hfields. cbv iota in Hfields.
  apply bind_Ok in Hfields as (arrayFields & Harrays & Hfields).
  apply bind_Ok in Hfields as (propertyFields & Hproperties & Hfields).
  inversion Hfields; subst fields. clear Hfields.
  apply bind_Ok in Harrays as (innerSchema & _ & Harrays).
  apply bind_Ok in Harrays as (keys & Hkeys & Harrays).
  inversion Harrays; subst arrayFields. clear Harrays.
  destruct (MapFromSchemaProperty_keys _ _ _ _ _ Hkeys)
    as (Hdistinct & _ & Hname & Hno_required & _ & _).
  change (replace_dots "body") with "body" in Hname.
  eexists _, propertyFields. split; [reflexivity|].
  change [JObj [("required", JBool (truthy (get "required" schema)))]; JObj keys]
    with (map JObj [[("required", JBool (truthy (get "required" schema)))]; keys]).
  assert (Hall : Forall (fun props : list (string * json) => NoDup (map fst props))
                   [[("required", JBool (truthy (get "required" schema)))]; keys]).
  { apply Forall_cons. split; [apply NoDup_singleton|].
    apply Forall_cons. split; [exact Hdistinct|constructor]. }
  pose proof (get_MergeProperties_all "name" _ Hall) as Hmerged_name.
  pose proof (get_MergeProperties_all "required" _ Hall) as Hmerged_required.
  rewrite first_defined_two in Hmerged_name, Hmerged_required.
  set (merged := MergeProperties _) in *.
  rewrite !get_JObj, !lookup_set_key. simpl String.eqb. cbv iota.
  rewrite !get_JObj in Hmerged_name, Hmerged_required.
  split; [|split; [|split]].
  - rewrite Hmerged_name. simpl. rewrite <- get_JObj, Hname. reflexivity.
  - reflexivity.
  - rewrite Hmerged_required. simpl.
    destruct (truthy (get "required" schema)); reflexivity.
  - destruct (truthy (get "properties" schema)) eqn:Htruthy.
    + apply mapM_Forall2_in, Forall2_length in Hproperties. symmetry. exact Hproperties.
    + inversion Hproperties; subst.
      destruct (get "properties" schema) as [| |b|n|text| |]; try discriminate;
        try reflexivity.
      destruct text; [reflexivity|discriminate].
Qed.

(** X17.  Of the media types of a content object the first whose name
    holds [application/json] is the one used, also when a later one
    matches as well. *)
Theorem FindMatchingKey_first before key value after :
  Forall (fun kv : string * json => JSON_CONTENT_PATTERN_test (fst kv) = false) before ->
  JSON_CONTENT_PATTERN_test key = true ->
  FindMatchingKey (JObj (before ++ (key, value) :: after)) = Ok value.
Proof.
  intros Hbefore Hkey. unfold FindMatchingKey. cbn [is_nullish own_entries].
  assert (Hfind : forall l,
    List.find JSON_CONTENT_PATTERN_test (map fst (before ++ (key, value) :: l)) = Some key
    /\ lookup_key key (before ++ (key, value) :: l) = Some value).
  { intros l. induction Hbefore as [|[k v] before Hk Hbefore IH]; simpl.
    - rewrite Hkey, String.eqb_refl. split; reflexivity.
    - simpl in Hk. rewrite Hk.
      destruct (String.eqb key k) eqn:E; [|exact IH].
      apply String.eqb_eq in E. subst. congruence. }
  destruct (Hfind after) as [-> Hlookup].
  rewrite get_JObj, Hlookup. reflexivity.
Qed.

(** X18.  The edge cases of [MapFromRequestBody]: no body gives no
    fields; a body none of whose media types matches throws; and a
    schema without properties that is neither an object nor an array
    throws the error that names its type. *)
Theorem MapFromRequestBody_refusals fuel doc body :
  (truthy body = false -> MapFromRequestBody fuel doc body = Ok [])
  /\ (forall resolvedBody media,
        truthy body = true ->
        Resolve fuel doc body = Ok resolvedBody ->
        get "content" resolvedBody = JObj media ->
        Forall (fun kv : string * json => JSON_CONTENT_PATTERN_test (fst kv) = false)
               media ->
        MapFromRequestBody fuel doc body = Throw no_json_content)
  /\ (forall resolvedBody content schema,
        truthy body = true ->
        Resolve fuel doc body = Ok resolvedBody ->
        FindMatchingKey (get "content" resolvedBody) = Ok content ->
        IsContentObject content = true ->
        Resolve fuel doc (get "schema" content) = Ok schema ->
        truthy (get "properties" schema) = false ->
        is_type "object" schema = false ->
        is_type "array" schema = false ->
        MapFromRequestBody fuel doc body
        = Throw ("Request body schema type '"
                 +:+ to_string (or_else (get "type" schema) (JStr "unknown"))
                 +:+ "' not supported")).
Proof.
  split; [|split].
  - intros Hbody. unfold MapFromRequestBody. rewrite Hbody. reflexivity.
  - intros resolvedBody media Hbody Hres Hcontent Hmedia.
    unfold MapFromRequestBody. rewrite Hbody. cbn [negb]. cbv iota.
    rewrite Hres, Ok_bind, Hcontent.
    assert (Hfind : FindMatchingKey (JObj media) = Ok JUndef).
    { unfold FindMatchingKey. cbn [is_nullish own_entries].
      assert (Hnone : List.find JSON_CONTENT_PATTERN_test (map fst media) = None).
      { clear Hcontent.
        induction Hmedia as [|[k v] media Hk Hmedia IH]; simpl; [reflexivity|].
        simpl in Hk. rewrite Hk. exact IH. }
      rewrite Hnone. reflexivity. }
    rewrite Hfind. reflexivity.
  - intros resolvedBody content schema Hbody Hres Hcontent Hobject Hschema
      Hproperties Hobject_type Harray.
    unfold MapFromRequestBody. rewrite Hbody. cbn [negb]. cbv iota.
    rewrite Hres, Ok_bind, Hcontent, Ok_bind, Hobject. cbn [negb]. cbv iota.
    rewrite Hschema, Ok_bind, Hproperties, Hobject_type, Harray. reflexivity.
Qed.

End Facts.

Section Evaluation.
#[local] Existing Instance sample_host.

Definition first_objects : list (list (string * json)) :=
  [[("required", JBool false); ("description", JUndef)];
   [("description", JStr "from the schema"); ("type", JStr "string")]].

Lemma MergeProperties_first_defined_witness :
  get "description" (JObj (MergeProperties (map JObj first_objects)))
  = JStr "from the schema"
  /\ get "required" (JObj (MergeProperties (map JObj first_objects))) = JUndef.
Proof.
  assert (Hdistinct : Forall (fun props : list (string * json) => NoDup (map fst props))
                        first_objects).
  { repeat (apply Forall_cons; split;
            [apply (bool_decide_unpack _); vm_compute; exact I|]). constructor. }
  split.
  - apply (proj1 (MergeProperties_first_defined first_objects "description" Hdistinct)).
    discriminate.
  - apply (proj2 (MergeProperties_first_defined first_objects "description" Hdistinct)).
Defined.

Definition object_schema : json := JObj [("type", JStr "object")].

Lemma MapFromSchema_type_witness :
  get "type" (JObj [("type", JStr "json"); ("default", JStr "{}");
                    ("description", JUndef)])
  ∈ n8n_types.
Proof.
  apply (MapFromSchema_type 3 (JObj []) object_schema object_schema);
    reflexivity.
Defined.

(** An enum of objects: the first one becomes the default. *)
Definition object_enum : json :=
  JObj [("type", JStr "string");
        ("enum", JArr [JObj [("unit", JStr "m")]; JObj [("unit", JStr "s")]])].

Lemma MapFromSchema_default_scalar_witness :
  exists first others,
    get "enum" object_enum = JArr (first :: others)
    /\ get "default"
         (JObj [("type", JStr "options");
                ("default", JObj [("unit", JStr "m")]);
                ("description", JUndef);
                ("options",
                 JArr (map enum_option [JObj [("unit", JStr "m")];
                                        JObj [("unit", JStr "s")]]))])
       = first.
Proof.
  apply (MapFromSchema_default_scalar 3 (JObj []) object_enum); reflexivity.
Defined.

Definition text_config : json :=
  JObj [("type", JStr "string"); ("default", JStr ""); ("description", JUndef)].

Definition text_parameter (name location : string) (more : list (string * json)) : json :=
  JObj ([("name", JStr name); ("in", JStr location);
         ("schema", JObj [("type", JStr "string")])] ++ more).

Lemma MapFromParameter_required_witness :
  (exists field,
     MapFromParameter 3 (JObj []) (text_parameter "id" "path" [("required", JBool false)])
     = Ok field
     /\ get "required" field = JBool true)
  /\ (exists field,
        MapFromParameter 3 (JObj []) (text_parameter "limit" "query" []) = Ok field
        /\ get "required" field = JUndef).
Proof.
  split.
  - apply (proj1 (MapFromParameter_required 3 (JObj [])
                    (text_parameter "id" "path" [("required", JBool false)])
                    (text_parameter "id" "path" [("required", JBool false)])
                    "id" text_config eq_refl eq_refl ltac:(discriminate) eq_refl eq_refl)).
    reflexivity.
  - apply (proj2 (MapFromParameter_required 3 (JObj [])
                    (text_parameter "limit" "query" [])
                    (text_parameter "limit" "query" [])
                    "limit" text_config eq_refl eq_refl ltac:(discriminate) eq_refl
                    eq_refl)).
    left. reflexivity.
Defined.

Lemma MapFromParameter_name_and_routing_witness :
  exists field,
    MapFromParameter 3 (JObj []) (text_parameter "filter.name" "header" []) = Ok field
    /\ get "displayName" field = JStr "filter.name"
    /\ get "name" field = JStr "filter-name"
    /\ get "routing" field = header_routing "filter.name".
Proof.
  apply (MapFromParameter_name_and_routing 3 (JObj [])
           (text_parameter "filter.name" "header" [])
           (text_parameter "filter.name" "header" [])
           "filter.name" text_config eq_refl eq_refl ltac:(discriminate) eq_refl eq_refl).
  right. right. reflexivity.
Defined.

Lemma MapFromParameter_refusals_witness :
  MapFromParameter 3 (JObj []) (JObj [("in", JStr "query")])
  = Throw "Parameter name is required"
  /\ MapFromParameter 3 (JObj []) (JObj [("name", JStr "limit"); ("in", JStr "query")])
     = Throw "Parameter schema or content not found for parameter 'limit'"
  /\ MapFromParameter 3 (JObj []) (text_parameter "session" "cookie" [])
     = Throw "Unknown parameter location 'cookie'".
Proof.
  split; [|split].
  - apply (proj1 (MapFromParameter_refusals 3 (JObj []) (JObj [("in", JStr "query")])
                    (JObj [("in", JStr "query")]) eq_refl)).
    reflexivity.
  - apply (proj1 (proj2 (MapFromParameter_refusals 3 (JObj [])
                           (JObj [("name", JStr "limit"); ("in", JStr "query")])
                           (JObj [("name", JStr "limit"); ("in", JStr "query")])
                           eq_refl))); reflexivity.
  - apply (proj2 (proj2 (MapFromParameter_refusals 3 (JObj [])
                           (text_parameter "session" "cookie" [])
                           (text_parameter "session" "cookie" []) eq_refl))
             "session" text_config "cookie"); try reflexivity; discriminate.
Defined.

(** A JSON body: an object with two properties, or an array. *)
Definition json_body (schema : json) : json :=
  JObj [("content", JObj [("application/json", JObj [("schema", schema)])])].

Definition user_schema : json :=
  JObj [("type", JStr "object");
        ("required", JArr [JStr "user.name"]);
        ("properties",
         JObj [("user.name", JObj [("type", JStr "string")]);
               ("settings", JObj [("type", JStr "object")])])].

Definition user_fields : list json :=
  [JObj [("required", JBool true);
         ("displayName", JStr "user.name");
         ("name", JStr "user-name");
         ("type", JStr "string");
         ("default", JStr "");
         ("description", JUndef);
         ("routing", body_routing "user.name" value_expression)];
   JObj [("displayName", JStr "settings");
         ("name", JStr "settings");
         ("type", JStr "json");
         ("default", JStr "{}");
         ("description", JUndef);
         ("routing", body_routing "settings" json_parse_expression)]].

Lemma MapFromRequestBody_property_fields_witness :
  Forall2
    (fun (property : string * json) field =>
       get "name" field = JStr (replace_dots (fst property))
       /\ get "routing" field
          = body_routing (fst property)
              (if is_type "json" field then json_parse_expression
               else value_expression)
       /\ exists listed,
            required_includes user_schema (fst property) = Ok (JBool listed)
            /\ get "required" field = if listed then JBool true else JUndef)
    (own_entries (get "properties" user_schema)) user_fields.
Proof.
  apply (MapFromRequestBody_property_fields 3 (JObj []) (json_body user_schema)
           (json_body user_schema) (JObj [("schema", user_schema)]) user_schema);
    reflexivity.
Defined.

Definition names_schema : json :=
  JObj [("type", JStr "array"); ("items", JObj [("type", JStr "string")])].

Lemma MapFromRequestBody_array_field_witness :
  exists field others,
    [JObj [("displayName", JStr "body");
           ("name", JStr "body");
           ("type", JStr "string");
           ("default", JStr "");
           ("description", JUndef);
           ("routing", JObj [("request", JObj [("body", JStr json_parse_expression)])])]]
    = field :: others
    /\ get "name" field = JStr "body"
    /\ get "routing" field
       = JObj [("request", JObj [("body", JStr json_parse_expression)])]
    /\ get "required" field
       = (if truthy (get "required" names_schema) then JBool true else JUndef)
    /\ length others = length (own_entries (get "properties" names_schema)).
Proof.
  apply (MapFromRequestBody_array_field 3 (JObj []) (json_body names_schema)
           (json_body names_schema) (JObj [("schema", names_schema)]) names_schema);
    reflexivity.
Defined.

Lemma FindMatchingKey_first_witness :
  FindMatchingKey
    (JObj ([("text/plain", JObj [("schema", JObj [("type", JStr "string")])])]
           ++ ("application/json; charset=utf-8", JObj [("schema", user_schema)])
           :: [("application/json", JObj [("schema", names_schema)])]))
  = Ok (JObj [("schema", user_schema)]).
Proof.
  apply FindMatchingKey_first.
  - repeat constructor.
  - reflexivity.
Defined.

Lemma MapFromRequestBody_refusals_witness :
  MapFromRequestBody 3 (JObj []) JUndef = Ok []
  /\ MapFromRequestBody 3 (JObj [])
       (JObj [("content", JObj [("application/xml", JObj [("schema", user_schema)])])])
     = Throw no_json_content
  /\ MapFromRequestBody 3 (JObj []) (json_body (JObj [("type", JStr "integer")]))
     = Throw "Request body schema type 'integer' not supported".
Proof.
  split; [|split].
  - apply (proj1 (MapFromRequestBody_refusals 3 (JObj []) JUndef)). reflexivity.
  - apply (proj1 (proj2 (MapFromRequestBody_refusals 3 (JObj [])
             (JObj [("content",
                     JObj [("application/xml", JObj [("schema", user_schema)])])])))
             (JObj [("content",
                     JObj [("application/xml", JObj [("schema", user_schema)])])])
             [("application/xml", JObj [("schema", user_schema)])]);
      try reflexivity.
    repeat constructor.
  - apply (proj2 (proj2 (MapFromRequestBody_refusals 3 (JObj [])
             (json_body (JObj [("type", JStr "integer")]))))
             (json_body (JObj [("type", JStr "integer")]))
             (JObj [("schema", JObj [("type", JStr "integer")])])
             (JObj [("type", JStr "integer")])); reflexivity.
Defined.

End Evaluation.

End FieldFacts.

(** ** utils and operation-parser.ts: paths and values *)

Module PathFacts.

(** What a placeholder is rewritten to. *)
Definition placeholder (name : string) : string :=
  "{{$parameter[" +:+ dquote +:+ name +:+ dquote +:+ "]}}".

Lemma app_assoc_string (a b c : string) : (a +:+ b) +:+ c = a +:+ (b +:+ c).
Proof.
  induction a as [|x a IH]; [reflexivity|].
  rewrite !app_cons. f_equal. exact IH.
Qed.

Lemma format_outside before rest :
  has_char "{" before = false ->
  format_path None (before +:+ rest) = before +:+ format_path None rest.
Proof.
  induction before as [|c before IH]; simpl; [reflexivity|].
  intros Hc. apply orb_false_iff in Hc as [Hc Hbefore].
  rewrite Hc, app_cons. f_equal. apply IH. exact Hbefore.
Qed.

Lemma format_inside text : forall name rest,
  has_char "}" text = false ->
  format_path (Some name) (text +:+ String "}" rest)
  = placeholder (name +:+ text) +:+ format_path None rest.
Proof.
  induction text as [|c text IH]; simpl; intros name rest Hc.
  - rewrite app_empty_r. unfold placeholder. rewrite !app_assoc_string. reflexivity.
  - apply orb_false_iff in Hc as [Hc Htext].
    rewrite Hc, IH by exact Htext.
    rewrite app_assoc_string. reflexivity.
Qed.

Lemma format_unclosed text : forall name,
  has_char "}" text = false ->
  format_path (Some name) text = "{" +:+ name +:+ text.
Proof.
  induction text as [|c text IH]; simpl; intros name Hc.
  - rewrite app_empty_r. reflexivity.
  - apply orb_false_iff in Hc as [Hc Htext].
    rewrite Hc, IH by exact Htext.
    rewrite app_assoc_string. reflexivity.
Qed.

(** X19.  [FormatPathWithParameters] turns the first [{name}] of a path
    into the expression for the parameter and goes on behind it; the
    text before it is kept. *)
Theorem FormatPathWithParameters_placeholder before name rest :
  has_char "{" before = false ->
  has_char "}" name = false ->
  FormatPathWithParameters (before +:+ "{" +:+ name +:+ "}" +:+ rest)
  = before +:+ placeholder name +:+ FormatPathWithParameters rest.
Proof.
  intros Hbefore Hname. unfold FormatPathWithParameters.
  rewrite format_outside by exact Hbefore. f_equal.
  change ("{" +:+ name +:+ "}" +:+ rest) with (String "{" (name +:+ String "}" rest)).
  simpl format_path. rewrite format_inside by exact Hname. reflexivity.
Qed.

(** X20.  A path without an opening brace is left as it is, and so is
    an opening brace that is never closed. *)
Theorem FormatPathWithParameters_unchanged before text :
  has_char "{" before = false ->
  has_char "}" text = false ->
  FormatPathWithParameters before = before
  /\ FormatPathWithParameters (before +:+ "{" +:+ text) = before +:+ "{" +:+ text.
Proof.
  intros Hbefore Htext. unfold FormatPathWithParameters. split.
  - rewrite <- (app_empty_r before) at 1.
    rewrite format_outside by exact Hbefore. simpl. apply app_empty_r.
  - rewrite format_outside by exact Hbefore. f_equal.
    change ("{" +:+ text) with (String "{" text).
    simpl format_path. rewrite format_unclosed by exact Htext. reflexivity.
Qed.

Lemma FormatPathWithParameters_placeholder_witness :
  FormatPathWithParameters ("/api/entities/" +:+ "{" +:+ "entity" +:+ "}" +:+ "/items/{item}")
  = "/api/entities/" +:+ placeholder "entity" +:+ FormatPathWithParameters "/items/{item}".
Proof. apply FormatPathWithParameters_placeholder; reflexivity. Defined.

Lemma FormatPathWithParameters_unchanged_witness :
  FormatPathWithParameters "/api/entities" = "/api/entities"
  /\ FormatPathWithParameters ("/api/entities" +:+ "{" +:+ "/entity")
     = "/api/entities" +:+ "{" +:+ "/entity".
Proof. apply FormatPathWithParameters_unchanged; reflexivity. Defined.

End PathFacts.

Module ParserFacts.
Import Operations.

Definition allowed (c : ascii) : bool :=
  is_lower c || is_upper c || is_digit c || Ascii.eqb c " "%char || Ascii.eqb c "-"%char.

Fixpoint all_chars (p : ascii -> bool) (s : string) : bool :=
  match s with
  | EmptyString => true
  | String c rest => p c && all_chars p rest
  end.

Lemma sanitize_cons c s :
  sanitize (String c s)
  = String (if is_lower c || is_upper c || is_digit c || Ascii.eqb c " "%char
            then c else "-"%char) (sanitize s).
Proof. reflexivity. Qed.

Lemma sanitize_facts s :
  all_chars allowed (sanitize s) = true
  /\ sanitize (sanitize s) = sanitize s
  /\ String.length (sanitize s) = String.length s.
Proof.
  induction s as [|c s (Hall & Hidem & Hlen)]; [repeat split|].
  rewrite sanitize_cons.
  destruct (is_lower c || is_upper c || is_digit c || Ascii.eqb c " "%char) eqn:E.
  - repeat split.
    + simpl all_chars. unfold allowed at 1. rewrite E. simpl. exact Hall.
    + rewrite sanitize_cons, E, Hidem. reflexivity.
    + simpl. rewrite Hlen. reflexivity.
  - repeat split.
    + simpl all_chars. rewrite Hall. reflexivity.
    + rewrite sanitize_cons, Hidem. reflexivity.
    + simpl. rewrite Hlen. reflexivity.
Qed.

Section Parser.
Context {host : Host}.

(** X21.  The value the default parser gives an operation holds only
    letters, digits, spaces and dashes, is as long as the name of the
    operation, and sanitising it again does not change it. *)
Theorem GetValue_sanitized operation context :
  all_chars allowed (OperationParser_GetValue operation context) = true
  /\ String.length (OperationParser_GetValue operation context)
     = String.length (OperationParser_GetName operation context)
  /\ sanitize (OperationParser_GetValue operation context)
     = OperationParser_GetValue operation context.
Proof.
  unfold OperationParser_GetValue.
  destruct (sanitize_facts (OperationParser_GetName operation context))
    as (Hall & Hidem & Hlen).
  split; [exact Hall|]. split; [exact Hlen|exact Hidem].
Qed.

End Parser.

End ParserFacts.

(** ** openapi-parser.ts: the order of the visits *)

Module VisitFacts.
Import WalkerFacts.

(** What a visitor is called with. *)
Inductive event : Type :=
| Document (doc : json)
| Operation (pattern method : string) (operation : json)
| Tag (tag : json)
| Finished.

(** A visitor that only notes down the calls of its hooks. *)
Definition recorder : IOpenApiVisitor (list event) :=
  {| visitDocument := Some (fun doc st => Ok (st ++ [Document doc]));
     VisitOperation :=
       Some (fun _ operation context st =>
               Ok (st ++ [Operation (pattern context) (method context) operation]));
     VisitTag := Some (fun tag st => Ok (st ++ [Tag tag]));
     Finish := Some (fun st => Ok (st ++ [Finished]));
     visitOperation := None;
     visitTag := None |}.

(** An operation as the hooks see it: with the default for missing
    tags. *)
Definition with_tags (operation : json) : json :=
  match operation with
  | JObj props =>
      if is_nullish (get "tags" operation)
      then JObj (set_key "tags" default_tags props) else operation
  | other => other
  end.

(** An operation object that is not a reference. *)
Definition is_operation (v : json) : bool :=
  match v with
  | JObj props => negb (bool_decide (is_Some (lookup_key "$ref" props)))
  | _ => false
  end.

Definition keys (v : json) : list string := map fst (own_entries v).

Definition operation_events (doc : json) (pathName httpMethod : string) : list event :=
  if is_http_method httpMethod && is_operation (operation_at doc pathName httpMethod)
  then [Operation pathName httpMethod (with_tags (operation_at doc pathName httpMethod))]
  else [].

Definition path_events (doc : json) (pathName : string) : list event :=
  flat_map (operation_events doc pathName) (keys (get pathName (get "paths" doc))).

Definition tag_events (doc : json) : list event :=
  match get "tags" doc with
  | JArr items => map Tag items
  | _ => []
  end.

(** The shape [OpenAPIV3.Document] gives the parts the walker reads:
    path items are objects, and so is what stands under a method. *)
Record well_formed (doc : json) : Prop := {
  document_object : is_nullish doc = false;
  paths_object :
    truthy (get "paths" doc) = false \/ exists paths, get "paths" doc = JObj paths;
  path_item_object : forall pathName,
    pathName ∈ keys (get "paths" doc) ->
    exists item, get pathName (get "paths" doc) = JObj item;
  operation_object : forall pathName httpMethod,
    pathName ∈ keys (get "paths" doc) ->
    httpMethod ∈ keys (get pathName (get "paths" doc)) ->
    is_http_method httpMethod = true ->
    exists props, operation_at doc pathName httpMethod = JObj props;
  tags_array :
    truthy (get "tags" doc) = false \/ exists items, get "tags" doc = JArr items
}.

Record same_layout (doc0 doc : json) : Prop := {
  layout_frame : only_tags_defaulted doc0 doc;
  layout_paths : forall paths0,
    get "paths" doc0 = JObj paths0 -> exists paths, get "paths" doc = JObj paths;
  layout_item : forall pathName item0,
    get pathName (get "paths" doc0) = JObj item0 ->
    exists item,
      get pathName (get "paths" doc) = JObj item /\ map fst item = map fst item0
}.

Lemma same_layout_refl doc : same_layout doc doc.
Proof. split; [apply only_tags_defaulted_refl|eauto|eauto]. Qed.

Lemma same_layout_trans doc0 doc1 doc2 :
  same_layout doc0 doc1 -> same_layout doc1 doc2 -> same_layout doc0 doc2.
Proof.
  intros [Hframe Hpaths Hitem] [Hframe' Hpaths' Hitem']. split.
  - eapply only_tags_defaulted_trans; eauto.
  - intros paths0 Hget. destruct (Hpaths paths0 Hget) as [paths1 Hget1]. eauto.
  - intros p item0 Hget.
    destruct (Hitem p item0 Hget) as (item1 & Hget1 & Hkeys1).
    destruct (Hitem' p item1 Hget1) as (item2 & Hget2 & Hkeys2).
    exists item2. split; [exact Hget2|congruence].
Qed.

Lemma set_key_keys_present k v props value :
  lookup_key k props = Some value -> map fst (set_key k v props) = map fst props.
Proof.
  induction props as [|[k' v'] props IH]; simpl; [discriminate|].
  destruct (String.eqb k k') eqn:E.
  - apply String.eqb_eq in E. subst. reflexivity.
  - intros H. simpl. rewrite IH by exact H. reflexivity.
Qed.

Lemma get_object k v props : get k v = JObj props -> k = "paths" -> exists top, v = JObj top.
Proof.
  intros Hget ->. destruct v; simpl in Hget; try discriminate; eauto.
Qed.

Lemma lookup_of_get k props value :
  get k (JObj props) = JObj value -> lookup_key k props = Some (JObj value).
Proof.
  simpl. destruct (lookup_key k props); simpl; [congruence|discriminate].
Qed.

Lemma set_in_cons k rest v props :
  set_in (k :: rest) v (JObj props)
  = JObj (set_key k (set_in rest v (get k (JObj props))) props).
Proof. reflexivity. Qed.

(** The write of the default tags, read back. *)
Lemma set_in_tags doc pathName httpMethod paths item props v :
  get "paths" doc = JObj paths ->
  get pathName (JObj paths) = JObj item ->
  get httpMethod (JObj item) = JObj props ->
  let doc' := set_in ["paths"; pathName; httpMethod; "tags"] v doc in
  operation_at doc' pathName httpMethod = JObj (set_key "tags" v props)
  /\ (exists paths', get "paths" doc' = JObj paths')
  /\ forall p item0,
       get p (get "paths" doc) = JObj item0 ->
       exists item', get p (get "paths" doc') = JObj item' /\ map fst item' = map fst item0.
Proof.
  intros Hpaths Hitem Hop doc'.
  destruct (get_object _ _ _ Hpaths eq_refl) as [top ->].
  assert (Hpaths' : get "paths" doc'
                    = JObj (set_key pathName
                              (JObj (set_key httpMethod (JObj (set_key "tags" v props)) item))
                              paths)).
  { unfold doc'. rewrite (get_set_in "paths" "paths"), String.eqb_refl, Hpaths.
    rewrite set_in_cons, Hitem, set_in_cons, Hop, set_in_cons. reflexivity. }
  split; [|split].
  - unfold operation_at. rewrite Hpaths'.
    rewrite !MapperFacts.get_JObj, lookup_set_key_eq. simpl default.
    rewrite MapperFacts.get_JObj, lookup_set_key_eq. reflexivity.
  - eauto.
  - intros p item0 Hget. rewrite Hpaths'. rewrite Hpaths in Hget.
    rewrite MapperFacts.get_JObj, lookup_set_key.
    destruct (String.eqb p pathName) eqn:E.
    + apply String.eqb_eq in E. subst p. rewrite Hitem in Hget.
      inversion Hget; subst item0. simpl. eexists. split; [reflexivity|].
      eapply set_key_keys_present. apply lookup_of_get. exact Hop.
    + rewrite <- MapperFacts.get_JObj. eauto.
Qed.

Lemma with_tags_frame doc0 doc pathName httpMethod :
  only_tags_defaulted doc0 doc ->
  is_operation (operation_at doc pathName httpMethod)
  = is_operation (operation_at doc0 pathName httpMethod)
  /\ with_tags (operation_at doc pathName httpMethod)
     = with_tags (operation_at doc0 pathName httpMethod).
Proof.
  intros [_ _ Hop].
  destruct (Hop pathName httpMethod) as [->|(props & Hop0 & Hnull & ->)];
    [split; reflexivity|].
  rewrite Hop0. split.
  - simpl. rewrite lookup_set_key_ne by discriminate. reflexivity.
  - unfold with_tags. rewrite Hnull.
    rewrite MapperFacts.get_JObj, lookup_set_key_eq. reflexivity.
Qed.

#[local] Arguments set_in : simpl never.

Lemma ParseMethods_recorded doc0 pathName httpMethods : forall doc st,
  same_layout doc0 doc ->
  (exists paths, get "paths" doc0 = JObj paths) ->
  (exists item, get pathName (get "paths" doc0) = JObj item) ->
  (forall httpMethod,
     httpMethod ∈ httpMethods -> is_http_method httpMethod = true ->
     exists props, operation_at doc0 pathName httpMethod = JObj props) ->
  exists doc',
    ParseMethods recorder pathName httpMethods doc st
    = (doc', Ok (st ++ flat_map (operation_events doc0 pathName) httpMethods))
    /\ same_layout doc0 doc'.
Proof.
  induction httpMethods as [|m ms IH]; intros doc st Hlayout Hpaths0 Hitem0 Hops.
  - exists doc. simpl. rewrite app_nil_r. split; [reflexivity|exact Hlayout].
  - assert (Hrest : forall httpMethod,
              httpMethod ∈ ms -> is_http_method httpMethod = true ->
              exists props, operation_at doc0 pathName httpMethod = JObj props).
    { intros httpMethod Hin. apply Hops. right. exact Hin. }
    simpl ParseMethods. simpl flat_map. unfold operation_events at 1.
    destruct (is_http_method m) eqn:Hm; cbn [negb andb]; cbv iota;
      [|apply IH; assumption].
    destruct (Hops m ltac:(left) Hm) as [props0 Hop0].
    destruct (with_tags_frame doc0 doc pathName m (layout_frame _ _ Hlayout))
      as [Hkind Hwith].
    rewrite <- Hkind, <- Hwith.
    assert (Hop : exists props, operation_at doc pathName m = JObj props).
    { destruct (frame_operation _ _ (layout_frame _ _ Hlayout) pathName m)
        as [->|(props & _ & _ & ->)]; eauto. }
    destruct Hop as [props Hop]. unfold operation_at in Hop |- *. rewrite Hop.
    cbn [is_operation].
    case_bool_decide as Href; cbn [negb]; cbv iota; [apply IH; assumption|].
    destruct Hpaths0 as [paths0 Hpaths0]. destruct Hitem0 as [item0 Hitem0].
    destruct (layout_item _ _ Hlayout pathName item0 Hitem0) as (item & Hitem & _).
    destruct (layout_paths _ _ Hlayout paths0 Hpaths0) as [paths Hpaths].
    rewrite Hpaths in Hitem.
    destruct (set_in_tags doc pathName m paths item props default_tags Hpaths Hitem)
      as (Hwritten & Hpaths2 & Hitems).
    { rewrite <- Hitem, <- Hpaths. exact Hop. }
    set (doc2 := if is_nullish (get "tags" (JObj props))
                 then set_in ["paths"; pathName; m; "tags"] (JArr [JStr "default"]) doc
                 else doc).
    assert (Hstep : same_layout doc doc2
                    /\ operation_at doc2 pathName m = with_tags (JObj props)).
    { unfold doc2, with_tags. destruct (is_nullish (get "tags" (JObj props))) eqn:Hnull.
      - split; [|exact Hwritten]. split.
        + eapply default_tags_step; eauto.
        + intros paths1 _. exact Hpaths2.
        + exact Hitems.
      - split; [apply same_layout_refl|exact Hop]. }
    destruct Hstep as [Hstep Hseen]. unfold operation_at in Hseen.
    change (is_nullish (default JUndef (lookup_key "tags" props)))
      with (is_nullish (get "tags" (JObj props))).
    fold doc2. rewrite Hseen.
    destruct (IH doc2 (st ++ [Operation pathName m (with_tags (JObj props))]))
      as (doc' & Hparse & Hlayout'); eauto.
    { eapply same_layout_trans; eauto. }
    exists doc'. rewrite Hparse, <- app_assoc. split; [reflexivity|exact Hlayout'].
Qed.

Lemma ParsePathItems_recorded doc0 pathNames : forall doc st,
  same_layout doc0 doc ->
  (exists paths, get "paths" doc0 = JObj paths) ->
  (forall pathName, pathName ∈ pathNames ->
     exists item, get pathName (get "paths" doc0) = JObj item) ->
  (forall pathName httpMethod,
     pathName ∈ pathNames ->
     httpMethod ∈ keys (get pathName (get "paths" doc0)) ->
     is_http_method httpMethod = true ->
     exists props, operation_at doc0 pathName httpMethod = JObj props) ->
  exists doc',
    ParsePathItems recorder pathNames doc st
    = (doc', Ok (st ++ flat_map (path_events doc0) pathNames))
    /\ same_layout doc0 doc'.
Proof.
  induction pathNames as [|p ps IH]; intros doc st Hlayout Hpaths0 Hitems Hops.
  - exists doc. simpl. rewrite app_nil_r. split; [reflexivity|exact Hlayout].
  - destruct (Hitems p ltac:(left)) as [item0 Hitem0].
    destruct (layout_item _ _ Hlayout p item0 Hitem0) as (item & Hitem & Hkeys).
    simpl ParsePathItems. rewrite Hitem. cbn [is_nullish own_entries]. cbv iota.
    rewrite Hkeys.
    destruct (ParseMethods_recorded doc0 p (map fst item0) doc st Hlayout Hpaths0)
      as (doc1 & Hmethods & Hlayout1); eauto.
    { intros m Hm. apply Hops; [left|].
      unfold keys. rewrite Hitem0. exact Hm. }
    rewrite Hmethods.
    destruct (IH doc1 (st ++ flat_map (operation_events doc0 p) (map fst item0)))
      as (doc' & Hrest & Hlayout'); eauto.
    { intros p' Hp'. apply Hitems. right. exact Hp'. }
    { intros p' m Hp'. apply Hops. right. exact Hp'. }
    exists doc'. rewrite Hrest. split; [|exact Hlayout'].
    simpl flat_map. unfold path_events at 2. unfold keys. rewrite Hitem0.
    cbn [own_entries]. rewrite <- app_assoc. reflexivity.
Qed.

Lemma visit_tags_recorded items : forall st,
  visit_tags recorder items st = Ok (st ++ map Tag items).
Proof.
  induction items as [|tag items IH]; intros st; simpl.
  - rewrite app_nil_r. reflexivity.
  - rewrite IH, <- app_assoc. reflexivity.
Qed.

(** X22.  For a document of the shape [OpenAPIV3.Document], [Parse]
    calls the visitor once for the document, then once for each
    operation that is not a reference, path by path and key by key in
    the order of the document, with the tags [["default"]] where the
    operation had none, then once for each declared tag, and last
    [Finish]. *)
Theorem Parse_visits_in_order doc :
  well_formed doc ->
  snd (Parse recorder doc [])
  = Ok ([Document doc]
        ++ flat_map (path_events doc) (keys (get "paths" doc))
        ++ tag_events doc
        ++ [Finished]).
Proof.
  intros [Hdoc Hpaths Hitems Hops Htags].
  unfold Parse.
  cbn [recorder visitDocument fmap option_fmap option_map call_hook app].
  rewrite Hdoc.
  assert (Hwalk : exists doc',
    ParsePaths recorder doc [Document doc]
    = (doc', Ok ([Document doc] ++ flat_map (path_events doc) (keys (get "paths" doc))))
    /\ get "tags" doc' = get "tags" doc).
  { unfold ParsePaths. destruct Hpaths as [Hfalsy|[paths Hpaths]].
    - rewrite Hfalsy. cbn [negb]. exists doc. split; [|reflexivity].
      destruct (get "paths" doc) as [| |b|n|text|items|props]; try discriminate;
        try reflexivity.
      destruct text; [reflexivity|discriminate].
    - rewrite Hpaths. cbn [truthy negb own_entries]. cbv iota.
      destruct (ParsePathItems_recorded doc (map fst paths) doc [Document doc])
        as (doc' & Hparse & Hlayout).
      + apply same_layout_refl.
      + eauto.
      + intros p Hp. apply Hitems. unfold keys. rewrite Hpaths. exact Hp.
      + intros p m Hp. apply Hops. unfold keys. rewrite Hpaths. exact Hp.
      + exists doc'. rewrite Hparse. split; [reflexivity|].
        apply (frame_document _ _ (layout_frame _ _ Hlayout)). discriminate. }
  destruct Hwalk as (doc' & -> & Hsame). cbn [snd].
  unfold ParseTags. rewrite Hsame. unfold tag_events.
  destruct Htags as [Hfalsy|[items Hitems']].
  - rewrite Hfalsy. cbn [negb]. rewrite Ok_bind. cbn [recorder Finish call_hook].
    destruct (get "tags" doc) as [| |b|n|text|items|props]; try discriminate;
      simpl; rewrite <- ?app_assoc; try reflexivity.
  - rewrite Hitems'. cbn [truthy negb]. cbv iota.
    rewrite visit_tags_recorded, Ok_bind. cbn [recorder Finish call_hook].
    rewrite <- !app_assoc. reflexivity.
Qed.

Definition pets_doc : json :=
  JObj [("paths",
         JObj [("/pets",
                JObj [("parameters", JArr []);
                      ("get", JObj [("operationId", JStr "list")]);
                      ("post", JObj [("$ref", JStr "#/components/create")])]);
               ("/pets/{id}",
                JObj [("delete", JObj [("tags", JArr [JStr "Pet"])])])]);
        ("tags", JArr [JObj [("name", JStr "Pet")]])].

Lemma Parse_visits_in_order_witness :
  snd (Parse recorder pets_doc [])
  = Ok [Document pets_doc;
        Operation "/pets" "get"
          (JObj [("operationId", JStr "list"); ("tags", default_tags)]);
        Operation "/pets/{id}" "delete" (JObj [("tags", JArr [JStr "Pet"])]);
        Tag (JObj [("name", JStr "Pet")]);
        Finished].
Proof.
  apply (Parse_visits_in_order pets_doc). split.
  - reflexivity.
  - right. eexists. reflexivity.
  - intros pathName Hin. vm_compute in Hin.
    repeat (apply elem_of_cons in Hin as [->|Hin]; [eexists; reflexivity|]).
    inversion Hin.
  - intros pathName httpMethod Hin. vm_compute in Hin.
    repeat (apply elem_of_cons in Hin as [->|Hin];
            [intros Hm; vm_compute in Hm;
             repeat (apply elem_of_cons in Hm as [->|Hm];
                     [intros Hh; first [discriminate Hh|eexists; reflexivity]|]);
             inversion Hm|]).
    inversion Hin.
  - right. eexists. reflexivity.
Defined.

End VisitFacts.

(** ** resource-collector.ts: the tags collected *)

Module InvariantFacts.
Import WalkerFacts.

(** What every call of the operation hooks and of the tag hooks keeps,
    the walk keeps. *)
Section Invariant.
Context {S : Type} (visitor : IOpenApiVisitor S) (I : S -> Prop).

Hypothesis operation_step : forall doc operation context st st',
  visit_operation visitor doc operation context st = Ok st' -> I st -> I st'.

Lemma ParseMethods_invariant pathName httpMethods : forall doc st doc' st',
  ParseMethods visitor pathName httpMethods doc st = (doc', Ok st') -> I st -> I st'.
Proof.
  induction httpMethods as [|m ms IH]; intros doc st doc' st' Hparse Hst.
  - inversion Hparse; subst. exact Hst.
  - cbn [ParseMethods] in Hparse.
    destruct (negb (is_http_method m)); [eapply IH; eauto|].
    destruct (get m (get pathName (get "paths" doc))) as [| | | | | |props];
      try discriminate.
    case_bool_decide; [eapply IH; eauto|].
    cbv zeta in Hparse.
    match type of Hparse with
    | match ?v with _ => _ end = _ => destruct v as [st1| |] eqn:Hvisit
    end; try discriminate.
    eapply IH; [exact Hparse|]. eapply operation_step; eauto.
Qed.

Lemma ParsePathItems_invariant pathNames : forall doc st doc' st',
  ParsePathItems visitor pathNames doc st = (doc', Ok st') -> I st -> I st'.
Proof.
  induction pathNames as [|p ps IH]; intros doc st doc' st' Hparse Hst.
  - inversion Hparse; subst. exact Hst.
  - cbn [ParsePathItems] in Hparse. cbv zeta in Hparse.
    destruct (is_nullish _); [discriminate|].
    destruct (ParseMethods _ _ _ _ _) as [doc1 [st1| |]] eqn:Hmethods;
      try discriminate.
    eapply IH; [exact Hparse|]. eapply ParseMethods_invariant; eauto.
Qed.

Lemma ParsePaths_invariant doc st doc' st' :
  ParsePaths visitor doc st = (doc', Ok st') -> I st -> I st'.
Proof.
  unfold ParsePaths. intros Hparse Hst.
  destruct (negb _); [inversion Hparse; subst; exact Hst|].
  destruct (get "paths" doc); try discriminate;
    eapply ParsePathItems_invariant; eauto.
Qed.

Hypothesis tag_step : forall tag st st',
  visit_tag visitor tag st = Ok st' -> I st -> I st'.

Lemma visit_tags_invariant items : forall st st',
  visit_tags visitor items st = Ok st' -> I st -> I st'.
Proof.
  induction items as [|tag items IH]; intros st st' Hvisit Hst.
  - inversion Hvisit; subst. exact Hst.
  - cbn [visit_tags] in Hvisit. apply bind_Ok in Hvisit as (st1 & Hstep & Hrest).
    eapply IH; [exact Hrest|]. eapply tag_step; eauto.
Qed.

Lemma ParseTags_invariant doc st st' :
  ParseTags visitor doc st = Ok st' -> I st -> I st'.
Proof.
  unfold ParseTags. intros Hparse Hst.
  destruct (negb _); [inversion Hparse; subst; exact Hst|].
  destruct (get "tags" doc); try discriminate;
    eapply visit_tags_invariant; eauto.
Qed.

End Invariant.

(** The parts of a walk for a visitor without the hooks [visitDocument]
    and [Finish]. *)
Lemma Parse_parts {S : Type} (visitor : IOpenApiVisitor S) doc st doc' st' :
  visitDocument visitor = None ->
  Finish visitor = None ->
  Parse visitor doc st = (doc', Ok st') ->
  exists st1,
    ParsePaths visitor doc st = (doc', Ok st1)
    /\ ParseTags visitor doc' st1 = Ok st'
    /\ get "tags" doc' = get "tags" doc.
Proof.
  intros Hdocument Hfinish. unfold Parse. rewrite Hdocument, Hfinish.
  cbn [fmap option_fmap option_map call_hook].
  destruct (is_nullish doc); [discriminate|].
  pose proof (ParsePaths_frame visitor doc st) as Hframe.
  destruct (ParsePaths visitor doc st) as [doc1 [st1| |]] eqn:Hpaths;
    try discriminate.
  intros Hparse. inversion Hparse as [[Hdoc Htags]]. subst doc1.
  exists st1. split; [reflexivity|]. split.
  - destruct (ParseTags visitor doc' st1); [reflexivity|discriminate|discriminate].
  - apply (frame_document _ _ Hframe). discriminate.
Qed.

End InvariantFacts.

Module TagFacts.
Import Resources ResourceFacts InvariantFacts.

Lemma map_get_None {V} k (m : list (string * V)) :
  map_get k m = None <-> k ∉ map fst m.
Proof.
  induction m as [|[k' v] m IH]; simpl.
  - split; [intros _ Hin; inversion Hin|reflexivity].
  - destruct (String.eqb k k') eqn:E.
    + apply String.eqb_eq in E. subst. split; [discriminate|].
      intros Hnot. exfalso. apply Hnot. left.
    + apply String.eqb_neq in E. rewrite IH. split.
      * intros Hnot Hin. apply elem_of_cons in Hin as [Heq|Hin]; auto.
      * intros Hnot Hin. apply Hnot. right. exact Hin.
Qed.

Lemma map_get_elem {V} k (v : V) m : map_get k m = Some v -> (k, v) ∈ m.
Proof.
  induction m as [|[k' v'] m IH]; simpl; [discriminate|].
  destruct (String.eqb k k') eqn:E.
  - apply String.eqb_eq in E. intros Hv. inversion Hv; subst. left.
  - intros Hget. right. exact (IH Hget).
Qed.

Lemma elem_map_get {V} k (v : V) m :
  NoDup (map fst m) -> (k, v) ∈ m -> map_get k m = Some v.
Proof.
  induction m as [|[k' v'] m IH]; simpl; intros Hnd Hin; [inversion Hin|].
  apply NoDup_cons in Hnd as [Hfresh Hnd].
  apply elem_of_cons in Hin as [Heq|Hin].
  - inversion Heq; subst. rewrite String.eqb_refl. reflexivity.
  - destruct (String.eqb k k') eqn:E; [|exact (IH Hnd Hin)].
    apply String.eqb_eq in E. subst. exfalso. apply Hfresh.
    apply list_elem_of_fmap. exists (k', v). split; [reflexivity|exact Hin].
Qed.

Lemma map_set_keys {V} k (v : V) m :
  map fst (map_set k v m)
  = if bool_decide (k ∈ map fst m) then map fst m else map fst m ++ [k].
Proof.
  induction m as [|[k' v'] m IH]; simpl.
  - reflexivity.
  - destruct (String.eqb k k') eqn:E.
    + apply String.eqb_eq in E. subst.
      rewrite bool_decide_eq_true_2 by left. reflexivity.
    + apply String.eqb_neq in E. simpl. rewrite IH.
      case_bool_decide as Hin.
      * rewrite bool_decide_eq_true_2 by (right; exact Hin). reflexivity.
      * rewrite bool_decide_eq_false_2; [reflexivity|].
        intros Hin'. apply elem_of_cons in Hin' as [Heq|Hin']; auto.
Qed.

Lemma map_set_NoDup {V} k (v : V) m :
  NoDup (map fst m) -> NoDup (map fst (map_set k v m)).
Proof.
  intros Hnd. rewrite map_set_keys. case_bool_decide as Hin; [exact Hnd|].
  apply NoDup_app. split; [exact Hnd|]. split.
  - intros x Hx Hk. apply list_elem_of_singleton in Hk. subst. contradiction.
  - apply NoDup_singleton.
Qed.

Lemma map_set_Forall {V} (P : string * V -> Prop) k v m :
  Forall P m -> P (k, v) -> Forall P (map_set k v m).
Proof.
  intros Hall Hnew. induction Hall as [|[k' v'] m Hx Hall IH]; simpl.
  - constructor; [exact Hnew|constructor].
  - destruct (String.eqb k k'); constructor; auto.
Qed.

(** The map [tags] holds every tag under its own name. *)
Record keyed (c : ResourceCollector) : Prop := {
  keys_distinct : NoDup (map fst (tags c));
  keys_names : Forall (fun entry => name (snd entry) = fst entry) (tags c)
}.

Lemma keyed_new : keyed new_ResourceCollector.
Proof. split; constructor. Qed.

Lemma addTagByName_keyed tag c : keyed c -> keyed (addTagByName tag c).
Proof.
  intros [Hnd Hnames]. unfold addTagByName.
  destruct (map_get tag (tags c)); [split; assumption|].
  split; simpl; [apply map_set_NoDup; exact Hnd|].
  apply map_set_Forall; [exact Hnames|reflexivity].
Qed.

Lemma addTagByName_order tag c : tagsOrder (addTagByName tag c) = tagsOrder c.
Proof. unfold addTagByName. destruct (map_get tag (tags c)); reflexivity. Qed.

Lemma visitOperation_keeps (P : ResourceCollector -> Prop) operation c c' :
  (forall tag c, P c -> P (addTagByName tag c)) ->
  visitOperation operation c = Ok c' -> P c -> P c'.
Proof.
  intros Hadd. unfold visitOperation. intros Hvisit Hc.
  assert (Hfold : forall names c, P c ->
            P (fold_left (fun c tag => addTagByName tag c) names c)).
  { induction names as [|n names IH]; intros c0 Hc0; simpl; auto. }
  destruct (get "tags" operation) as [| | | |text|items|]; try discriminate.
  - destruct text; [|discriminate]. inversion Hvisit; subst. auto.
  - destruct items as [|item items]; [inversion Hvisit; subst; auto|].
    apply bind_Ok in Hvisit as (names & _ & Hvisit).
    inversion Hvisit; subst. auto.
Qed.

Lemma visitTag_keyed tag c c' : visitTag tag c = Ok c' -> keyed c -> keyed c'.
Proof.
  unfold visitTag. intros Hvisit [Hnd Hnames].
  destruct (is_nullish tag); [discriminate|].
  destruct (get "name" tag) as [| | | |tag_name| |]; try discriminate.
  apply bind_Ok in Hvisit as (text & _ & Hvisit). inversion Hvisit; subst.
  split; simpl; [apply map_set_NoDup; exact Hnd|].
  apply map_set_Forall; [exact Hnames|reflexivity].
Qed.

Lemma visit_operation_resources doc operation context c :
  visit_operation Resources.visitor doc operation context c = visitOperation operation c.
Proof. reflexivity. Qed.

Lemma visit_tag_resources tag c : visit_tag Resources.visitor tag c = visitTag tag c.
Proof. reflexivity. Qed.

Lemma Parse_keyed doc doc' c :
  Parse Resources.visitor doc new_ResourceCollector = (doc', Ok c) -> keyed c.
Proof.
  intros Hparse.
  destruct (Parse_parts Resources.visitor _ _ _ _ eq_refl eq_refl Hparse) as (c0 & Hpaths & Htags & _).
  eapply (ParseTags_invariant Resources.visitor keyed); [|exact Htags|].
  - intros tag st st' Hstep. rewrite visit_tag_resources in Hstep.
    eapply visitTag_keyed; eauto.
  - eapply (ParsePaths_invariant Resources.visitor keyed); [|exact Hpaths|apply keyed_new].
    intros d operation context st st' Hstep. rewrite visit_operation_resources in Hstep.
    eapply visitOperation_keeps; [|exact Hstep]. apply addTagByName_keyed.
Qed.

Lemma sortedTags_perm c : sortedTags c ≡ₚ map snd (tags c).
Proof.
  unfold sortedTags. cbv zeta.
  set (sorted := sort_by (order_of (tagsOrder c)) (map snd (tags c))).
  assert (Hsorted : sorted ≡ₚ map snd (tags c)) by apply sort_by_perm.
  case_bool_decide; [exact Hsorted|].
  destruct (List.find is_default sorted) as [d|] eqn:Hfind; [|exact Hsorted].
  etransitivity; [|exact Hsorted].
  symmetry. apply remove_first_perm. exact Hfind.
Qed.

Lemma keyed_names c : keyed c -> map name (map snd (tags c)) = map fst (tags c).
Proof.
  intros [_ Hnames]. induction Hnames as [|[k t] m Hx _ IH]; simpl; [reflexivity|].
  simpl in Hx. rewrite Hx, IH. reflexivity.
Qed.

(** X23.  After a walk of any document the resource collector lists no
    tag name twice: the names of the options of the resource selector,
    in the order of [sortedTags], are distinct, and they are the names
    the collector holds. *)
Theorem Parse_resources_distinct doc doc' c :
  Parse Resources.visitor doc new_ResourceCollector = (doc', Ok c) ->
  NoDup (map name (sortedTags c))
  /\ map name (sortedTags c) ≡ₚ map fst (tags c).
Proof.
  intros Hparse. pose proof (Parse_keyed _ _ _ Hparse) as Hkeyed.
  assert (Hperm : map name (sortedTags c) ≡ₚ map fst (tags c)).
  { rewrite <- (keyed_names c Hkeyed). apply Permutation_map, sortedTags_perm. }
  split; [|exact Hperm].
  rewrite Hperm. apply (keys_distinct _ Hkeyed).
Qed.

(** What a tag object of the document declares. *)
Definition declares (item : json) (tag : TagObject) : Prop :=
  get "name" item = JStr (name tag)
  /\ description_or_empty item = Ok (description tag).

Definition declare (c : ResourceCollector) (tag : TagObject) : ResourceCollector :=
  {| tags := map_set (name tag) tag (tags c);
     tagsOrder := <[name tag := size (tagsOrder c)]> (tagsOrder c) |}.

Lemma visitTag_declares item tag c :
  declares item tag -> visitTag item c = Ok (declare c tag).
Proof.
  intros [Hname Htext]. unfold visitTag.
  assert (Hitem : is_nullish item = false).
  { destruct item; try reflexivity; discriminate. }
  rewrite Hitem, Hname, Htext. destruct tag as [n d]. reflexivity.
Qed.

Lemma visit_tags_declared items expected :
  Forall2 declares items expected ->
  forall c, visit_tags Resources.visitor items c = Ok (fold_left declare expected c).
Proof.
  induction 1 as [|item tag items expected Hitem _ IH]; intros c; [reflexivity|].
  cbn [visit_tags fold_left]. rewrite visit_tag_resources.
  rewrite (visitTag_declares item tag c Hitem). apply IH.
Qed.

Lemma fold_declare expected : forall c,
  NoDup (map name expected) ->
  (forall t, t ∈ expected -> tagsOrder c !! name t = None) ->
  (forall i t, expected !! i = Some t ->
     tagsOrder (fold_left declare expected c) !! name t = Some (size (tagsOrder c) + i))
  /\ (forall k, k ∉ map name expected ->
        tagsOrder (fold_left declare expected c) !! k = tagsOrder c !! k
        /\ map_get k (tags (fold_left declare expected c)) = map_get k (tags c))
  /\ (forall t, t ∈ expected ->
        map_get (name t) (tags (fold_left declare expected c)) = Some t).
Proof.
  induction expected as [|t rest IH]; intros c Hnd Hfresh.
  - split; [|split].
    + intros i t Hi. destruct i; discriminate.
    + intros k _. split; reflexivity.
    + intros t Ht. inversion Ht.
  - cbn [map] in Hnd. apply NoDup_cons in Hnd as [Ht Hnd].
    cbn [fold_left].
    assert (Hsize : size (tagsOrder (declare c t)) = Datatypes.S (size (tagsOrder c))).
    { unfold declare. cbn [tagsOrder]. apply map_size_insert_None.
      apply Hfresh. left. }
    destruct (IH (declare c t) Hnd) as (Horder & Hother & Htags).
    { intros t' Ht'. unfold declare. cbn [tagsOrder].
      rewrite lookup_insert_ne.
      - apply Hfresh. right. exact Ht'.
      - intros Heq. apply Ht. rewrite Heq.
        apply list_elem_of_fmap. exists t'. split; [reflexivity|exact Ht']. }
    assert (Hfirst :
      tagsOrder (fold_left declare rest (declare c t)) !! name t
      = Some (size (tagsOrder c))
      /\ map_get (name t) (tags (fold_left declare rest (declare c t))) = Some t).
    { destruct (Hother (name t) Ht) as [-> ->]. unfold declare.
      cbn [tagsOrder tags]. rewrite lookup_insert_eq.
      rewrite CollectorFacts.map_get_set, String.eqb_refl. split; reflexivity. }
    split; [|split].
    + intros [|i] t' Hi.
      * inversion Hi; subst. rewrite Nat.add_0_r. apply Hfirst.
      * rewrite (Horder i t' Hi), Hsize. f_equal. lia.
    + intros k Hk.
      assert (Hne : k <> name t) by (intros ->; apply Hk; left).
      assert (Hrest : k ∉ map name rest) by (intros Hin; apply Hk; right; exact Hin).
      destruct (Hother k Hrest) as [-> ->]. unfold declare. cbn [tagsOrder tags].
      rewrite lookup_insert_ne by congruence.
      rewrite CollectorFacts.map_get_set.
      destruct (String.eqb k (name t)) eqn:E; [|split; reflexivity].
      apply String.eqb_eq in E. contradiction.
    + intros t' Ht'. apply elem_of_cons in Ht' as [->|Ht']; [apply Hfirst|].
      apply Htags. exact Ht'.
Qed.

Lemma indexed_sorted {A} (key : A -> nat) l : forall base,
  (forall i a, l !! i = Some a -> key a = base + i) ->
  StronglySorted (key_le key) l.
Proof.
  induction l as [|a l IH]; intros base Hkey; constructor.
  - apply (IH (Datatypes.S base)). intros i b Hi.
    rewrite (Hkey (Datatypes.S i) b Hi). lia.
  - apply Forall_forall. intros b Hb.
    apply list_elem_of_lookup in Hb as [i Hi].
    unfold key_le. rewrite (Hkey 0 a eq_refl), (Hkey (Datatypes.S i) b Hi). lia.
Qed.

Lemma sorted_unique {A} (key : A -> nat) l1 : forall l2,
  StronglySorted (key_le key) l1 ->
  StronglySorted (key_le key) l2 ->
  l1 ≡ₚ l2 ->
  (forall a b, a ∈ l1 -> b ∈ l1 -> key a = key b -> a = b) ->
  l1 = l2.
Proof.
  induction l1 as [|a l1 IH]; intros l2 Hs1 Hs2 Hperm Hinj.
  - apply Permutation_nil_l in Hperm. congruence.
  - destruct l2 as [|b l2]; [apply Permutation_nil_r in Hperm; discriminate|].
    apply StronglySorted_inv in Hs1 as [Hs1 Ha].
    apply StronglySorted_inv in Hs2 as [Hs2 Hb].
    assert (Hab : a = b).
    { assert (Hb1 : b ∈ a :: l1) by (rewrite Hperm; left).
      assert (Ha2 : a ∈ b :: l2) by (rewrite <- Hperm; left).
      apply Hinj; [left|exact Hb1|].
      apply elem_of_cons in Hb1 as [->|Hb1]; [reflexivity|].
      apply elem_of_cons in Ha2 as [->|Ha2]; [reflexivity|].
      rewrite Forall_forall in Ha, Hb.
      pose proof (Ha b Hb1) as H1. pose proof (Hb a Ha2) as H2.
      unfold key_le in H1, H2. lia. }
    subst b. f_equal. apply IH; [exact Hs1|exact Hs2| |].
    + apply Permutation_cons_inv in Hperm. exact Hperm.
    + intros x y Hx Hy. apply Hinj; right; assumption.
Qed.

(** X24.  Where the document declares its tags, with distinct names, and
    every tag an operation carries is among them, the options of the
    resource selector are those of the declared tags, in the order of
    their declaration, with the declared descriptions. *)
Theorem declared_tags_in_order resourceParser doc doc' c items expected :
  Parse Resources.visitor doc new_ResourceCollector = (doc', Ok c) ->
  get "tags" doc = JArr items ->
  Forall2 declares items expected ->
  NoDup (map name expected) ->
  (forall k, k ∈ map fst (tags c) -> k ∈ map name expected) ->
  get "options" (resources resourceParser c)
  = JArr (map (resource_option resourceParser) expected).
Proof.
  intros Hparse Hitems Hdeclared Hnd Hused.
  pose proof (Parse_keyed _ _ _ Hparse) as Hkeyed.
  destruct (Parse_parts Resources.visitor _ _ _ _ eq_refl eq_refl Hparse)
    as (c0 & Hpaths & Htags & Hsame).
  assert (Hempty : tagsOrder c0 = ∅).
  { eapply (ParsePaths_invariant Resources.visitor (fun c => tagsOrder c = ∅));
      [|exact Hpaths|reflexivity].
    intros d operation context st st' Hstep Hst.
    rewrite visit_operation_resources in Hstep.
    eapply (visitOperation_keeps (fun c => tagsOrder c = ∅)); [|exact Hstep|exact Hst].
    intros tag c1. rewrite addTagByName_order. auto. }
  unfold ParseTags in Htags. rewrite Hsame, Hitems in Htags.
  cbn [truthy negb] in Htags. cbv iota in Htags.
  rewrite (visit_tags_declared items expected Hdeclared) in Htags.
  inversion Htags as [Hc]. clear Htags. rewrite Hc.
  destruct (fold_declare expected c0 Hnd) as (Horder & Hother & Hheld).
  { intros t _. rewrite Hempty. apply lookup_empty. }
  rewrite Hc in Horder, Hother, Hheld. rewrite Hempty in Horder.
  change (size (∅ : gmap string nat)) with 0 in Horder.
  assert (Hkey : forall i t, expected !! i = Some t ->
            order_of (tagsOrder c) t = 0 + i).
  { intros i t Hi. unfold order_of. rewrite (Horder i t Hi). reflexivity. }
  assert (Hperm : map snd (tags c) ≡ₚ expected).
  { apply NoDup_Permutation.
    - apply (NoDup_fmap_1 name).
      change (NoDup (map name (map snd (tags c)))).
      rewrite (keyed_names c Hkeyed). apply (keys_distinct _ Hkeyed).
    - apply (NoDup_fmap_1 name). exact Hnd.
    - intros t. split.
      + intros Ht. apply list_elem_of_fmap in Ht as ([k t'] & -> & Hin). simpl.
        assert (Hk : k ∈ map name expected).
        { apply Hused. apply list_elem_of_fmap. exists (k, t'). split; [reflexivity|exact Hin]. }
        apply list_elem_of_fmap in Hk as (t0 & -> & Ht0).
        pose proof (Hheld t0 Ht0) as Hget.
        rewrite (elem_map_get _ _ _ (keys_distinct _ Hkeyed) Hin) in Hget.
        inversion Hget; subst. exact Ht0.
      + intros Ht. apply list_elem_of_fmap. exists (name t, t).
        split; [reflexivity|]. apply map_get_elem. apply Hheld. exact Ht. }
  assert (Hsorted : sort_by (order_of (tagsOrder c)) (map snd (tags c)) = expected).
  { symmetry. apply (sorted_unique (order_of (tagsOrder c))).
    - apply (indexed_sorted _ _ 0). exact Hkey.
    - apply sort_by_sorted.
    - rewrite sort_by_perm. symmetry. exact Hperm.
    - intros a b Ha Hb Hab.
      apply list_elem_of_lookup in Ha as [i Hi]. apply list_elem_of_lookup in Hb as [j Hj].
      rewrite (Hkey i a Hi), (Hkey j b Hj) in Hab.
      assert (i = j) by lia. subst j. congruence. }
  assert (Hlist : sortedTags c = expected).
  { unfold sortedTags. cbv zeta. rewrite Hsorted.
    case_bool_decide as Hdefault; [reflexivity|].
    destruct (List.find is_default expected) as [d|] eqn:Hfind; [|reflexivity].
    exfalso. apply Hdefault.
    apply List.find_some in Hfind as [Hd Hname].
    unfold is_default in Hname. apply String.eqb_eq in Hname.
    apply list_elem_of_In, list_elem_of_lookup in Hd as [i Hi].
    rewrite <- Hname, (Horder i d Hi). eauto. }
  change (get "options" (resources resourceParser c))
    with (JArr (map (resource_option resourceParser) (sortedTags c))).
  rewrite Hlist. reflexivity.
Qed.

Definition store_doc : json :=
  JObj [("paths",
         JObj [("/orders", JObj [("get", JObj [("tags", JArr [JStr "Store"])])]);
               ("/pets", JObj [("get", JObj [("tags", JArr [JStr "Pet"; JStr "Store"])])])]);
        ("tags",
         JArr [JObj [("name", JStr "Pet"); ("description", JStr "Pets")];
               JObj [("name", JStr "Store")]])].

(** The collector after the walk of that document: the tag of the first
    operation was inserted first, the declarations give the order. *)
Definition store_collector : ResourceCollector :=
  {| tags := [("Store", {| name := "Store"; description := "" |});
              ("Pet", {| name := "Pet"; description := "Pets" |})];
     tagsOrder := <["Store" := 1%nat]> (<["Pet" := 0%nat]> ∅) |}.

Definition store_tags : list TagObject :=
  [{| name := "Pet"; description := "Pets" |}; {| name := "Store"; description := "" |}].

Lemma store_doc_walk :
  Parse Resources.visitor store_doc new_ResourceCollector = (store_doc, Ok store_collector).
Proof. vm_compute. reflexivity. Defined.

Lemma Parse_resources_distinct_witness :
  NoDup (map name (sortedTags store_collector))
  /\ map name (sortedTags store_collector) ≡ₚ map fst (tags store_collector).
Proof.
  exact (Parse_resources_distinct store_doc store_doc store_collector store_doc_walk).
Defined.

Lemma declared_tags_in_order_witness :
  get "options" (resources (plain_ResourceParser (host := sample_host)) store_collector)
  = JArr (map (resource_option (plain_ResourceParser (host := sample_host))) store_tags).
Proof.
  apply (declared_tags_in_order _ store_doc store_doc store_collector
           [JObj [("name", JStr "Pet"); ("description", JStr "Pets")];
            JObj [("name", JStr "Store")]]
           store_tags store_doc_walk eq_refl).
  - repeat constructor.
  - apply (bool_decide_unpack _). vm_compute. exact I.
  - intros k Hk. vm_compute in Hk. vm_compute.
    repeat (apply elem_of_cons in Hk as [->|Hk]; [set_solver|]).
    inversion Hk.
Defined.

End TagFacts.

(** ** operations-collector.ts and properties-builder.ts: what is kept *)

Module OperationFacts.
Import Operations CollectorFacts InvariantFacts.

(** An option with a value that is a string. *)
Definition valued (option : json) : Prop := exists v, get "value" option = JStr v.

(** A field that is shown for one resource and one operation. *)
Definition scoped (field : json) : Prop :=
  exists resource operation, get "displayOptions" field = show resource operation.

(** What the collector keeps of its state: every field is scoped, every
    resource has one entry, and the options of an entry are there and
    differ in their values. *)
Record kept (c : Collector) : Prop := {
  fields_scoped : Forall scoped (collectedFields c);
  resources_distinct : NoDup (map fst (resourceOptions c));
  options_present : Forall (fun entry => snd entry <> []) (resourceOptions c);
  options_valued : Forall (fun entry => Forall valued (snd entry)) (resourceOptions c);
  values_distinct :
    Forall (fun entry => NoDup (map (get "value") (snd entry))) (resourceOptions c)
}.

Lemma kept_new : kept new_Collector.
Proof. split; constructor. Qed.

Lemma existsb_has_value v options :
  Forall valued options ->
  existsb (has_value (JStr v)) options = false ->
  JStr v ∉ map (get "value") options.
Proof.
  induction 1 as [|option options [w Hw] _ IH]; simpl; intros Hex Hin;
    [inversion Hin|].
  apply orb_false_iff in Hex as [Hhead Hex].
  apply elem_of_cons in Hin as [Heq|Hin]; [|exact (IH Hex Hin)].
  unfold has_value in Hhead. rewrite <- Heq in Hhead.
  rewrite String.eqb_refl in Hhead. discriminate.
Qed.

Lemma add_kept resource option m m' :
  valued option ->
  add resource option m = Ok m' ->
  NoDup (map fst m) ->
  Forall (fun entry => snd entry <> []) m ->
  Forall (fun entry => Forall valued (snd entry)) m ->
  Forall (fun entry => NoDup (map (get "value") (snd entry))) m ->
  NoDup (map fst m')
  /\ Forall (fun entry => snd entry <> []) m'
  /\ Forall (fun entry => Forall valued (snd entry)) m'
  /\ Forall (fun entry => NoDup (map (get "value") (snd entry))) m'.
Proof.
  intros [v Hv] Hadd Hnd Hpresent Hvalued Hdistinct. unfold add in Hadd.
  destruct (existsb _ _) eqn:Hex; [discriminate|]. inversion Hadd; subst m'.
  set (options := default [] (Resources.map_get resource m)) in *.
  assert (Hoptions : Forall valued options /\ NoDup (map (get "value") options)).
  { unfold options. destruct (Resources.map_get resource m) as [found|] eqn:Hget.
    - apply TagFacts.map_get_elem in Hget.
      rewrite Forall_forall in Hvalued, Hdistinct.
      split; [exact (Hvalued _ Hget)|exact (Hdistinct _ Hget)].
    - split; constructor. }
  destruct Hoptions as [Hov Hod].
  split; [apply TagFacts.map_set_NoDup; exact Hnd|].
  split; [|split]; (apply TagFacts.map_set_Forall; [assumption|]); cbn [snd].
  - destruct options; discriminate.
  - apply Forall_app. split; [exact Hov|]. constructor; [exists v; exact Hv|constructor].
  - rewrite map_app. apply NoDup_app. split; [exact Hod|]. split.
    + intros x Hx Hin. apply list_elem_of_singleton in Hin. subst x.
      rewrite Hv in Hx, Hex. exact (existsb_has_value v options Hov Hex Hx).
    + apply NoDup_singleton.
Qed.

Lemma AddDisplayOption_scoped fields resource operation :
  Forall is_object fields ->
  Forall scoped (AddDisplayOption fields resource operation).
Proof.
  intros Hobjects. unfold AddDisplayOption. apply Forall_forall.
  intros field Hin. apply list_elem_of_fmap in Hin as (field0 & -> & Hin).
  rewrite Forall_forall in Hobjects. destruct (Hobjects _ Hin) as [props ->].
  exists resource, operation. simpl. rewrite lookup_set_key_eq. reflexivity.
Qed.

Section Collector.
Context {host : Host}.
Variable fuel : nat.
Variable operationParser : IOperationParser.
Variable resourceParser : Resources.IResourceParser.
Variable class : CollectorClass.

Lemma register_kept option operationFields resources : forall c c' outcome,
  valued option ->
  Forall is_object operationFields ->
  register option operationFields resources c = (c', outcome) ->
  kept c -> kept c'.
Proof.
  induction resources as [|r rs IH]; intros c c' outcome Hvalue Hobjects Hreg Hkept.
  - inversion Hreg; subst. exact Hkept.
  - cbn [register] in Hreg. cbv zeta in Hreg.
    destruct (add r option (resourceOptions c)) as [m'| |] eqn:Hadd;
      try (inversion Hreg; subst; exact Hkept).
    destruct Hkept as [Hscoped Hnd Hpresent Hvalued Hdistinct].
    destruct (add_kept _ _ _ _ Hvalue Hadd Hnd Hpresent Hvalued Hdistinct)
      as (Hnd' & Hpresent' & Hvalued' & Hdistinct').
    eapply IH; [exact Hvalue|exact Hobjects|exact Hreg|].
    split; cbn [collectedFields resourceOptions]; try assumption.
    apply Forall_app. split; [exact Hscoped|].
    apply AddDisplayOption_scoped. exact Hobjects.
Qed.

Lemma ParseOperation_inv doc operation context c c1 option operationFields :
  ParseOperation fuel operationParser class doc operation context c
  = (c1, Ok (option, operationFields)) ->
  valued option /\ Forall is_object operationFields
  /\ collectedFields c1 = collectedFields c
  /\ resourceOptions c1 = resourceOptions c.
Proof.
  unfold ParseOperation, ParseFields. intros Hparse.
  destruct (MapFromParameters fuel doc (get "parameters" operation))
    as [parameterFields| |] eqn:Hparams; try discriminate.
  pose proof (MapFromParameters_fields _ _ _ _ Hparams) as Hpf.
  assert (Hpo : Forall is_object parameterFields).
  { eapply List.Forall_impl; [|exact Hpf]. intros a [Ha _]. exact Ha. }
  assert (Hnotice : forall notice, is_object (method_notice notice))
    by (intros; eexists; reflexivity).
  assert (Hbody : forall notice, is_object (body_notice notice))
    by (intros; eexists; reflexivity).
  destruct (MapFromRequestBody fuel doc (get "requestBody" operation))
    as [bodyFields|error|] eqn:Hbodies; try discriminate.
  - pose proof (MapFromRequestBody_objects _ _ _ _ Hbodies) as Hbo.
    inversion Hparse; subst. split; [eexists; reflexivity|].
    split; [|split; reflexivity].
    destruct class; repeat first [apply Forall_cons_2|apply Forall_app_2]; auto.
  - inversion Hparse; subst. split; [eexists; reflexivity|].
    split; [|split; reflexivity].
    destruct class;
      repeat first [apply Forall_cons_2|apply Forall_app_2|apply Forall_nil_2]; auto.
Qed.

Lemma ParseOperation_state doc operation context c c1 outcome :
  ParseOperation fuel operationParser class doc operation context c = (c1, outcome) ->
  collectedFields c1 = collectedFields c /\ resourceOptions c1 = resourceOptions c.
Proof.
  unfold ParseOperation, ParseFields. intros Hparse.
  destruct (MapFromParameters fuel doc (get "parameters" operation));
    [destruct (MapFromRequestBody fuel doc (get "requestBody" operation))| |];
    inversion Hparse; subst; split; reflexivity.
Qed.

Lemma kept_state c c' :
  collectedFields c' = collectedFields c ->
  resourceOptions c' = resourceOptions c ->
  kept c -> kept c'.
Proof.
  intros Hf Ho [H1 H2 H3 H4 H5]. split; rewrite ?Hf, ?Ho; assumption.
Qed.

Lemma VisitOperationInternal_kept doc operation context c c' outcome :
  VisitOperationInternal fuel operationParser resourceParser class doc operation context c
  = (c', outcome) ->
  kept c -> kept c'.
Proof.
  unfold VisitOperationInternal. intros Hvisit Hkept.
  destruct (match shouldSkip operationParser with
            | Some legacy => legacy operation context
            | None => false
            end).
  { inversion Hvisit; subst. eapply kept_state; [| |exact Hkept]; reflexivity. }
  destruct (ParseOperation fuel operationParser class doc operation context c)
    as [c1 [[option operationFields]|error|]] eqn:Hparse.
  - destruct (ParseOperation_inv _ _ _ _ _ _ _ Hparse) as (Hvalue & Hobjects & Hf & Ho).
    pose proof (kept_state c c1 Hf Ho Hkept) as Hkept1.
    destruct (target_resources resourceParser operation) as [resources|error|];
      try (inversion Hvisit; subst; exact Hkept1).
    eapply register_kept; eauto.
  - destruct (ParseOperation_state _ _ _ _ _ _ Hparse) as [Hf Ho].
    inversion Hvisit; subst. exact (kept_state c c' Hf Ho Hkept).
  - destruct (ParseOperation_state _ _ _ _ _ _ Hparse) as [Hf Ho].
    inversion Hvisit; subst. exact (kept_state c c' Hf Ho Hkept).
Qed.

Lemma VisitOperation_kept doc operation context c c' :
  VisitOperation fuel operationParser resourceParser class doc operation context c = Ok c' ->
  kept c -> kept c'.
Proof.
  unfold VisitOperation. intros Hvisit Hkept. cbv zeta in Hvisit.
  match type of Hvisit with
  | match VisitOperationInternal _ _ _ _ _ _ _ ?c0 with _ => _ end = _ =>
      assert (Hkept0 : kept c0)
        by (eapply kept_state; [| |exact Hkept]; reflexivity);
      destruct (VisitOperationInternal fuel operationParser resourceParser class
                  doc operation context c0) as [c1 [[]|error|]] eqn:Hinternal
  end; try discriminate.
  - inversion Hvisit; subst. eapply VisitOperationInternal_kept; eauto.
  - inversion Hvisit; subst.
    eapply kept_state; [| |eapply VisitOperationInternal_kept; eauto]; reflexivity.
Qed.

Lemma Parse_kept doc doc' c :
  Parse (visitor fuel operationParser resourceParser class) doc new_Collector
  = (doc', Ok c) ->
  kept c.
Proof.
  intros Hparse.
  destruct (Parse_parts (visitor fuel operationParser resourceParser class)
              _ _ _ _ eq_refl eq_refl Hparse) as (c0 & Hpaths & Htags & _).
  eapply (ParseTags_invariant _ kept); [|exact Htags|].
  - intros tag st st' Hstep. inversion Hstep. auto.
  - eapply (ParsePaths_invariant _ kept); [|exact Hpaths|apply kept_new].
    intros d operation context st st' Hstep.
    unfold visit_operation in Hstep.
    cbn [visitor Walker.VisitOperation Walker.visitOperation fmap option_fmap
         option_map call_hook] in Hstep.
    apply bind_Ok in Hstep as (st1 & Hstep & Hrest). inversion Hrest; subst.
    eapply VisitOperation_kept; eauto.
Qed.

(** X25.  After a walk of any document the operations collector holds
    one entry for each resource, every entry has at least one option,
    and no two options of an entry have the same value. *)
Theorem Parse_options_distinct doc doc' c :
  Parse (visitor fuel operationParser resourceParser class) doc new_Collector
  = (doc', Ok c) ->
  NoDup (map fst (resourceOptions c))
  /\ forall resource options,
       (resource, options) ∈ resourceOptions c ->
       options <> [] /\ NoDup (map (get "value") options).
Proof.
  intros Hparse. destruct (Parse_kept _ _ _ Hparse) as [_ Hnd Hpresent _ Hdistinct].
  split; [exact Hnd|]. intros resource options Hin.
  rewrite Forall_forall in Hpresent, Hdistinct.
  split; [exact (Hpresent _ Hin)|exact (Hdistinct _ Hin)].
Qed.

(** X26.  An operation the legacy hook [shouldSkip] of the parser
    answers true for is passed over: the visit returns normally, no
    field and no option is added, and one record of level info with the
    context of the operation is logged. *)
Theorem skipped_operation_ignored doc operation context c legacy :
  shouldSkip operationParser = Some legacy ->
  legacy operation context = true ->
  exists c',
    VisitOperation fuel operationParser resourceParser class doc operation context c
    = Ok c'
    /\ collectedFields c' = collectedFields c
    /\ resourceOptions c' = resourceOptions c
    /\ logs c' = logs c ++ [{| level := info;
                               data := contextData operation context;
                               message := "Skipping operation" |}].
Proof.
  intros Hhook Hskip. unfold VisitOperation, VisitOperationInternal.
  rewrite Hhook, Hskip. cbv zeta. eexists. split; [reflexivity|].
  repeat split; reflexivity.
Qed.

End Collector.

Section Evaluation.
#[local] Existing Instance sample_host.

(** Two operations of one resource, one of them also under a second
    resource. *)
Definition orders_doc : json :=
  JObj [("paths",
         JObj [("/orders",
                JObj [("get", JObj [("operationId", JStr "listOrders");
                                    ("tags", JArr [JStr "Store"])]);
                      ("post", JObj [("operationId", JStr "placeOrder");
                                     ("tags", JArr [JStr "Store"; JStr "Cart"])])])])].

Definition orders_collector : Collector :=
  match snd (Parse (visitor 3 OperationParser plain_ResourceParser OperationCollector)
               orders_doc new_Collector) with
  | Ok c => c
  | _ => new_Collector
  end.

Lemma Parse_options_distinct_witness :
  NoDup (map fst (resourceOptions orders_collector))
  /\ forall resource options,
       (resource, options) ∈ resourceOptions orders_collector ->
       options <> [] /\ NoDup (map (get "value") options).
Proof.
  apply (Parse_options_distinct 3 OperationParser plain_ResourceParser OperationCollector
           orders_doc orders_doc orders_collector).
  vm_compute. reflexivity.
Defined.

Definition retired_operation : json :=
  JObj [("operationId", JStr "oldOrders"); ("deprecated", JBool true)].

Definition orders_context : IOperationContext :=
  {| pattern := "/orders"; path := JObj []; method := "get" |}.

Lemma skipped_operation_ignored_witness :
  exists c',
    VisitOperation 3 OperationParser plain_ResourceParser OperationCollector
      orders_doc retired_operation orders_context new_Collector
    = Ok c'
    /\ collectedFields c' = []
    /\ resourceOptions c' = []
    /\ logs c' = [{| level := info;
                     data := contextData retired_operation orders_context;
                     message := "Skipping operation" |}].
Proof.
  exact (skipped_operation_ignored 3 OperationParser plain_ResourceParser
           OperationCollector orders_doc retired_operation orders_context
           new_Collector OperationParser_ShouldSkip eq_refl eq_refl).
Defined.

End Evaluation.

End OperationFacts.

Module BuilderFacts.
Import Operations Builder CollectorFacts InvariantFacts OperationFacts.

Section Builder.
Context {host : Host}.
Variable fuel : nat.
Variable operationParser : IOperationParser.
Variable resourceParser : Resources.IResourceParser.
Variable class : CollectorClass.

(** One override on one property. *)
Definition override (element : json) (pattern : IPropertyOverride) : json :=
  if isMatch element (find pattern)
  then assign_field (replace pattern) element else element.

(** X27.  The overrides never add, remove or reorder properties: every
    property of the result is the property at the same place with the
    overrides applied to it one after the other, each one where its
    [find] matches the property as the earlier ones have left it. *)
Theorem UpdateProperties_elementwise fields patterns :
  UpdateProperties fields patterns = map (fun element => fold_left override patterns element) fields
  /\ length (UpdateProperties fields patterns) = length fields.
Proof.
  assert (Hmap : UpdateProperties fields patterns
                 = map (fun element => fold_left override patterns element) fields).
  { unfold UpdateProperties. revert fields.
    induction patterns as [|pattern patterns IH]; intros fields; cbn [fold_left].
    - symmetry. apply map_id.
    - rewrite IH, map_map. reflexivity. }
  split; [exact Hmap|]. rewrite Hmap. apply length_map.
Qed.

Lemma Parse_without_paths {S : Type} (v : IOpenApiVisitor S) doc st :
  visitDocument v = None ->
  Finish v = None ->
  truthy (get "paths" doc) = false ->
  Parse v doc st
  = (doc, if is_nullish doc then Throw TypeError else ParseTags v doc st).
Proof.
  intros Hdocument Hfinish Hpaths. unfold Parse, ParsePaths.
  rewrite Hdocument, Hfinish, Hpaths.
  cbn [fmap option_fmap option_map call_hook negb].
  destruct (is_nullish doc); [reflexivity|].
  destruct (ParseTags v doc st); reflexivity.
Qed.

(** X28.  A document without paths has no operations: when the walk of
    the resource collector succeeds, [Build] throws the error of the
    getter [operations], whatever tags the document declares, and leaves
    the document as it is. *)
Theorem Build_without_paths doc overrides resourceCollector :
  truthy (get "paths" doc) = false ->
  snd (Parse Resources.visitor doc Resources.new_ResourceCollector) = Ok resourceCollector ->
  Build fuel operationParser resourceParser class doc overrides
  = (doc, Throw "No operations found in OpenAPI document").
Proof.
  intros Hpaths Hresources. unfold Build.
  rewrite (Parse_without_paths Resources.visitor doc _ eq_refl eq_refl Hpaths)
    in Hresources |- *.
  rewrite (Parse_without_paths (visitor fuel operationParser resourceParser class)
             doc _ eq_refl eq_refl Hpaths).
  cbn [snd] in Hresources. rewrite Hresources.
  destruct (is_nullish doc); [discriminate|].
  assert (Htags : ParseTags (visitor fuel operationParser resourceParser class)
                    doc new_Collector = Ok new_Collector).
  { unfold ParseTags in *.
    destruct (negb (truthy (get "tags" doc))); [reflexivity|].
    assert (Hnone : forall items,
      visit_tags (visitor fuel operationParser resourceParser class) items new_Collector
      = Ok new_Collector).
    { induction items as [|item items IH]; [reflexivity|exact IH]. }
    destruct (get "tags" doc); try apply Hnone; discriminate. }
  rewrite Htags. reflexivity.
Qed.

(** X29.  The layout of what [Build] returns without overrides: the
    resource selector, then the operation selectors, at least one and
    one for each resource, then the fields, each shown for one resource
    and one operation only. *)
Theorem Build_layout doc doc' properties :
  Build fuel operationParser resourceParser class doc [] = (doc', Ok properties) ->
  exists resourceCollector operationsCollector,
    properties
    = Resources.resources resourceParser resourceCollector
      :: map operation_selector (resourceOptions operationsCollector)
      ++ collectedFields operationsCollector
    /\ resourceOptions operationsCollector <> []
    /\ NoDup (map fst (resourceOptions operationsCollector))
    /\ Forall scoped (collectedFields operationsCollector).
Proof.
  unfold Build. intros Hbuild.
  destruct (Parse Resources.visitor doc Resources.new_ResourceCollector)
    as [doc1 [resourceCollector|error|]]; try discriminate.
  destruct (Parse (visitor fuel operationParser resourceParser class) doc1 new_Collector)
    as [doc2 [operationsCollector|error|]] eqn:Hparse; try discriminate.
  pose proof (Parse_kept _ _ _ _ _ _ _ Hparse) as [Hscoped Hnd _ _ _].
  inversion Hbuild as [[Hdoc Hproperties]]. clear Hbuild.
  unfold operations in Hproperties.
  destruct (resourceOptions operationsCollector) as [|entry entries] eqn:Hentries;
    [discriminate|].
  rewrite Ok_bind in Hproperties. inversion Hproperties.
  exists resourceCollector, operationsCollector.
  rewrite Hentries. split; [reflexivity|]. split; [discriminate|].
  split; [exact Hnd|exact Hscoped].
Qed.

End Builder.

Section Evaluation.
#[local] Existing Instance sample_host.

(** A document that declares a tag and has no paths. *)
Definition tags_only_doc : json :=
  JObj [("tags", JArr [JObj [("name", JStr "Pet")]])].

Lemma Build_without_paths_witness :
  Build 3 OperationParser plain_ResourceParser OperationCollector tags_only_doc []
  = (tags_only_doc, Throw "No operations found in OpenAPI document").
Proof.
  apply (Build_without_paths 3 OperationParser plain_ResourceParser OperationCollector
           tags_only_doc []
           {| Resources.tags := [("Pet", {| Resources.name := "Pet";
                                            Resources.description := "" |})];
              Resources.tagsOrder := <["Pet" := 0%nat]> ∅ |}).
  - reflexivity.
  - vm_compute. reflexivity.
Defined.

Definition orders_properties : list json :=
  match snd (Build 3 OperationParser plain_ResourceParser OperationCollector
               OperationFacts.orders_doc []) with
  | Ok properties => properties
  | _ => []
  end.

Lemma Build_layout_witness :
  exists resourceCollector operationsCollector,
    orders_properties
    = Resources.resources plain_ResourceParser resourceCollector
      :: map operation_selector (resourceOptions operationsCollector)
      ++ collectedFields operationsCollector
    /\ resourceOptions operationsCollector <> []
    /\ NoDup (map fst (resourceOptions operationsCollector))
    /\ Forall scoped (collectedFields operationsCollector).
Proof.
  apply (Build_layout 3 OperationParser plain_ResourceParser OperationCollector
           OperationFacts.orders_doc OperationFacts.orders_doc orders_properties).
  vm_compute. reflexivity.
Defined.

End Evaluation.

End BuilderFacts.

(** ** properties-builder.ts: an operation whose request body does not map *)

Module RecoveryFacts.
Import Operations Builder WalkerFacts VisitFacts CollectorFacts InvariantFacts OperationFacts.






Section Replay.
Context {S : Type} (visitor : IOpenApiVisitor S).





End Replay.






#[local] Arguments set_in : simpl never.

Section Layout.
Context {S : Type} (visitor : IOpenApiVisitor S).






End Layout.

Section Recovery.
Context {host : Host}.
Variable fuel : nat.
Variable operationParser : IOperationParser.
Variable resourceParser : Resources.IResourceParser.
Variable class : CollectorClass.




















End Recovery.

Section Evaluation.
#[local] Existing Instance sample_host.






Definition listed : json :=
  JObj [("operationId", JStr "List"); ("tags", JArr [JStr "Entity"])].





End Evaluation.

End RecoveryFacts.
